(** * superexpressive: a chainable builder of regular expressions

    Shallow embedding of [superexpressive/types.py] (the node classes and
    their rendering) and [superexpressive/__init__.py] (the immutable
    builder [SuperExpressive]), followed by the properties that the builder
    is expected to satisfy.

    Modelling choices, all taken from the Python source:
    - a Python [str] is a list of Unicode code points ([Z]); a Python [int]
      is a [Z];
    - every node object carries its identity ([oid]); the operator [is]
      compares identities, and every instantiation of a class takes a fresh
      identity from an allocation counter that the monad [M] threads;
    - an exception is the [Raise] result of the monad, labelled with the
      class of the exception;
    - [frozenset] is stdpp's [gset]. *)

From Stdlib Require Import ZArith Lia Ascii String DecimalString.
From stdpp Require Import base option list gmap.

Abbreviation str := (list Z) (only parsing).

(** ** Strings *)

(** A Rocq literal read as a Python string. *)
Definition lit (s : string) : str :=
  List.map (fun a => Z.of_N (N_of_ascii a)) (list_ascii_of_string s).

(** [str(n)] for an [int]. *)
Definition str_of_int (n : Z) : str := lit (NilZero.string_of_int (Z.to_int n)).

(** [sep.join(parts)]. *)
Fixpoint join (sep : str) (parts : list str) : str :=
  match parts with
  | [] => []
  | [p] => p
  | p :: ps => p ++ sep ++ join sep ps
  end.

Definition mem (c : Z) (s : str) : bool := existsb (Z.eqb c) s.

Definition HEX_DIGITS : str := lit "0123456789abcdefABCDEF".
Definition ascii_letters : str :=
  lit "abcdefghijklmnopqrstuvwxyzABCDEFGHIJKLMNOPQRSTUVWXYZ".
Definition digits : str := lit "0123456789".
Definition GROUP_NAME_CHARS : str := ascii_letters ++ digits ++ lit "_".
Definition SPECIAL_CHARS : str := lit "\.^$|?*+()[]{}-".

(** [s.translate(ESCAPE_TABLE)]: every special character gets a backslash. *)
Definition translate (s : str) : str :=
  flat_map (fun c => if mem c SPECIAL_CHARS then lit "\" ++ [c] else [c]) s.

(** [set(s) - allowed] is empty. *)
Definition all_in (s allowed : str) : bool := forallb (fun c => mem c allowed) s.

(** [name[0].isalpha()], on the only strings where the source evaluates it
    with an effect: the test is the right operand of an [or] whose left
    operand has already established that every character of [name] is in
    [GROUP_NAME_CHARS], where a character is alphabetic exactly when it is
    an ASCII letter. *)
Definition isalpha0 (name : str) : bool :=
  match name with
  | [] => false
  | c :: _ => mem c ascii_letters
  end.

(** ** Exceptions and the allocation monad *)

Inductive exn :=
| ValueError | RuntimeError | AttributeError | IndexError | OverflowError.

Inductive result (A : Type) :=
| Ok (a : A)
| Raise (e : exn).
Arguments Ok {A} a.
Arguments Raise {A} e.

(** A computation that may raise and may instantiate objects; the state is
    the next unused object identity. *)
Definition M (A : Type) : Type := nat -> result (A * nat).

Definition ret {A} (a : A) : M A := fun h => Ok (a, h).
Definition raise {A} (e : exn) : M A := fun _ => Raise e.
Definition bind {A B} (m : M A) (k : A -> M B) : M B :=
  fun h => match m h with
           | Ok (a, h') => k a h'
           | Raise e => Raise e
           end.
Definition lift {A} (r : result A) : M A :=
  fun h => match r with Ok a => Ok (a, h) | Raise e => Raise e end.
Definition alloc : M nat := fun h => Ok (h, S h).

Notation "x <- m ;; k" := (bind m (fun x => k))
  (at level 100, m at next level, right associativity).

Definition check (b : bool) (e : exn) : result unit :=
  if b then Raise e else Ok tt.

Definition rbind {A B} (r : result A) (k : A -> result B) : result B :=
  match r with Ok a => k a | Raise e => Raise e end.

(** The value of an expression that the object's own [__post_init__] has
    already evaluated without an exception. *)
Definition checked (r : result str) : str :=
  match r with Ok s => s | Raise _ => [] end.

(** [chr(n)]: outside [range(0x110000)] the built-in raises [ValueError],
    and beyond a C [int] it raises [OverflowError]. *)
Definition chr (n : Z) : result str :=
  if ((0 <=? n) && (n <? 1114112))%Z then Ok [n]
  else if ((-2147483648 <=? n) && (n <=? 2147483647))%Z then Raise ValueError
  else Raise OverflowError.

(** [int(code, 16)] on a string of hexadecimal digits. *)
Definition hex_value (c : Z) : Z :=
  if ((48 <=? c) && (c <=? 57))%Z then (c - 48)%Z
  else if ((97 <=? c) && (c <=? 102))%Z then (c - 87)%Z
  else (c - 55)%Z.
Definition int16 (code : str) : Z :=
  fold_left (fun acc c => (16 * acc + hex_value c)%Z) code 0%Z.

(** ** types.py: the node classes *)

(** [Union[int, str]], the argument of [Char], [Range], [AnythingButRange]. *)
Inductive CharT :=
| CInt (n : Z)
| CStr (s : str).

(** The classes without children.  [Unicode] records, next to its code, the
    outcome of [unicodedata.lookup(code)]: [true] when the lookup finds a
    character of that name, [false] when it raises [KeyError]. *)
Inductive LeafT :=
| Noop | StartOfInput | EndOfInput | AnyChar | WhitespaceChar
| NonWhitespaceChar | Digit | NonDigit | Word | NonWord | WordBoundary
| NonWordBoundary | Newline | CarriageReturn | Tab | NullByte
| AnyOfChars (chars : str)
| AnythingButString (string : str)
| AnythingButChars (chars : str)
| AnythingButRange (low high : CharT)
| Char (char : CharT)
| Range (low high : CharT)
| String (string : str)
| NamedBackReference (name : str)
| Backreference (index : Z)
| AsciiBell | AsciiBackspace | AsciiFormfeed | AsciiVerticalTab | Backslash
| StartOfString | EndOfString
| Hex (code : str)
| Unicode (code : str) (found : bool).

(** The subclasses of [Quantifier], the only subclasses of [ContainsChild]. *)
Inductive Quantifier :=
| Exactly (times : Z)
| AtLeast (times : Z)
| Between (low high : Z)
| BetweenLazy (low high : Z)
| ZeroOrMore | ZeroOrMoreLazy | OneOrMore | OneOrMoreLazy | Opt.

(** The subclasses of [ContainsChildren]. *)
Inductive Container :=
| Root | Capture | Subexpression
| NamedCapture (name : str)
| Group | AnyOf | AssertAhead | AssertNotAhead.

#[local] Set Warnings "-register-all".

(** A node object: its identity, its class with the fields of the class,
    and its child ([None] until it is set) or children. *)
Inductive Element :=
| Leaf (oid : nat) (l : LeafT)
| ContainsChild (oid : nat) (q : Quantifier) (child : option Element)
| ContainsChildren (oid : nat) (k : Container) (children : list Element).

Definition oid (e : Element) : nat :=
  match e with
  | Leaf i _ | ContainsChild i _ _ | ContainsChildren i _ _ => i
  end.

(** [a is b]; [None] is a singleton. *)
Definition is_ (a b : Element) : bool := Nat.eqb (oid a) (oid b).
Definition is_opt (a b : option Element) : bool :=
  match a, b with
  | None, None => true
  | Some x, Some y => is_ x y
  | _, _ => false
  end.

(** *** isinstance *)

Definition isinstance_ContainsChild (e : Element) : bool :=
  match e with ContainsChild _ _ _ => true | _ => false end.
Definition isinstance_ContainsChildren (e : Element) : bool :=
  match e with ContainsChildren _ _ _ => true | _ => false end.
Definition isinstance_Quantifier (e : Element) : bool :=
  isinstance_ContainsChild e.
Definition isinstance_QuantifierRequiresGroup (e : Element) : bool :=
  match e with
  | Leaf _ (String _) => true
  | ContainsChildren _ Root _ | ContainsChildren _ Subexpression _ => true
  | _ => false
  end.
Definition isinstance_StartOfInput (e : Element) : bool :=
  match e with Leaf _ StartOfInput => true | _ => false end.
Definition isinstance_EndOfInput (e : Element) : bool :=
  match e with Leaf _ EndOfInput => true | _ => false end.
Definition isinstance_AnyOf (e : Element) : bool :=
  match e with ContainsChildren _ AnyOf _ => true | _ => false end.

(** *** __post_init__ *)

Definition check_name (name : str) : result unit :=
  rbind (check (bool_decide (name = [])) ValueError) (fun _ =>
  check (negb (all_in name GROUP_NAME_CHARS) || negb (isalpha0 name)) ValueError).

(** The properties [_char], [_low], [_high]. *)
Definition CharT_str (c : CharT) : result str :=
  match c with
  | CInt n => chr n
  | CStr s => Ok s
  end.

(** [try: _ = self._low / except ValueError as e: raise ValueError from e]:
    a [ValueError] is raised again as a [ValueError], any other exception
    passes through. *)
Definition ord (s : str) : Z := hd 0%Z s.

Definition Range_post_init (low high : CharT) : result unit :=
  rbind (CharT_str low) (fun lo =>
  rbind (CharT_str high) (fun hi =>
  rbind (check (negb (length lo =? 1)) ValueError) (fun _ =>
  rbind (check (negb (length hi =? 1)) ValueError) (fun _ =>
  check (ord hi <=? ord lo)%Z ValueError)))).

(** [Unicode.__str__], which [Unicode.__post_init__] evaluates. *)
Definition Unicode_str (code : str) (found : bool) : result str :=
  if found then Ok (lit "\N{" ++ code ++ lit "}")
  else if (length code =? 4) && all_in code HEX_DIGITS
  then Ok (lit "\u" ++ code)
  else if (4 <? length code) && (length code <=? 8) && all_in code HEX_DIGITS
  then match chr (int16 code) with
       | Ok _ => Ok (lit "\U" ++ code)
       | Raise e => Raise e   (* a ValueError falls through to the final raise *)
       end
  else Raise ValueError.

Definition LeafT_post_init (l : LeafT) : result unit :=
  match l with
  | AnyOfChars chars | AnythingButChars chars =>
      check (bool_decide (chars = [])) ValueError
  | AnythingButString s | String s => check (bool_decide (s = [])) ValueError
  | AnythingButRange low high | Range low high => Range_post_init low high
  | Char (CStr s) => check (negb (length s =? 1)) ValueError
  | Char (CInt n) => rbind (chr n) (fun _ => Ok tt)
  | NamedBackReference name => check_name name
  | Backreference index => check (index <? 0)%Z ValueError
  | Hex code =>
      check (negb (length code =? 2) || negb (all_in code HEX_DIGITS)) ValueError
  | Unicode code found => rbind (Unicode_str code found) (fun _ => Ok tt)
  | _ => Ok tt
  end.

Definition Quantifier_post_init (q : Quantifier) : result unit :=
  match q with
  | Exactly times | AtLeast times => check (times <=? 0)%Z ValueError
  | Between low high | BetweenLazy low high =>
      rbind (check (low <? 0)%Z ValueError) (fun _ =>
      check (high <=? low)%Z ValueError)
  | _ => Ok tt
  end.

Definition Container_post_init (k : Container) : result unit :=
  match k with
  | NamedCapture name => check_name name
  | _ => Ok tt
  end.

(** *** Instantiation: calling a class with its fields runs
    [__post_init__] and yields a new object. *)

Definition new_Leaf (l : LeafT) : M Element :=
  _ <- lift (LeafT_post_init l) ;;
  i <- alloc ;;
  ret (Leaf i l).

Definition new_ContainsChild (q : Quantifier) (child : option Element) : M Element :=
  _ <- lift (Quantifier_post_init q) ;;
  i <- alloc ;;
  ret (ContainsChild i q child).

Definition new_ContainsChildren (k : Container) (children : list Element) : M Element :=
  _ <- lift (Container_post_init k) ;;
  i <- alloc ;;
  ret (ContainsChildren i k children).

(** *** replace_child and add_child *)

(** [ContainsChild.replace_child]. *)
Definition ContainsChild_replace_child (self : Element) (old new : option Element)
  : M Element :=
  match self with
  | ContainsChild _ q child =>
      if negb (is_opt child old) then raise ValueError
      else new_ContainsChild q new
  | _ => raise AttributeError
  end.

(** [ContainsChildren.replace_child]. *)
Definition ContainsChildren_replace_child (self : Element) (old new : Element)
  : M Element :=
  match self with
  | ContainsChildren _ k children =>
      let children' := List.map (fun c => if is_ c old then new else c) children in
      if negb (existsb (fun c => is_ c new) children') then raise ValueError
      else new_ContainsChildren k children'
  | _ => raise AttributeError
  end.

(** [self.replace_child(old, new)], dispatched on the class of [self]. *)
Definition replace_child (self : Element) (old new : Element) : M Element :=
  match self with
  | ContainsChild _ _ _ => ContainsChild_replace_child self (Some old) (Some new)
  | ContainsChildren _ _ _ => ContainsChildren_replace_child self old new
  | Leaf _ _ => raise AttributeError
  end.

(** [self.add_child(child)], dispatched on the class of [self]. *)
Definition add_child (self : Element) (child : Element) : M Element :=
  match self with
  | ContainsChild _ q c =>
      match c with
      | Some _ => raise RuntimeError
      | None => new_ContainsChild q (Some child)
      end
  | ContainsChildren _ k children => new_ContainsChildren k (children ++ [child])
  | Leaf _ _ => raise AttributeError
  end.

(** *** __str__ *)

Definition escaped (c : CharT) : str := translate (checked (CharT_str c)).

Definition LeafT_str (l : LeafT) : str :=
  match l with
  | Noop => lit ""
  | StartOfInput => lit "^"
  | EndOfInput => lit "$"
  | AnyChar => lit "."
  | WhitespaceChar => lit "\s"
  | NonWhitespaceChar => lit "\S"
  | Digit => lit "\d"
  | NonDigit => lit "\D"
  | Word => lit "\w"
  | NonWord => lit "\W"
  | WordBoundary => lit "\b"
  | NonWordBoundary => lit "\B"
  | Newline => lit "\n"
  | CarriageReturn => lit "\r"
  | Tab => lit "\t"
  | NullByte => lit "\x00"
  | AnyOfChars chars => lit "[" ++ translate chars ++ lit "]"
  | AnythingButString s =>
      lit "(?:" ++ flat_map (fun c => lit "[^" ++ translate [c] ++ lit "]") s ++ lit ")"
  | AnythingButChars chars => lit "[^" ++ translate chars ++ lit "]"
  | AnythingButRange low high =>
      lit "[^" ++ escaped low ++ lit "-" ++ escaped high ++ lit "]"
  | Char c => escaped c
  | Range low high => lit "[" ++ escaped low ++ lit "-" ++ escaped high ++ lit "]"
  | String s => translate s
  | NamedBackReference name => lit "\g<" ++ name ++ lit ">"
  | Backreference index => lit "\" ++ str_of_int index
  | AsciiBell => lit "\a"
  | AsciiBackspace => lit "\b"
  | AsciiFormfeed => lit "\f"
  | AsciiVerticalTab => lit "\v"
  | Backslash => lit "\\"
  | StartOfString => lit "\A"
  | EndOfString => lit "\Z"
  | Hex code => lit "\x" ++ code
  | Unicode code found => checked (Unicode_str code found)
  end.

(** The property [symbol] of the quantifiers. *)
Definition symbol (q : Quantifier) : str :=
  match q with
  | Exactly times => lit "{" ++ str_of_int times ++ lit "}"
  | AtLeast times => lit "{" ++ str_of_int times ++ lit ",}"
  | Between low high => lit "{" ++ str_of_int low ++ lit "," ++ str_of_int high ++ lit "}"
  | BetweenLazy low high =>
      (lit "{" ++ str_of_int low ++ lit "," ++ str_of_int high ++ lit "}") ++ lit "?"
  | ZeroOrMore => lit "*"
  | ZeroOrMoreLazy => lit "*" ++ lit "?"
  | OneOrMore => lit "+"
  | OneOrMoreLazy => lit "+" ++ lit "?"
  | Opt => lit "?"
  end.

(** What a child of [AnyOf] contributes to the fused class: the test is on
    the exact class ([type(child) is Char], ...), so the subclass
    [AnythingButChars] of [AnyOfChars] contributes nothing. *)
Definition fusable_text (child : Element) : option str :=
  match child with
  | Leaf _ (Char c) => Some (escaped c)
  | Leaf _ (AnyOfChars chars) => Some (translate chars)
  | Leaf _ (Range low high) => Some (escaped low ++ lit "-" ++ escaped high)
  | _ => None
  end.

(** [type(child) in {Char, AnyOfChars, Range}], the test of the list
    [inner_bits]. *)
Definition is_fusable (child : Element) : bool :=
  match child with
  | Leaf _ (Char _) | Leaf _ (AnyOfChars _) | Leaf _ (Range _ _) => true
  | _ => false
  end.

(** [AnyOf.__str__], from the list [fusable] and the list [inner_bits]. *)
Definition AnyOf_str (fusable inner_bits : list str) : str :=
  match fusable with
  | [] => lit "(?:" ++ join (lit "|") inner_bits ++ lit ")"
  | _ :: _ =>
      match inner_bits with
      | [] => lit "[" ++ concat fusable ++ lit "]"
      | _ :: _ =>
          lit "(?:"
          ++ join (lit "|") (inner_bits ++ [lit "[" ++ concat fusable ++ lit "]"])
          ++ lit ")"
      end
  end.

(** [str(element)]. *)
Fixpoint str_ (e : Element) : str :=
  match e with
  | Leaf _ l => LeafT_str l
  | ContainsChild _ q child =>
      let inner := match child with Some c => str_ c | None => lit "None" end in
      let inner :=
        if match child with
           | Some c => isinstance_QuantifierRequiresGroup c
           | None => false
           end
        then lit "(?:" ++ inner ++ lit ")" else inner in
      inner ++ symbol q
  | ContainsChildren _ k children =>
      let inner := concat (List.map str_ children) in
      match k with
      | Root | Subexpression => inner
      | Capture => lit "(" ++ inner ++ lit ")"
      | NamedCapture name => lit "(?P<" ++ name ++ lit ">" ++ inner ++ lit ")"
      | Group => lit "(?:" ++ inner ++ lit ")"
      | AssertAhead => lit "(?=" ++ inner ++ lit ")"
      | AssertNotAhead => lit "(?!" ++ inner ++ lit ")"
      | AnyOf =>
          AnyOf_str
            (flat_map (fun c => match fusable_text c with
                                | Some t => [t]
                                | None => []
                                end) children)
            (flat_map (fun c => if is_fusable c then [] else [str_ c]) children)
      end
  end.

(** ** __init__.py: the builder *)

(** The frozen dataclass [SuperExpressive].  The stack lists the open nodes
    from the root (index 0) to the innermost one (index -1). *)
Record SuperExpressive := mkSuperExpressive {
  check_simple_start_and_end : bool;
  stack : list Element;
  named_groups : gset (list Z);
  total_capture_groups : Z;
  f_ascii : bool;
  f_ignorecase : bool;
  f_locale : bool;
  f_unicode : bool;
  f_multiline : bool;
  f_dotall : bool;
  f_global : bool
}.

(** The one object [Root()] that is the default of the field [stack]. *)
Definition Root0 : Element := ContainsChildren 0 Root [].

(** [SuperExpressive(check_simple_start_and_end=strict)]; identity 0 is
    taken by the default root, so allocation starts at 1. *)
Definition SuperExpressive0 (strict : bool) : SuperExpressive :=
  mkSuperExpressive strict [Root0] ∅ 0 false false false true false false false.

(** The keyword arguments of [_replace]; [None] is the default of each.
    The parameters [start_defined] and [end_defined] are passed by no caller
    and name no field, so they are left out. *)
Record kwargs := mkKwargs {
  kw_stack : option (list Element);
  kw_named_groups : option (gset (list Z));
  kw_total_capture_groups : option Z;
  kw_f_ascii : option bool;
  kw_f_ignorecase : option bool;
  kw_f_locale : option bool;
  kw_f_unicode : option bool;
  kw_f_multiline : option bool;
  kw_f_dotall : option bool;
  kw_f_global : option bool
}.

Definition stack_is (v : list Element) : kwargs :=
  mkKwargs (Some v) None None None None None None None None None.
Definition named_groups_is (v : gset (list Z)) : kwargs :=
  mkKwargs None (Some v) None None None None None None None None.
Definition total_capture_groups_is (v : Z) : kwargs :=
  mkKwargs None None (Some v) None None None None None None None.
Definition f_ascii_is (v : bool) : kwargs :=
  mkKwargs None None None (Some v) None None None None None None.
Definition f_ignorecase_is (v : bool) : kwargs :=
  mkKwargs None None None None (Some v) None None None None None.
Definition f_locale_is (v : bool) : kwargs :=
  mkKwargs None None None None None (Some v) None None None None.
Definition f_unicode_is (v : bool) : kwargs :=
  mkKwargs None None None None None None (Some v) None None None.
Definition f_multiline_is (v : bool) : kwargs :=
  mkKwargs None None None None None None None (Some v) None None.
Definition f_dotall_is (v : bool) : kwargs :=
  mkKwargs None None None None None None None None (Some v) None.
Definition f_global_is (v : bool) : kwargs :=
  mkKwargs None None None None None None None None None (Some v).

(** [self._replace(...)]: the fields of [self], overwritten in the order of
    the [if] statements of the source. *)
Definition _replace (self : SuperExpressive) (kw : kwargs) : SuperExpressive :=
  let a := f_ascii self in
  let l := f_locale self in
  let u := f_unicode self in
  let '(a, l, u) :=
    match kw_f_ascii kw with
    | Some v => (v, if v then false else l, if v then false else u)
    | None => (a, l, u)
    end in
  let '(a, l, u) :=
    match kw_f_locale kw with
    | Some v => (if v then false else a, v, if v then false else u)
    | None => (a, l, u)
    end in
  let '(a, l, u) :=
    match kw_f_unicode kw with
    | Some v => (if v then false else a, if v then false else l, v)
    | None => (a, l, u)
    end in
  mkSuperExpressive
    (check_simple_start_and_end self)
    (default (stack self) (kw_stack kw))
    (default (named_groups self) (kw_named_groups kw))
    (default (total_capture_groups self) (kw_total_capture_groups kw))
    a
    (default (f_ignorecase self) (kw_f_ignorecase kw))
    l
    u
    (default (f_multiline self) (kw_f_multiline kw))
    (default (f_dotall self) (kw_f_dotall kw))
    (default (f_global self) (kw_f_global kw)).

(** The property [_start_defined]: a [StartOfInput] directly under one of
    the nodes of the stack. *)
Definition _start_defined (self : SuperExpressive) : bool :=
  existsb (fun s =>
    match s with
    | ContainsChild _ _ (Some c) => isinstance_StartOfInput c
    | ContainsChild _ _ None => false
    | ContainsChildren _ _ children => existsb isinstance_StartOfInput children
    | Leaf _ _ => false
    end) (stack self).

(** The property [_end_defined]: its body in the source tests
    [StartOfInput], as [_start_defined] does. *)
Definition _end_defined (self : SuperExpressive) : bool :=
  existsb (fun s =>
    match s with
    | ContainsChild _ _ (Some c) => isinstance_StartOfInput c
    | ContainsChild _ _ None => false
    | ContainsChildren _ _ children => existsb isinstance_StartOfInput children
    | Leaf _ _ => false
    end) (stack self).

(** [stack[-1]]. *)
Definition top (stack : list Element) : result Element :=
  match rev stack with
  | [] => Raise IndexError
  | current :: _ => Ok current
  end.

Fixpoint drop_ContainsChild (reversed : list Element) : list Element :=
  match reversed with
  | s :: rest => if isinstance_ContainsChild s then drop_ContainsChild rest else reversed
  | [] => []
  end.

(** [while stack and isinstance(stack[-1], ContainsChild): stack = stack[:-1]],
    read on the reversed stack. *)
Definition pop_ContainsChild (stack : list Element) : list Element :=
  rev (drop_ContainsChild (rev stack)).

(** The loop of [_push] over [reversed(stack[:-1])]: every ancestor gets a
    copy that holds the copy of its descendant. *)
Fixpoint propagate (ancestors : list Element) (previous replaced : Element)
    (new_stack : list Element) : M (list Element) :=
  match ancestors with
  | [] => ret new_stack
  | stackable :: rest =>
      replaced' <- replace_child stackable previous replaced ;;
      propagate rest stackable replaced' (new_stack ++ [replaced'])
  end.

Definition _push (self : SuperExpressive) (element : Element) : M SuperExpressive :=
  current <- lift (top (stack self)) ;;
  new <- add_child current element ;;
  new_stack <- propagate (rev (removelast (stack self))) current new [] ;;
  let stack := rev new_stack ++ [new] in
  if isinstance_ContainsChild element || isinstance_ContainsChildren element
  then ret (_replace self (stack_is (stack ++ [element])))
  else ret (_replace self (stack_is (pop_ContainsChild stack))).

(** The loop of [_merge_in_element] over the children of a container;
    [merge] is the recursive call. *)
Fixpoint merge_children
    (merge : SuperExpressive -> Element -> M (SuperExpressive * Element))
    (children : list Element) (merged : SuperExpressive) (element : Element)
  : M (SuperExpressive * Element) :=
  match children with
  | [] => ret (merged, element)
  | child :: rest =>
      r <- merge merged child ;;
      element' <- ContainsChildren_replace_child element child (snd r) ;;
      merge_children merge rest (fst r) element'
  end.

(** [bool(namespace)]. *)
Definition truthy (s : str) : bool := negb (bool_decide (s = [])).

Fixpoint _merge_in_element (self : SuperExpressive) (element : Element)
    (namespace : str) (ignore_start_and_end : bool) {struct element}
  : M (SuperExpressive * Element) :=
  match element with
  | Leaf _ (Backreference index) =>
      e <- new_Leaf (Backreference (index + total_capture_groups self)) ;;
      ret (self, e)
  | Leaf _ (NamedBackReference name) =>
      if truthy namespace
      then e <- new_Leaf (NamedBackReference name) ;; ret (self, e)
      else ret (self, element)
  | Leaf _ StartOfInput =>
      if ignore_start_and_end then e <- new_Leaf Noop ;; ret (self, e)
      else if _start_defined self && check_simple_start_and_end self
      then raise ValueError
      else if _end_defined self && check_simple_start_and_end self
      then raise ValueError
      else ret (self, element)
  | Leaf _ EndOfInput =>
      if ignore_start_and_end then e <- new_Leaf Noop ;; ret (self, e)
      else if _end_defined self && check_simple_start_and_end self
      then raise ValueError
      else ret (self, element)
  | Leaf _ _ => ret (self, element)
  | ContainsChild _ _ child =>
      r <- match child with
           | Some c =>
               r <- _merge_in_element self c namespace ignore_start_and_end ;;
               ret (fst r, Some (snd r))
           | None => ret (self, None)
           end ;;
      element' <- ContainsChild_replace_child element child (snd r) ;;
      ret (fst r, element')
  | ContainsChildren _ k children =>
      (* [additional_capture_groups] counts the [Capture] nodes; the
         source never reads the counter again. *)
      let additional_capture_groups :=
        match k with Capture => 1%Z | _ => 0%Z end in
      r <- match k with
           | NamedCapture name =>
               renamed <- (if truthy namespace
                           then new_ContainsChildren
                                  (NamedCapture (namespace ++ name)) children
                           else ret element) ;;
               let name' := if truthy namespace then namespace ++ name else name in
               if bool_decide (name' ∈ named_groups self) then raise ValueError
               else ret (_replace self
                           (named_groups_is ({[name']} ∪ named_groups self)),
                         renamed)
           | _ => ret (self, element)
           end ;;
      merge_children
        (fun merged child =>
           _merge_in_element merged child namespace ignore_start_and_end)
        children (fst r) (snd r)
  end.

(** *** Flags *)

Definition allow_multiple_matches (self : SuperExpressive) : SuperExpressive :=
  _replace self (f_global_is true).
Definition line_by_line (self : SuperExpressive) : SuperExpressive :=
  _replace self (f_multiline_is true).
Definition case_insensitive (self : SuperExpressive) : SuperExpressive :=
  _replace self (f_ignorecase_is true).
Definition unicode (self : SuperExpressive) : SuperExpressive :=
  _replace self (f_unicode_is true).
Definition ascii_ (self : SuperExpressive) : SuperExpressive :=
  _replace self (f_ascii_is true).
Definition locale (self : SuperExpressive) : SuperExpressive :=
  _replace self (f_locale_is true).
Definition single_line (self : SuperExpressive) : SuperExpressive :=
  _replace self (f_dotall_is true).

(** *** Elements *)

(** [self._push(cls(...))] for a class without children: the argument is
    instantiated, then pushed. *)
Definition push_leaf (l : LeafT) (self : SuperExpressive) : M SuperExpressive :=
  e <- new_Leaf l ;; _push self e.

Definition any_char := push_leaf AnyChar.
Definition whitespace_char := push_leaf WhitespaceChar.
Definition non_whitespace_char := push_leaf NonWhitespaceChar.
Definition digit := push_leaf Digit.
Definition non_digit := push_leaf NonDigit.
Definition word := push_leaf Word.
Definition non_word := push_leaf NonWord.
Definition word_boundary := push_leaf WordBoundary.
Definition non_word_boundary := push_leaf NonWordBoundary.
Definition newline := push_leaf Newline.
Definition carriage_return := push_leaf CarriageReturn.
Definition tab := push_leaf Tab.
Definition null_byte := push_leaf NullByte.

Definition named_backreference (name : str) (self : SuperExpressive)
  : M SuperExpressive :=
  if negb (bool_decide (name ∈ named_groups self)) then raise ValueError
  else push_leaf (NamedBackReference name) self.

Definition backreference (index : Z) (self : SuperExpressive) : M SuperExpressive :=
  if negb ((0 <=? index)%Z && (index <=? total_capture_groups self)%Z)
  then raise ValueError
  else push_leaf (Backreference index) self.

(** [self._push(cls())] for a class with children. *)
Definition push_container (k : Container) (self : SuperExpressive)
  : M SuperExpressive :=
  e <- new_ContainsChildren k [] ;; _push self e.

Definition any_of := push_container AnyOf.
Definition group := push_container Group.
Definition assert_ahead := push_container AssertAhead.
Definition assert_not_ahead := push_container AssertNotAhead.

Definition capture (self : SuperExpressive) : M SuperExpressive :=
  pushed <- push_container Capture self ;;
  ret (_replace pushed (total_capture_groups_is (total_capture_groups self + 1))).

Definition named_capture (name : str) (self : SuperExpressive) : M SuperExpressive :=
  if bool_decide (name ∈ named_groups self) then raise ValueError
  else
    let named_groups := {[name]} ∪ named_groups self in
    pushed <- push_container (NamedCapture name) self ;;
    ret (_replace pushed (named_groups_is named_groups)).

Definition _quantify (quantifier : Element) (self : SuperExpressive)
  : M SuperExpressive :=
  current <- lift (top (stack self)) ;;
  if isinstance_Quantifier current then raise RuntimeError
  else _push self quantifier.

(** [self._quantify(cls(...))]: the quantifier is instantiated first. *)
Definition quantify (q : Quantifier) (self : SuperExpressive) : M SuperExpressive :=
  quantifier <- new_ContainsChild q None ;; _quantify quantifier self.

Definition optional := quantify Opt.
Definition zero_or_more := quantify ZeroOrMore.
Definition zero_or_more_lazy := quantify ZeroOrMoreLazy.
Definition one_or_more := quantify OneOrMore.
Definition one_or_more_lazy := quantify OneOrMoreLazy.
Definition exactly (times : Z) := quantify (Exactly times).
Definition at_least (times : Z) := quantify (AtLeast times).
Definition between (low high : Z) := quantify (Between low high).
Definition between_lazy (low high : Z) := quantify (BetweenLazy low high).

Definition start_of_input (self : SuperExpressive) : M SuperExpressive :=
  if _start_defined self && check_simple_start_and_end self then raise RuntimeError
  else if _end_defined self && check_simple_start_and_end self then raise RuntimeError
  else push_leaf StartOfInput self.

Definition end_of_input (self : SuperExpressive) : M SuperExpressive :=
  if _end_defined self && check_simple_start_and_end self then raise RuntimeError
  else push_leaf EndOfInput self.

Definition any_of_chars (chars : str) := push_leaf (AnyOfChars chars).

(** The method [end]. *)
Definition end_ (self : SuperExpressive) : M SuperExpressive :=
  if length (stack self) <=? 1 then raise RuntimeError
  else
    current <- lift (top (stack self)) ;;
    if negb (isinstance_ContainsChildren current) then raise RuntimeError
    else ret (_replace self
                (stack_is (pop_ContainsChild (removelast (stack self))))).

Definition anything_but_string (s : str) := push_leaf (AnythingButString s).
Definition anything_but_chars (chars : str) := push_leaf (AnythingButChars chars).
Definition anything_but_range (low high : CharT) := push_leaf (AnythingButRange low high).
Definition string_ (s : str) := push_leaf (String s).
Definition char (c : CharT) := push_leaf (Char c).
Definition range (low high : CharT) := push_leaf (Range low high).

Definition children_of (e : Element) : result (list Element) :=
  match e with
  | ContainsChildren _ _ children => Ok children
  | _ => Raise AttributeError
  end.

(** [stack[0]]. *)
Definition bottom (stack : list Element) : result Element :=
  match stack with
  | [] => Raise IndexError
  | root :: _ => Ok root
  end.

(** The method [subexpression].  Each of the four assignments after the
    comparison of the encoding flags is [merged = self._replace(...)]: it
    starts again from [self].  The message of the [ValueError] for
    incompatible flags reads [expression.flags], an attribute that does not
    exist, so that statement raises [AttributeError]; the message for an
    unfinished expression reads [expression.stack[-1]]. *)
Definition subexpression (expression : SuperExpressive) (namespace : str)
    (ignore_flags ignore_start_and_end : bool) (self : SuperExpressive)
  : M SuperExpressive :=
  if negb (length (stack expression) =? 1)
  then _ <- lift (top (stack expression)) ;; raise ValueError
  else
    root <- lift (bottom (stack expression)) ;;
    r <- _merge_in_element self root namespace ignore_start_and_end ;;
    let merged := fst r in
    let element := snd r in
    merged <-
      (if negb ignore_flags then
         if negb (Bool.eqb (f_unicode self) (f_unicode expression))
            || negb (Bool.eqb (f_ascii self) (f_ascii expression))
            || negb (Bool.eqb (f_locale self) (f_locale expression))
         then raise AttributeError
         else
           let merged :=
             if f_ignorecase expression
             then _replace self (f_ignorecase_is true) else merged in
           let merged :=
             if f_multiline expression
             then _replace self (f_multiline_is true) else merged in
           let merged :=
             if f_dotall expression
             then _replace self (f_dotall_is true) else merged in
           let merged :=
             if f_global expression
             then _replace self (f_global_is true) else merged in
           ret merged
       else ret merged) ;;
    children <- lift (children_of element) ;;
    sub <- new_ContainsChildren Subexpression children ;;
    pushed <- _push merged sub ;;
    end_ pushed.

(** *** Python specific *)

Definition ascii_bell := push_leaf AsciiBell.

Definition ascii_backspace (self : SuperExpressive) : M SuperExpressive :=
  current <- lift (top (stack self)) ;;
  if negb (isinstance_AnyOf current) then raise RuntimeError
  else push_leaf AsciiBackspace self.

Definition ascii_formfeed := push_leaf AsciiFormfeed.
Definition ascii_vertical_tab := push_leaf AsciiVerticalTab.
Definition backslash := push_leaf Backslash.
Definition start_of_string := push_leaf StartOfString.
Definition end_of_string := push_leaf EndOfString.
Definition hex_char (code : str) := push_leaf (Hex code).

(** [found] is the outcome of [unicodedata.lookup(code)]. *)
Definition unicode_char (code : str) (found : bool) := push_leaf (Unicode code found).

(** *** Evaluation *)

(** The property [_flags], with the values of the constants of [re]. *)
Definition _flags (self : SuperExpressive) : Z :=
  Z.lor (if f_ascii self then 256 else 0)
  (Z.lor (if f_ignorecase self then 2 else 0)
  (Z.lor (if f_locale self then 4 else 0)
  (Z.lor (if f_unicode self then 32 else 0)
  (Z.lor (if f_multiline self then 8 else 0)
         (if f_dotall self then 16 else 0))))).

(** [str(self)], the pattern that [compile] and [match] hand to [re]. *)
Definition __str__ (self : SuperExpressive) : result str :=
  rbind (bottom (stack self)) (fun root => Ok (str_ root)).

(** ** Chains of calls *)

(** One call of a public method or property of the builder.  The methods
    [compile] and [match] hand [str(self)] and [_flags] to the module [re]
    and are not part of the model; [__getattr__] only spells the names of
    the methods differently. *)
Inductive op :=
| O_allow_multiple_matches | O_line_by_line | O_case_insensitive | O_unicode
| O_ascii | O_locale | O_single_line
| O_any_char | O_whitespace_char | O_non_whitespace_char | O_digit
| O_non_digit | O_word | O_non_word | O_word_boundary | O_non_word_boundary
| O_newline | O_carriage_return | O_tab | O_null_byte
| O_named_backreference (name : str)
| O_backreference (index : Z)
| O_any_of | O_group | O_assert_ahead | O_assert_not_ahead | O_capture
| O_named_capture (name : str)
| O_optional | O_zero_or_more | O_zero_or_more_lazy | O_one_or_more
| O_one_or_more_lazy
| O_exactly (times : Z)
| O_at_least (times : Z)
| O_between (low high : Z)
| O_between_lazy (low high : Z)
| O_start_of_input | O_end_of_input
| O_any_of_chars (chars : str)
| O_end
| O_anything_but_string (s : str)
| O_anything_but_chars (chars : str)
| O_anything_but_range (low high : CharT)
| O_string (s : str)
| O_char (c : CharT)
| O_range (low high : CharT)
| O_subexpression (expression : SuperExpressive) (namespace : str)
    (ignore_flags ignore_start_and_end : bool)
| O_ascii_bell | O_ascii_backspace | O_ascii_formfeed | O_ascii_vertical_tab
| O_backslash | O_start_of_string | O_end_of_string
| O_hex_char (code : str)
| O_unicode_char (code : str) (found : bool).

Definition step (o : op) (self : SuperExpressive) : M SuperExpressive :=
  match o with
  | O_allow_multiple_matches => ret (allow_multiple_matches self)
  | O_line_by_line => ret (line_by_line self)
  | O_case_insensitive => ret (case_insensitive self)
  | O_unicode => ret (unicode self)
  | O_ascii => ret (ascii_ self)
  | O_locale => ret (locale self)
  | O_single_line => ret (single_line self)
  | O_any_char => any_char self
  | O_whitespace_char => whitespace_char self
  | O_non_whitespace_char => non_whitespace_char self
  | O_digit => digit self
  | O_non_digit => non_digit self
  | O_word => word self
  | O_non_word => non_word self
  | O_word_boundary => word_boundary self
  | O_non_word_boundary => non_word_boundary self
  | O_newline => newline self
  | O_carriage_return => carriage_return self
  | O_tab => tab self
  | O_null_byte => null_byte self
  | O_named_backreference name => named_backreference name self
  | O_backreference index => backreference index self
  | O_any_of => any_of self
  | O_group => group self
  | O_assert_ahead => assert_ahead self
  | O_assert_not_ahead => assert_not_ahead self
  | O_capture => capture self
  | O_named_capture name => named_capture name self
  | O_optional => optional self
  | O_zero_or_more => zero_or_more self
  | O_zero_or_more_lazy => zero_or_more_lazy self
  | O_one_or_more => one_or_more self
  | O_one_or_more_lazy => one_or_more_lazy self
  | O_exactly times => exactly times self
  | O_at_least times => at_least times self
  | O_between low high => between low high self
  | O_between_lazy low high => between_lazy low high self
  | O_start_of_input => start_of_input self
  | O_end_of_input => end_of_input self
  | O_any_of_chars chars => any_of_chars chars self
  | O_end => end_ self
  | O_anything_but_string s => anything_but_string s self
  | O_anything_but_chars chars => anything_but_chars chars self
  | O_anything_but_range low high => anything_but_range low high self
  | O_string s => string_ s self
  | O_char c => char c self
  | O_range low high => range low high self
  | O_subexpression expression namespace ignore_flags ignore_start_and_end =>
      subexpression expression namespace ignore_flags ignore_start_and_end self
  | O_ascii_bell => ascii_bell self
  | O_ascii_backspace => ascii_backspace self
  | O_ascii_formfeed => ascii_formfeed self
  | O_ascii_vertical_tab => ascii_vertical_tab self
  | O_backslash => backslash self
  | O_start_of_string => start_of_string self
  | O_end_of_string => end_of_string self
  | O_hex_char code => hex_char code self
  | O_unicode_char code found => unicode_char code found self
  end.

(** A chain of calls, from left to right. *)
Fixpoint run (ops : list op) (self : SuperExpressive) : M SuperExpressive :=
  match ops with
  | [] => ret self
  | o :: rest => s <- step o self ;; run rest s
  end.

(** The pattern of an expression that a computation builds, in a process
    whose only object so far is the default root. *)
Definition pattern (m : M SuperExpressive) : result str :=
  match m 1 with
  | Ok (s, _) => __str__ s
  | Raise e => Raise e
  end.

(** The builder values that a process can hold when its next unused object
    identity is [h]: the initial values, and the results of calls on values
    that it already holds.  The expression handed to [subexpression] is such
    a value as well. *)
Inductive reachable : nat -> SuperExpressive -> Prop :=
| reachable_init strict : reachable 1 (SuperExpressive0 strict)
| reachable_later h h' self :
    reachable h self -> h <= h' -> reachable h' self
| reachable_step h o self h' self' :
    reachable h self ->
    (forall e ns igf ign, o = O_subexpression e ns igf ign -> reachable h e) ->
    step o self h = Ok (self', h') ->
    reachable h' self'.

(** ** The invariant of the stack *)

(** [c] is, as an object, a child of [s]. *)
Definition child_of (c s : Element) : Prop :=
  match s with
  | ContainsChild _ _ (Some x) => oid x = oid c
  | ContainsChildren _ _ xs => Exists (fun x => oid x = oid c) xs
  | _ => False
  end.

(** On the reversed stack, every node is a child of the next one. *)
Fixpoint linked (reversed : list Element) : Prop :=
  match reversed with
  | [] => True
  | c :: rest =>
      match rest with [] => True | s :: _ => child_of c s end /\ linked rest
  end.

(** A node with a child or children whose own fields pass [__post_init__],
    as those of every instance do. *)
Definition sound_node (s : Element) : Prop :=
  match s with
  | ContainsChild _ q _ => Quantifier_post_init q = Ok tt
  | ContainsChildren _ k _ => Container_post_init k = Ok tt
  | Leaf _ _ => False
  end.

Definition same_class (a b : Element) : Prop :=
  match a, b with
  | Leaf _ l, Leaf _ l' => l = l'
  | ContainsChild _ q _, ContainsChild _ q' _ => q = q'
  | ContainsChildren _ k _, ContainsChildren _ k' _ => k = k'
  | _, _ => False
  end.

(** A quantifier whose child is not set yet. *)
Definition unset_quantifier (e : Element) : bool :=
  match e with ContainsChild _ _ None => true | _ => false end.

(** The innermost open node is not a quantifier that has its child. *)
Definition open_top (reversed : list Element) : Prop :=
  match reversed with
  | ContainsChild _ _ (Some _) :: _ => False
  | _ => True
  end.

Definition is_Root (e : Element) : Prop :=
  match e with ContainsChildren _ Root _ => True | _ => False end.

Record Inv (self : SuperExpressive) : Prop := mkInv {
  inv_root : exists root rest, stack self = root :: rest /\ is_Root root;
  inv_sound : Forall sound_node (stack self);
  inv_linked : linked (rev (stack self));
  inv_top : open_top (rev (stack self))
}.

(** What [_push] accepts from the public methods: a new leaf, a new
    quantifier without its child, or a new container. *)
Definition pushable (e : Element) : Prop :=
  match e with
  | Leaf _ _ => True
  | ContainsChild _ q None => Quantifier_post_init q = Ok tt
  | ContainsChild _ _ (Some _) => False
  | ContainsChildren _ k _ => Container_post_init k = Ok tt
  end.

(** The open containers of the specification: the stack above the root. *)
Definition openStack (self : SuperExpressive) : list Element := tl (stack self).

(** The stack that [_push] builds from the copy [new] of the innermost node
    and the copies of its ancestors, innermost first. *)
Definition pushed_stack (element new : Element) (copies : list Element)
  : list Element :=
  if isinstance_ContainsChild element || isinstance_ContainsChildren element
  then (rev copies ++ [new]) ++ [element]
  else pop_ContainsChild (rev copies ++ [new]).

(** [b] is [a] but for the field [named_groups]. *)
Definition only_names (a b : SuperExpressive) : Prop :=
  b = _replace a (named_groups_is (named_groups b)).

(** The result of a computation in a process whose only object so far is
    the default root. *)
Definition value {A} (m : M A) : result A :=
  match m 1 with
  | Ok (a, _) => Ok a
  | Raise e => Raise e
  end.

(** Some node with property [p] is directly under an open node: the child
    of a node of the stack, or one of its children. *)
Definition directly_open (p : Element -> bool) (self : SuperExpressive) : bool :=
  existsb (fun s =>
    match s with
    | ContainsChild _ _ (Some c) => p c
    | ContainsChild _ _ None => false
    | ContainsChildren _ _ children => existsb p children
    | Leaf _ _ => false
    end) (stack self).

(** Some node with property [p] occurs in the tree under [e], [e] included. *)
Fixpoint occurs (p : Element -> bool) (e : Element) : bool :=
  p e ||
  match e with
  | Leaf _ _ => false
  | ContainsChild _ _ None => false
  | ContainsChild _ _ (Some c) => occurs p c
  | ContainsChildren _ _ children => existsb (occurs p) children
  end.

(** [SuperExpressive(check_simple_start_and_end=True).group], with the
    identities that the calls allocate from 1. *)
Definition open_group : SuperExpressive :=
  _replace (SuperExpressive0 true)
    (stack_is [ContainsChildren 2 Root [ContainsChildren 1 Group []];
               ContainsChildren 1 Group []]).

(** [SuperExpressive().optional], with the identities that the calls
    allocate from 1. *)
Definition open_optional : SuperExpressive :=
  _replace (SuperExpressive0 false)
    (stack_is [ContainsChildren 2 Root [ContainsChild 1 Opt None];
               ContainsChild 1 Opt None]).

(** [SuperExpressive(check_simple_start_and_end=True).start_of_input]. *)
Definition open_anchor : SuperExpressive :=
  _replace (SuperExpressive0 true)
    (stack_is [ContainsChildren 2 Root [Leaf 1 StartOfInput]]).

(** The renderings of the children of an alternation that are not fused,
    in order. *)
Definition alternatives (children : list Element) : list str :=
  List.map str_ (List.filter (fun c => negb (is_fusable c)) children).

(** The fusion as the specification words it.  A child that goes into the
    bracketed class: a single character, a character range or an explicit
    character set. *)
Definition class_member (child : Element) : bool :=
  match child with
  | Leaf _ (Char _) | Leaf _ (Range _ _) | Leaf _ (AnyOfChars _) => true
  | _ => false
  end.

(** What such a child adds to the class: the character, the two ends of
    the range around [-], or the characters of the set, each escaped. *)
Definition member_text (child : Element) : str :=
  match child with
  | Leaf _ (Char c) => escaped c
  | Leaf _ (Range low high) => escaped low ++ lit "-" ++ escaped high
  | Leaf _ (AnyOfChars chars) => translate chars
  | _ => []
  end.

(** The one bracketed class of the members among [children], in order. *)
Definition bracketed_class (children : list Element) : str :=
  lit "[" ++ concat (List.map member_text (List.filter class_member children))
  ++ lit "]".

Definition chr_range (low high : string) : LeafT :=
  Range (CStr (lit low)) (CStr (lit high)).

(** The expressions of the repository's test of indexed backreferences:
    the sub-expression [INDEXED_BACKREFERENCE] and its host. *)
Definition INDEXED_BACKREFERENCE : M SuperExpressive :=
  run [O_capture; O_exactly 2; O_any_char; O_end; O_backreference 1]
    (SuperExpressive0 false).
Definition one_capture_host : M SuperExpressive :=
  run [O_capture; O_at_least 3; O_digit; O_end] (SuperExpressive0 false).

(** ** The rewriting that a merge is expected to perform *)

(** The node without the identities of its objects. *)
Fixpoint erase (e : Element) : Element :=
  match e with
  | Leaf _ l => Leaf 0 l
  | ContainsChild _ q c => ContainsChild 0 q (option_map erase c)
  | ContainsChildren _ k cs => ContainsChildren 0 k (List.map erase cs)
  end.

(** The tree with every indexed backreference shifted by [n], and nothing
    else changed. *)
Fixpoint shift_backreferences (n : Z) (e : Element) : Element :=
  match e with
  | Leaf i (Backreference index) => Leaf i (Backreference (index + n))
  | Leaf i l => Leaf i l
  | ContainsChild i q c => ContainsChild i q (option_map (shift_backreferences n) c)
  | ContainsChildren i k cs =>
      ContainsChildren i k (List.map (shift_backreferences n) cs)
  end.

(** The tree with every indexed backreference shifted by [n], every named
    capture prefixed with the namespace, and, when [ignore] is set, every
    start or end of input replaced by [Noop]. *)
Fixpoint rewritten (n : Z) (namespace : str) (ignore : bool) (e : Element)
  : Element :=
  match e with
  | Leaf i (Backreference index) => Leaf i (Backreference (index + n))
  | Leaf i StartOfInput => if ignore then Leaf i Noop else e
  | Leaf i EndOfInput => if ignore then Leaf i Noop else e
  | Leaf i l => Leaf i l
  | ContainsChild i q c =>
      ContainsChild i q (option_map (rewritten n namespace ignore) c)
  | ContainsChildren i k cs =>
      ContainsChildren i
        match k with
        | NamedCapture name => NamedCapture (namespace ++ name)
        | _ => k
        end
        (List.map (rewritten n namespace ignore) cs)
  end.

Definition is_anchor (e : Element) : bool :=
  isinstance_StartOfInput e || isinstance_EndOfInput e.

Fixpoint distinct (ids : list nat) : bool :=
  match ids with
  | [] => true
  | i :: rest => negb (existsb (Nat.eqb i) rest) && distinct rest
  end.

(** A tree of objects that exist when the next unused identity is [h]: the
    identities are below [h], and the children of a node are distinct
    objects. *)
Fixpoint well_formed (h : nat) (e : Element) : bool :=
  (oid e <? h) &&
  match e with
  | Leaf _ _ => true
  | ContainsChild _ _ None => true
  | ContainsChild _ _ (Some c) => well_formed h c
  | ContainsChildren _ _ cs =>
      distinct (List.map oid cs) && forallb (well_formed h) cs
  end.

(** What a successful call of [_merge_in_element] on [c] at heap [h]
    returns: the rewritten node, which is [c] itself or a new object. *)
Definition merge_result (n : Z) (namespace : str) (ignore : bool)
    (c : Element) (h : nat) (r : SuperExpressive * Element) (h' : nat) : Prop :=
  erase (snd r) = erase (rewritten n namespace ignore c)
  /\ (oid (snd r) = oid c \/ h <= oid (snd r))
  /\ h <= h'
  /\ well_formed h' (snd r) = true.

(** The indices of the indexed backreferences of a tree, from left to
    right. *)
Fixpoint backreferences (e : Element) : list Z :=
  match e with
  | Leaf _ (Backreference index) => [index]
  | Leaf _ _ => []
  | ContainsChild _ _ None => []
  | ContainsChild _ _ (Some c) => backreferences c
  | ContainsChildren _ _ cs => flat_map backreferences cs
  end.

(** The root of [INDEXED_BACKREFERENCE] and the builder that holds it, with
    the identities that its calls allocate from 1; the next one is 12. *)
Definition backreference_root : Element :=
  ContainsChildren 11 Root
    [ContainsChildren 8 Capture
       [ContainsChild 7 (Exactly 2) (Some (Leaf 6 AnyChar))];
     Leaf 10 (Backreference 1)].
Definition backreference_source : SuperExpressive :=
  _replace (_replace (SuperExpressive0 false) (stack_is [backreference_root]))
    (total_capture_groups_is 1).

(** [SuperExpressive().capture.end()], built next: the identities are 12
    and 13, and the next one is 14. *)
Definition capture_host : SuperExpressive :=
  _replace
    (_replace (SuperExpressive0 false)
       (stack_is [ContainsChildren 13 Root [ContainsChildren 12 Capture []]]))
    (total_capture_groups_is 1).

(** What [_merge_in_element] returns for them. *)
Definition merged_source : SuperExpressive * Element :=
  (capture_host,
   ContainsChildren 18 Root
     [ContainsChildren 15 Capture
        [ContainsChild 14 (Exactly 2) (Some (Leaf 6 AnyChar))];
      Leaf 17 (Backreference 2)]).

(** ** Further notions, for the properties beyond the claims *)

Definition is_Ok {A} (r : result A) : bool :=
  match r with Ok _ => true | Raise _ => false end.

(** The names of the named captures of a tree, a node before its
    children, from left to right. *)
Fixpoint capture_names (e : Element) : list (list Z) :=
  match e with
  | Leaf _ _ => []
  | ContainsChild _ _ None => []
  | ContainsChild _ _ (Some c) => capture_names c
  | ContainsChildren _ k cs =>
      match k with NamedCapture name => [name] | _ => [] end
      ++ flat_map capture_names cs
  end.

(** Every node of the tree passes the [__post_init__] of its class. *)
Fixpoint valid_tree (e : Element) : bool :=
  match e with
  | Leaf _ l => is_Ok (LeafT_post_init l)
  | ContainsChild _ q None => is_Ok (Quantifier_post_init q)
  | ContainsChild _ q (Some c) => is_Ok (Quantifier_post_init q) && valid_tree c
  | ContainsChildren _ k cs =>
      is_Ok (Container_post_init k) && forallb valid_tree cs
  end.

(** The number of calls of [capture] in a chain. *)
Fixpoint count_captures (ops : list op) : Z :=
  match ops with
  | [] => 0
  | O_capture :: rest => 1 + count_captures rest
  | _ :: rest => count_captures rest
  end.

(** Exactly one of the three flags of the character encoding is set. *)
Definition one_encoding (self : SuperExpressive) : Prop :=
  (f_ascii self, f_locale self, f_unicode self) = (true, false, false)
  \/ (f_ascii self, f_locale self, f_unicode self) = (false, true, false)
  \/ (f_ascii self, f_locale self, f_unicode self) = (false, false, true).

(** The code point of a single character given as an [int] or a [str]. *)
Definition code_point (c : CharT) : option Z :=
  match c with
  | CInt n => if ((0 <=? n) && (n <? 1114112))%Z then Some n else None
  | CStr [n] => Some n
  | CStr _ => None
  end.

(** The three flags of the character encoding. *)
Definition encoding (self : SuperExpressive) : bool * bool * bool :=
  (f_ascii self, f_locale self, f_unicode self).

(** The calls that choose the character encoding. *)
Definition chooses_encoding (o : op) : bool :=
  match o with
  | O_ascii | O_locale | O_unicode => true
  | _ => false
  end.

(** What a successful merge of [c] into [m] says about the names: they
    are new to [m], pairwise distinct, and recorded in the result. *)
Definition names_recorded (namespace : str) (c : Element) (m : SuperExpressive)
    (r : SuperExpressive * Element) : Prop :=
  named_groups (fst r)
  = list_to_set (List.map (app namespace) (capture_names c)) ∪ named_groups m
  /\ Forall (fun n => n ∉ named_groups m)
       (List.map (app namespace) (capture_names c))
  /\ NoDup (List.map (app namespace) (capture_names c)).


(** [SuperExpressive().named_capture('a').digit.end()], with the identities
    that the calls allocate from 1; the next one is 6. *)
Definition named_source : SuperExpressive :=
  _replace
    (_replace (SuperExpressive0 false)
       (stack_is [ContainsChildren 5 Root
                    [ContainsChildren 4 (NamedCapture (lit "a")) [Leaf 3 Digit]]]))
    (named_groups_is {[lit "a"]}).

(** What merging it next into a new expression under the namespace [n_]
    returns; the next identity is 11. *)
Definition named_target : SuperExpressive :=
  _replace
    (_replace (SuperExpressive0 false)
       (stack_is [ContainsChildren 10 Root
                    [ContainsChildren 9 Subexpression
                       [ContainsChildren 7 (NamedCapture (lit "n_a"))
                          [Leaf 3 Digit]]]]))
    (named_groups_is {[lit "n_a"]}).

(** [named_target.digit.case_insensitive.group.word.end()], built next;
    the next identity is 18. *)
Definition named_later : SuperExpressive :=
  _replace
    (_replace named_target
       (stack_is [ContainsChildren 17 Root
                    [ContainsChildren 9 Subexpression
                       [ContainsChildren 7 (NamedCapture (lit "n_a"))
                          [Leaf 3 Digit]];
                     Leaf 11 Digit;
                     ContainsChildren 16 Group [Leaf 15 Word]]]))
    (f_ignorecase_is true).

(** A builder whose trees hold only nodes that have passed the checks of
    their classes, whose names of groups are names that [NamedCapture]
    accepts, and whose count of capture groups is not negative. *)
Definition valid_state (self : SuperExpressive) : Prop :=
  Forall (fun e => valid_tree e = true) (stack self)
  /\ (forall n, n ∈ named_groups self -> check_name n = Ok tt)
  /\ (0 <= total_capture_groups self)%Z.

(** What a merge asks of the names of the named captures that it meets:
    with the namespace in front each is a name that [NamedCapture] accepts
    and is new to the target, and they are pairwise distinct. *)
Definition names_mergeable (namespace : str) (names : list (list Z))
    (m : SuperExpressive) : Prop :=
  Forall (fun n => check_name (namespace ++ n) = Ok tt
                   /\ namespace ++ n ∉ named_groups m) names
  /\ NoDup (List.map (app namespace) names).

(** ** The stack as the open path of one tree *)

(** [child] is the last child of [parent]: its child, or the last of its
    children. *)
Definition last_child (parent child : Element) : Prop :=
  match parent with
  | ContainsChild _ _ (Some c) => c = child
  | ContainsChildren _ _ cs => exists lefts, cs = lefts ++ [child]
  | _ => False
  end.

(** On the reversed stack, every node is the last child of the next one. *)
Fixpoint chained (reversed : list Element) : Prop :=
  match reversed with
  | [] => True
  | c :: rest =>
      match rest with [] => True | p :: _ => last_child p c end /\ chained rest
  end.

(** The object [i] that [add_child] makes of [current]. *)
Definition with_child (i : nat) (current child : Element) : Element :=
  match current with
  | ContainsChild _ q _ => ContainsChild i q (Some child)
  | ContainsChildren _ k cs => ContainsChildren i k (cs ++ [child])
  | Leaf _ l => Leaf i l
  end.

(** The object [i] that [replace_child] makes of [parent] when the child
    to replace is its last one. *)
Definition with_last (i : nat) (parent new : Element) : Element :=
  match parent with
  | ContainsChild _ q _ => ContainsChild i q (Some new)
  | ContainsChildren _ k cs => ContainsChildren i k (removelast cs ++ [new])
  | Leaf _ l => Leaf i l
  end.

(** The copies that the loop of [_push] makes of the ancestors, innermost
    first, with the identities from [i] on. *)
Fixpoint rebuilt (ancestors : list Element) (replaced : Element) (i : nat)
  : list Element :=
  match ancestors with
  | [] => []
  | a :: rest => with_last i a replaced :: rebuilt rest (with_last i a replaced) (S i)
  end.

(** The tree [e] with [f] applied to the node that [depth] steps along
    the last children lead to. *)
Fixpoint at_focus (depth : nat) (f : Element -> Element) (e : Element) : Element :=
  match depth with
  | 0 => f e
  | S d =>
      match e with
      | ContainsChild i q (Some c) => ContainsChild i q (Some (at_focus d f c))
      | ContainsChildren i k cs =>
          ContainsChildren i k (removelast cs ++ [at_focus d f (List.last cs e)])
      | _ => e
      end
  end.

(** The tree [root] with [element] added as the last child of the node
    that [depth] steps along the last children lead to, the identities of
    the objects left out. *)
Definition appended (depth : nat) (element root : Element) : Element :=
  at_focus depth (fun t => with_child 0 t (erase element)) (erase root).

(** [SuperExpressive(check_simple_start_and_end=True).group.digit]: what
    pushing the leaf 3 on [open_group] returns; the next identity is 6. *)
Definition digit_in_group : SuperExpressive :=
  _replace (SuperExpressive0 true)
    (stack_is [ContainsChildren 5 Root [ContainsChildren 4 Group [Leaf 3 Digit]];
               ContainsChildren 4 Group [Leaf 3 Digit]]).

(** ** Trees and the chains of calls that spell them *)

(** A tree to build: a leaf, a quantified tree, or a container of trees. *)
Inductive tree :=
| TLeaf (l : LeafT)
| TQuant (q : Quantifier) (t : tree)
| TCont (k : Container) (ts : list tree).

(** The node that the tree stands for, without identities. *)
Fixpoint node (t : tree) : Element :=
  match t with
  | TLeaf l => Leaf 0 l
  | TQuant q t => ContainsChild 0 q (Some (node t))
  | TCont k ts => ContainsChildren 0 k (List.map node ts)
  end.

Definition is_TQuant (t : tree) : bool :=
  match t with TQuant _ _ => true | _ => false end.

(** The classes accept the arguments of every node, and no quantifier is
    applied to a quantifier. *)
Fixpoint buildable (t : tree) : bool :=
  match t with
  | TLeaf l => is_Ok (LeafT_post_init l)
  | TQuant q t =>
      is_Ok (Quantifier_post_init q) && negb (is_TQuant t) && buildable t
  | TCont k ts => is_Ok (Container_post_init k) && forallb buildable ts
  end.

(** The method that pushes a leaf of class [l] and does nothing else,
    when there is one.  [Noop] has no method; the methods of the anchors,
    of the backreferences and of [AsciiBackspace] test the state first. *)
Definition leaf_call (l : LeafT) : option op :=
  match l with
  | AnyChar => Some O_any_char
  | WhitespaceChar => Some O_whitespace_char
  | NonWhitespaceChar => Some O_non_whitespace_char
  | Digit => Some O_digit
  | NonDigit => Some O_non_digit
  | Word => Some O_word
  | NonWord => Some O_non_word
  | WordBoundary => Some O_word_boundary
  | NonWordBoundary => Some O_non_word_boundary
  | Newline => Some O_newline
  | CarriageReturn => Some O_carriage_return
  | Tab => Some O_tab
  | NullByte => Some O_null_byte
  | AnyOfChars chars => Some (O_any_of_chars chars)
  | AnythingButString s => Some (O_anything_but_string s)
  | AnythingButChars chars => Some (O_anything_but_chars chars)
  | AnythingButRange low high => Some (O_anything_but_range low high)
  | Char c => Some (O_char c)
  | Range low high => Some (O_range low high)
  | String s => Some (O_string s)
  | AsciiBell => Some O_ascii_bell
  | AsciiFormfeed => Some O_ascii_formfeed
  | AsciiVerticalTab => Some O_ascii_vertical_tab
  | Backslash => Some O_backslash
  | StartOfString => Some O_start_of_string
  | EndOfString => Some O_end_of_string
  | Hex code => Some (O_hex_char code)
  | Unicode code found => Some (O_unicode_char code found)
  | Noop | StartOfInput | EndOfInput | NamedBackReference _ | Backreference _
  | AsciiBackspace => None
  end.

(** The method of a quantifier. *)
Definition quantifier_call (q : Quantifier) : op :=
  match q with
  | Exactly times => O_exactly times
  | AtLeast times => O_at_least times
  | Between low high => O_between low high
  | BetweenLazy low high => O_between_lazy low high
  | ZeroOrMore => O_zero_or_more
  | ZeroOrMoreLazy => O_zero_or_more_lazy
  | OneOrMore => O_one_or_more
  | OneOrMoreLazy => O_one_or_more_lazy
  | Opt => O_optional
  end.

(** The method that opens a container of class [k], when there is one
    that does not test the state: [named_capture] tests the name first,
    and no method opens a root or a sub-expression. *)
Definition container_call (k : Container) : option op :=
  match k with
  | AnyOf => Some O_any_of
  | Group => Some O_group
  | AssertAhead => Some O_assert_ahead
  | AssertNotAhead => Some O_assert_not_ahead
  | Capture => Some O_capture
  | Root | Subexpression | NamedCapture _ => None
  end.

(** The chains of a list of trees, one after the other. *)
Fixpoint chain_all (chain : tree -> option (list op)) (ts : list tree)
  : option (list op) :=
  match ts with
  | [] => Some []
  | t :: rest =>
      match chain t, chain_all chain rest with
      | Some calls, Some more => Some (calls ++ more)
      | _, _ => None
      end
  end.

(** The chain of public calls that spells a tree, when its classes have
    the methods above: a leaf by the method of its class, a quantifier
    before what it applies to, a container opened by its method, filled,
    and closed with [end]. *)
Fixpoint chain (t : tree) : option (list op) :=
  match t with
  | TLeaf l =>
      match leaf_call l with Some o => Some [o] | None => None end
  | TQuant q t =>
      match chain t with
      | Some calls => Some (quantifier_call q :: calls)
      | None => None
      end
  | TCont k ts =>
      match container_call k, chain_all (fun t => chain t) ts with
      | Some o, Some body => Some (o :: body ++ [O_end])
      | _, _ => None
      end
  end.

(** The facts about a state at heap [h] that the pushes keep. *)
Definition ready (h : nat) (self : SuperExpressive) : Prop :=
  Inv self
  /\ chained (rev (stack self))
  /\ Forall (fun s => well_formed h s = true) (stack self).

(** What the calls come to on a state whose stack is [root :: rest], with
    the open container [c] above [base]: the chain succeeds, the open path
    is back at a copy of [c], and the tree is the tree before with the
    node [n] added at the end of the open path. *)
Definition built (calls : list op) (n : Element) (h : nat) (self : SuperExpressive)
    (root : Element) (rest base : list Element) : Prop :=
  exists self' h' root' rest' base' c',
    run calls self h = Ok (self', h')
    /\ ready h' self' /\ h <= h'
    /\ stack self' = root' :: rest'
    /\ root' :: rest' = base' ++ [c']
    /\ List.map isinstance_ContainsChild base' = List.map isinstance_ContainsChild base
    /\ isinstance_ContainsChild c' = false
    /\ erase root' = appended (length rest) n root.
(** * Properties *)

(** ** The monad *)

Lemma bind_Ok {A B} (m : M A) (k : A -> M B) h r :
  bind m k h = Ok r -> exists a h1, m h = Ok (a, h1) /\ k a h1 = Ok r.
Proof.
  unfold bind. destruct (m h) as [[a h1]|e]; [|discriminate].
  intros H. exists a, h1. split; [reflexivity|exact H].
Qed.

Lemma bind_eq {A B} (m : M A) (k : A -> M B) h a h1 :
  m h = Ok (a, h1) -> bind m k h = k a h1.
Proof. unfold bind. intros ->. reflexivity. Qed.

Lemma lift_Ok {A} (r : result A) h a h1 :
  lift r h = Ok (a, h1) -> r = Ok a /\ h1 = h.
Proof. destruct r; simpl; intros H; inversion H; auto. Qed.

Lemma ret_Ok {A} (a b : A) h h1 : ret a h = Ok (b, h1) -> b = a /\ h1 = h.
Proof. unfold ret. intros H; inversion H; auto. Qed.

Ltac inv_M :=
  repeat match goal with
  | H : bind _ _ _ = Ok _ |- _ =>
      let a := fresh "a" in let h := fresh "h" in let E := fresh "E" in
      apply bind_Ok in H; destruct H as (a & h & E & H)
  | H : ret _ _ = Ok (_, _) |- _ => apply ret_Ok in H; destruct H as [? ?]; subst
  | H : lift _ _ = Ok (_, _) |- _ => apply lift_Ok in H; destruct H as [H ?]; subst
  | H : raise _ _ = Ok _ |- _ => discriminate H
  | H : alloc _ = Ok (_, _) |- _ => inversion H; subst; clear H
  end.

(** ** Instantiation *)

Lemma new_Leaf_Ok l h e h1 :
  new_Leaf l h = Ok (e, h1) ->
  e = Leaf h l /\ h1 = S h /\ LeafT_post_init l = Ok tt.
Proof.
  unfold new_Leaf. intros H. inv_M. destruct a. auto.
Qed.

Lemma new_ContainsChild_Ok q c h e h1 :
  new_ContainsChild q c h = Ok (e, h1) ->
  e = ContainsChild h q c /\ h1 = S h /\ Quantifier_post_init q = Ok tt.
Proof.
  unfold new_ContainsChild. intros H. inv_M. destruct a. auto.
Qed.

Lemma new_ContainsChildren_Ok k cs h e h1 :
  new_ContainsChildren k cs h = Ok (e, h1) ->
  e = ContainsChildren h k cs /\ h1 = S h /\ Container_post_init k = Ok tt.
Proof.
  unfold new_ContainsChildren. intros H. inv_M. destruct a. auto.
Qed.

Lemma new_Leaf_eq l h :
  LeafT_post_init l = Ok tt -> new_Leaf l h = Ok (Leaf h l, S h).
Proof. unfold new_Leaf, bind, lift. intros ->. reflexivity. Qed.

Lemma new_ContainsChild_eq q c h :
  Quantifier_post_init q = Ok tt ->
  new_ContainsChild q c h = Ok (ContainsChild h q c, S h).
Proof. unfold new_ContainsChild, bind, lift. intros ->. reflexivity. Qed.

Lemma new_ContainsChildren_eq k cs h :
  Container_post_init k = Ok tt ->
  new_ContainsChildren k cs h = Ok (ContainsChildren h k cs, S h).
Proof. unfold new_ContainsChildren, bind, lift. intros ->. reflexivity. Qed.

(** ** The stack as a list *)

Lemma rev_removelast {A} (l : list A) : rev (removelast l) = tl (rev l).
Proof.
  destruct (rev l) as [|x r] eqn:E.
  - apply (f_equal (@rev A)) in E. rewrite rev_involutive in E. subst. reflexivity.
  - apply (f_equal (@rev A)) in E. rewrite rev_involutive in E. subst.
    simpl. rewrite removelast_last, rev_involutive. reflexivity.
Qed.

Lemma top_rev (stack : list Element) current ancestors :
  rev stack = current :: ancestors -> top stack = Ok current.
Proof. unfold top. intros ->. reflexivity. Qed.

Lemma top_Ok (stack : list Element) current :
  top stack = Ok current -> exists ancestors, rev stack = current :: ancestors.
Proof.
  unfold top. destruct (rev stack) as [|x r]; [discriminate|].
  intros H; inversion H; subst. eauto.
Qed.

(** ** Adding and replacing a child *)

Lemma add_child_sound current element h :
  sound_node current -> open_top [current] ->
  exists new,
    add_child current element h = Ok (new, S h) /\
    oid new = h /\ same_class current new /\ child_of element new /\
    sound_node new.
Proof.
  destruct current as [i l|i q [c|]|i k cs]; simpl; intros Hs Ht; try contradiction.
  - eexists. rewrite new_ContainsChild_eq by assumption.
    split; [reflexivity|]. simpl. auto.
  - eexists. rewrite new_ContainsChildren_eq by assumption.
    split; [reflexivity|]. simpl. repeat split; auto.
    apply Exists_app. right. constructor. reflexivity.
Qed.

Lemma replace_child_sound s previous replaced h :
  sound_node s -> child_of previous s ->
  exists s',
    replace_child s previous replaced h = Ok (s', S h) /\
    oid s' = h /\ same_class s s' /\ child_of replaced s' /\ sound_node s'.
Proof.
  destruct s as [i l|i q [c|]|i k cs]; simpl; intros Hs Hc; try contradiction.
  - unfold is_. rewrite Hc, Nat.eqb_refl. simpl.
    eexists. rewrite new_ContainsChild_eq by assumption.
    split; [reflexivity|]. simpl. auto.
  - assert (E : Exists (fun x => oid x = oid replaced)
                  (List.map (fun c => if is_ c previous then replaced else c) cs)).
    { induction Hc as [x l Hx|x l Hx IH]; simpl.
      - left. unfold is_. rewrite Hx, Nat.eqb_refl. reflexivity.
      - right. exact IH. }
    assert (B : existsb (fun c => is_ c replaced)
                  (List.map (fun c => if is_ c previous then replaced else c) cs) = true).
    { apply existsb_exists. apply Exists_exists in E. destruct E as (x & Hin & Hx).
      exists x. split; [apply list_elem_of_In; exact Hin|].
      unfold is_. rewrite Hx. apply Nat.eqb_refl. }
    rewrite B. simpl.
    eexists. rewrite new_ContainsChildren_eq by assumption.
    split; [reflexivity|]. simpl. auto.
Qed.

(** ** _push *)

Lemma propagate_sound ancestors : forall previous replaced acc h,
  Forall sound_node ancestors ->
  linked (previous :: ancestors) ->
  exists copies h',
    propagate ancestors previous replaced acc h = Ok (acc ++ copies, h') /\
    h <= h' /\
    Forall2 same_class ancestors copies /\
    linked (replaced :: copies) /\
    Forall sound_node copies.
Proof.
  induction ancestors as [|s rest IH]; intros previous replaced acc h Hs Hl.
  - exists [], h. simpl. rewrite app_nil_r. unfold ret. repeat split; auto.
  - inversion Hs as [|? ? Hs1 Hs2]; subst. destruct Hl as [Hc Hl].
    destruct (replace_child_sound s previous replaced h Hs1 Hc)
      as (s' & E & Ho & Hsc & Hc' & Hs').
    destruct (IH s s' (acc ++ [s']) (S h) Hs2 Hl)
      as (copies & h' & E2 & Hle & Hf & Hl' & Hs'').
    exists (s' :: copies), h'. simpl propagate.
    rewrite (bind_eq _ _ _ _ _ E), E2, <- app_assoc.
    split; [reflexivity|]. split; [lia|]. split; [constructor; assumption|].
    split; [split; assumption|]. constructor; assumption.
Qed.

Lemma _push_sound self element h :
  Inv self ->
  exists current ancestors new copies h',
    rev (stack self) = current :: ancestors /\
    _push self element h
    = Ok (_replace self (stack_is (pushed_stack element new copies)), h') /\
    h < h' /\
    same_class current new /\ child_of element new /\
    Forall2 same_class ancestors copies /\
    linked (new :: copies) /\ Forall sound_node (new :: copies).
Proof.
  intros [Hroot Hsound Hlinked Htop].
  destruct (rev (stack self)) as [|current ancestors] eqn:Erev.
  { destruct Hroot as (root & rest & E & _). rewrite E in Erev. simpl in Erev.
    destruct (rev rest); discriminate. }
  assert (Hsound' : Forall sound_node (current :: ancestors)).
  { rewrite <- Erev. apply Forall_rev. exact Hsound. }
  inversion Hsound' as [|? ? Hs1 Hs2]; subst.
  assert (Ht1 : open_top [current]) by (destruct current as [| ? ? [|]|]; exact Htop).
  destruct (add_child_sound current element h Hs1 Ht1)
    as (new & Eadd & Ho & Hsc & Hc & Hs).
  destruct (propagate_sound ancestors current new [] (S h) Hs2 Hlinked)
    as (copies & h' & Eprop & Hle & Hf & Hl & Hs').
  exists current, ancestors, new, copies, h'.
  split; [reflexivity|]. split.
  - unfold _push. rewrite (top_rev _ _ _ Erev).
    rewrite bind_eq with (a := current) (h1 := h) by reflexivity.
    rewrite bind_eq with (1 := Eadd).
    rewrite rev_removelast, Erev. simpl tl.
    rewrite bind_eq with (1 := Eprop). simpl app.
    unfold pushed_stack.
    destruct (isinstance_ContainsChild element || isinstance_ContainsChildren element);
      reflexivity.
  - split; [lia|]. split; [assumption|]. split; [assumption|].
    split; [assumption|]. split; [assumption|]. constructor; assumption.
Qed.

(** ** The invariant *)

Lemma Inv_stack a b : stack a = stack b -> Inv a -> Inv b.
Proof. intros E [H1 H2 H3 H4]. split; rewrite <- E; assumption. Qed.

Lemma stack_replace_stack self s : stack (_replace self (stack_is s)) = s.
Proof. reflexivity. Qed.

Lemma linked_tail x l : linked (x :: l) -> linked l.
Proof. intros [_ H]. exact H. Qed.

Lemma linked_drop_first l : linked l -> linked (tl l).
Proof. destruct l; [auto|apply linked_tail]. Qed.

Lemma linked_drop l : linked l -> linked (drop_ContainsChild l).
Proof.
  induction l as [|x l IH]; intros H; [exact I|].
  simpl. destruct (isinstance_ContainsChild x); [|exact H].
  apply IH. eapply linked_tail. exact H.
Qed.

Lemma open_top_drop l : open_top (drop_ContainsChild l).
Proof.
  induction l as [|x l IH]; [exact I|].
  simpl. destruct x as [| |]; simpl; auto.
Qed.

Lemma drop_incl l : incl (drop_ContainsChild l) l.
Proof.
  induction l as [|x l IH]; [apply incl_refl|].
  simpl. destruct (isinstance_ContainsChild x); [|apply incl_refl].
  apply incl_tl. exact IH.
Qed.

Lemma drop_keeps_last l root :
  isinstance_ContainsChild root = false ->
  drop_ContainsChild (l ++ [root]) = drop_ContainsChild l ++ [root].
Proof.
  intros Hr. induction l as [|x l IH]; simpl.
  - rewrite Hr. reflexivity.
  - destruct (isinstance_ContainsChild x); [exact IH|reflexivity].
Qed.

(** The loop that closes the quantifiers never removes a root. *)
Lemma pop_keeps_root root rest :
  isinstance_ContainsChild root = false ->
  pop_ContainsChild (root :: rest)
  = root :: rev (drop_ContainsChild (rev rest)).
Proof.
  intros Hr. unfold pop_ContainsChild. simpl rev.
  rewrite drop_keeps_last by assumption.
  rewrite rev_app_distr. reflexivity.
Qed.

Lemma is_Root_not_ContainsChild root :
  is_Root root -> isinstance_ContainsChild root = false.
Proof. destruct root as [| |? [] ?]; simpl; intros H; try contradiction; reflexivity. Qed.

Lemma same_class_Root a b : same_class a b -> is_Root a -> is_Root b.
Proof.
  destruct a as [| |? ka ?], b as [| |? kb ?]; simpl; try contradiction.
  intros ->. auto.
Qed.

Lemma Forall2_same_class_rev l l' :
  Forall2 same_class l l' -> Forall2 same_class (rev l) (rev l').
Proof.
  induction 1; simpl; [constructor|].
  apply Forall2_app; [assumption|]. constructor; [assumption|constructor].
Qed.

Lemma Inv_pop root rest :
  is_Root root ->
  Forall sound_node (root :: rest) ->
  linked (rev (root :: rest)) ->
  forall self, stack self = pop_ContainsChild (root :: rest) -> Inv self.
Proof.
  intros Hr Hs Hl self E.
  pose proof (is_Root_not_ContainsChild _ Hr) as Hn.
  split; rewrite E.
  - rewrite pop_keeps_root by assumption. eauto.
  - unfold pop_ContainsChild. apply Forall_rev.
    apply Forall_forall. intros x Hx.
    apply list_elem_of_In, drop_incl, in_rev in Hx.
    rewrite Forall_forall in Hs. apply Hs. apply list_elem_of_In. exact Hx.
  - unfold pop_ContainsChild. rewrite rev_involutive. apply linked_drop. exact Hl.
  - unfold pop_ContainsChild. rewrite rev_involutive. apply open_top_drop.
Qed.

Lemma Inv_push self element h self' h' :
  Inv self -> pushable element ->
  _push self element h = Ok (self', h') ->
  Inv self' /\ h < h'.
Proof.
  intros HI Hp E.
  destruct (_push_sound self element h HI)
    as (current & ancestors & new & copies & h1 & Erev & E1 & Hlt & Hsc & Hc & Hf & Hl & Hs).
  rewrite E in E1. inversion E1; subst h1 self'. clear E1. split; [|exact Hlt].
  destruct HI as [(root & rest & Est & Hroot) Hsound Hlinked Htop].
  assert (F : Forall2 same_class (stack self) (rev (new :: copies))).
  { rewrite <- (rev_involutive (stack self)), Erev.
    apply Forall2_same_class_rev. constructor; assumption. }
  rewrite Est in F.
  destruct (rev (new :: copies)) as [|root' rest'] eqn:E2; [inversion F|].
  symmetry in E2.
  apply Forall2_cons_1 in F. destruct F as [Hr' Hrest'].
  assert (Hroot' : is_Root root') by (eapply same_class_Root; eassumption).
  assert (Hs' : Forall sound_node (root' :: rest')).
  { rewrite E2. apply Forall_rev. exact Hs. }
  assert (Hl' : linked (rev (root' :: rest'))).
  { rewrite E2, rev_involutive. exact Hl. }
  assert (E3 : rev copies ++ [new] = root' :: rest') by (rewrite E2; reflexivity).
  assert (Er : rev (root' :: rest') = new :: copies)
    by (rewrite E2; apply rev_involutive).
  unfold pushed_stack. rewrite E3.
  destruct (isinstance_ContainsChild element || isinstance_ContainsChildren element) eqn:Hstk.
  - split; rewrite stack_replace_stack.
    + exists root', (rest' ++ [element]). split; [reflexivity|exact Hroot'].
    + apply Forall_app. split; [exact Hs'|]. constructor; [|constructor].
      destruct element as [|? ? [|]|]; simpl in *; try discriminate; auto.
      contradiction.
    + rewrite rev_app_distr.
      change (rev [element] ++ rev (root' :: rest'))
        with (element :: rev (root' :: rest')).
      rewrite Er. split; [exact Hc|exact Hl].
    + rewrite rev_app_distr.
      change (rev [element] ++ rev (root' :: rest'))
        with (element :: rev (root' :: rest')).
      destruct element as [|? ? [|]|]; simpl in *; auto.
  - eapply Inv_pop; try eassumption. apply stack_replace_stack.
Qed.

Lemma Inv_end self h self' h' :
  Inv self -> end_ self h = Ok (self', h') -> Inv self' /\ h' = h.
Proof.
  intros [(root & rest & Est & Hroot) Hsound Hlinked Htop] E.
  unfold end_ in E.
  destruct (length (stack self) <=? 1) eqn:Hlen; [discriminate|].
  inv_M. destruct (negb (isinstance_ContainsChildren a)); [discriminate|].
  inv_M. split; [|reflexivity].
  rewrite Est in *. apply Nat.leb_gt in Hlen. simpl in Hlen.
  destruct rest as [|x rest]; [simpl in Hlen; lia|].
  assert (Erm : removelast (root :: x :: rest) = root :: removelast (x :: rest))
    by reflexivity.
  rewrite Erm.
  eapply Inv_pop with (root := root) (rest := removelast (x :: rest)).
  - exact Hroot.
  - rewrite <- Erm. apply Forall_forall. intros y Hy.
    rewrite Forall_forall in Hsound. apply Hsound.
    apply list_elem_of_In. apply list_elem_of_In in Hy.
    clear -Hy. revert Hy. generalize (root :: x :: rest). intros l.
    induction l as [|z l IH]; simpl; [tauto|].
    destruct l; [simpl; tauto|]. intros [->|H]; [left; reflexivity|right; auto].
  - rewrite <- Erm, rev_removelast. eapply linked_drop_first. exact Hlinked.
  - reflexivity.
Qed.

(** ** Induction on nodes *)

Lemma Element_ind' (P : Element -> Prop) :
  (forall i l, P (Leaf i l)) ->
  (forall i q, P (ContainsChild i q None)) ->
  (forall i q c, P c -> P (ContainsChild i q (Some c))) ->
  (forall i k cs, Forall P cs -> P (ContainsChildren i k cs)) ->
  forall e, P e.
Proof.
  intros HL HN HS HC. fix IH 1. intros [i l|i q [c|]|i k cs].
  - apply HL.
  - apply HS, IH.
  - apply HN.
  - apply HC. induction cs as [|c cs IHcs]; constructor; [apply IH|exact IHcs].
Qed.

(** ** _merge_in_element changes nothing but the names *)

Lemma only_names_refl a : only_names a a.
Proof. destruct a. reflexivity. Qed.

Lemma only_names_trans a b c : only_names a b -> only_names b c -> only_names a c.
Proof.
  unfold only_names. intros Hab Hbc. rewrite Hbc at 1. rewrite Hab at 1.
  destruct a. reflexivity.
Qed.

Lemma only_names_replace a names : only_names a (_replace a (named_groups_is names)).
Proof. destruct a. reflexivity. Qed.

Lemma only_names_stack a b : only_names a b -> stack b = stack a.
Proof. intros ->. reflexivity. Qed.

Lemma only_names_total a b :
  only_names a b -> total_capture_groups b = total_capture_groups a.
Proof. intros ->. reflexivity. Qed.

Lemma ContainsChild_replace_child_Ok self old new h e h' :
  ContainsChild_replace_child self old new h = Ok (e, h') ->
  exists i q c, self = ContainsChild i q c /\ e = ContainsChild h q new /\ h' = S h.
Proof.
  destruct self as [| i q c |]; simpl; try discriminate.
  destruct (negb (is_opt c old)); [discriminate|].
  intros H. apply new_ContainsChild_Ok in H. destruct H as (-> & -> & _).
  do 3 eexists. split; [reflexivity|]. split; reflexivity.
Qed.

Lemma ContainsChildren_replace_child_Ok self old new h e h' :
  ContainsChildren_replace_child self old new h = Ok (e, h') ->
  exists i k cs,
    self = ContainsChildren i k cs /\
    e = ContainsChildren h k (List.map (fun c => if is_ c old then new else c) cs) /\
    h' = S h.
Proof.
  destruct self as [| | i k cs]; simpl; try discriminate.
  destruct (negb _); [discriminate|].
  intros H. apply new_ContainsChildren_Ok in H. destruct H as (-> & -> & _).
  do 3 eexists. split; [reflexivity|]. split; reflexivity.
Qed.

Lemma merge_children_names merge cs :
  Forall (fun c => forall m h r h',
            merge m c h = Ok (r, h') -> only_names m (fst r) /\ h <= h') cs ->
  forall merged element h r h',
    merge_children merge cs merged element h = Ok (r, h') ->
    only_names merged (fst r) /\ h <= h'.
Proof.
  induction 1 as [|c cs Hc Hcs IH]; intros merged element h r h' E; simpl in E.
  - inv_M. split; [apply only_names_refl|lia].
  - inv_M. apply Hc in E0. destruct E0 as [Hn Hle].
    apply ContainsChildren_replace_child_Ok in E1.
    destruct E1 as (i & k & cs' & -> & -> & ->).
    apply IH in E. destruct E as [Hn' Hle'].
    split; [eapply only_names_trans; eassumption|lia].
Qed.

Lemma _merge_in_element_names element : forall self namespace ignore h r h',
  _merge_in_element self element namespace ignore h = Ok (r, h') ->
  only_names self (fst r) /\ h <= h'.
Proof.
  induction element as [i l|i q|i q c IH|i k cs IH] using Element_ind';
    intros self namespace ignore h r h' E.
  - destruct l; simpl in E;
      repeat match type of E with
             | (if ?b then _ else _) _ = _ => destruct b
             end;
      inv_M;
      repeat match goal with
             | H : new_Leaf _ _ = Ok _ |- _ =>
                 apply new_Leaf_Ok in H; destruct H as (-> & -> & _)
             end;
      simpl; (split; [apply only_names_refl|lia]).
  - simpl in E. inv_M.
    apply new_ContainsChild_Ok in E1. destruct E1 as (-> & -> & _).
    simpl. split; [apply only_names_refl|lia].
  - cbn [_merge_in_element] in E. inv_M.
    apply ContainsChild_replace_child_Ok in E1.
    destruct E1 as (? & ? & ? & _ & -> & ->).
    match goal with
    | H : _merge_in_element _ _ _ _ _ = Ok _ |- _ => apply IH in H; destruct H
    end.
    simpl. split; [assumption|lia].
  - cbn [_merge_in_element] in E.
    apply bind_Ok in E. destruct E as (a & h0 & Ea & E).
    assert (H0 : only_names self (fst a) /\ h <= h0).
    { destruct k;
        try (apply ret_Ok in Ea; destruct Ea; subst;
             split; [apply only_names_refl|lia]).
      apply bind_Ok in Ea. destruct Ea as (renamed & h1 & Er & Ea).
      match type of Ea with
      | (if ?b then _ else _) _ = _ => destruct b; [discriminate|]
      end.
      apply ret_Ok in Ea. destruct Ea; subst. simpl.
      split; [apply only_names_replace|].
      destruct (truthy namespace).
      - apply new_ContainsChildren_Ok in Er. destruct Er as (_ & -> & _). lia.
      - apply ret_Ok in Er. destruct Er; subst; lia. }
    destruct H0 as [Hn Hle].
    eapply merge_children_names in E.
    2:{ eapply Forall_impl; [exact IH|].
        intros c Hc m h1 r1 h1' Hm. eapply Hc. exact Hm. }
    destruct E as [Hn' Hle'].
    split; [eapply only_names_trans; eassumption|lia].
Qed.

(** ** Every call keeps the invariant *)

Lemma Inv_init strict : Inv (SuperExpressive0 strict).
Proof.
  split; simpl.
  - exists Root0, []. split; [reflexivity|exact I].
  - constructor; [reflexivity|constructor].
  - auto.
  - exact I.
Qed.

Lemma Inv_push_leaf l self h self' h' :
  Inv self -> push_leaf l self h = Ok (self', h') -> Inv self' /\ h <= h'.
Proof.
  intros HI E. unfold push_leaf in E.
  apply bind_Ok in E. destruct E as (e & h1 & En & E).
  apply new_Leaf_Ok in En. destruct En as (-> & -> & _).
  apply Inv_push in E; [|exact HI|exact I]. destruct E. split; [assumption|lia].
Qed.

Lemma Inv_push_container k self h self' h' :
  Inv self -> push_container k self h = Ok (self', h') -> Inv self' /\ h <= h'.
Proof.
  intros HI E. unfold push_container in E.
  apply bind_Ok in E. destruct E as (e & h1 & En & E).
  apply new_ContainsChildren_Ok in En. destruct En as (-> & -> & Hk).
  apply Inv_push in E; [|exact HI|exact Hk]. destruct E. split; [assumption|lia].
Qed.

Lemma Inv__quantify quantifier self h self' h' :
  Inv self -> pushable quantifier ->
  _quantify quantifier self h = Ok (self', h') -> Inv self' /\ h <= h'.
Proof.
  intros HI Hp E. unfold _quantify in E.
  apply bind_Ok in E. destruct E as (current & h1 & Et & E).
  apply lift_Ok in Et. destruct Et as [_ ->].
  destruct (isinstance_Quantifier current); [discriminate|].
  apply Inv_push in E; [|exact HI|exact Hp]. destruct E. split; [assumption|lia].
Qed.

Lemma Inv_quantify q self h self' h' :
  Inv self -> quantify q self h = Ok (self', h') -> Inv self' /\ h <= h'.
Proof.
  intros HI E. unfold quantify in E.
  apply bind_Ok in E. destruct E as (e & h1 & En & E).
  apply new_ContainsChild_Ok in En. destruct En as (-> & -> & Hq).
  apply Inv__quantify in E; [|exact HI|exact Hq]. destruct E. split; [assumption|lia].
Qed.

Lemma Inv_subexpression expression namespace ignore_flags ignore self h self' h' :
  Inv self ->
  subexpression expression namespace ignore_flags ignore self h = Ok (self', h') ->
  Inv self' /\ h <= h'.
Proof.
  intros HI E. unfold subexpression in E.
  destruct (negb (length (stack expression) =? 1)).
  { apply bind_Ok in E. destruct E as (? & ? & _ & E). discriminate. }
  apply bind_Ok in E. destruct E as (root & h1 & Eb & E).
  apply lift_Ok in Eb. destruct Eb as [_ ->].
  apply bind_Ok in E. destruct E as (r & h2 & Em & E).
  apply _merge_in_element_names in Em. destruct Em as [Hn Hle].
  apply bind_Ok in E. destruct E as (merged & h3 & Ef & E).
  assert (Hm : stack merged = stack self /\ h3 = h2).
  { destruct (negb ignore_flags).
    - destruct (_ || _) in Ef; [discriminate|].
      apply ret_Ok in Ef. destruct Ef as [-> ->]. split; [|reflexivity].
      destruct (f_global expression); [reflexivity|].
      destruct (f_dotall expression); [reflexivity|].
      destruct (f_multiline expression); [reflexivity|].
      destruct (f_ignorecase expression); [reflexivity|].
      apply only_names_stack. exact Hn.
    - apply ret_Ok in Ef. destruct Ef as [-> ->]. split; [|reflexivity].
      apply only_names_stack. exact Hn. }
  destruct Hm as [Hm ->].
  apply bind_Ok in E. destruct E as (children & h4 & Ec & E).
  apply lift_Ok in Ec. destruct Ec as [_ ->].
  apply bind_Ok in E. destruct E as (sub & h5 & Es & E).
  apply new_ContainsChildren_Ok in Es. destruct Es as (-> & -> & Hk).
  apply bind_Ok in E. destruct E as (pushed & h6 & Ep & E).
  apply Inv_push in Ep; [|eapply Inv_stack; [symmetry; exact Hm|exact HI]|exact Hk].
  destruct Ep as [HIp Hlt].
  apply Inv_end in E; [|exact HIp]. destruct E as [HIe ->].
  split; [exact HIe|lia].
Qed.

Lemma Inv_step o self h self' h' :
  Inv self -> step o self h = Ok (self', h') -> Inv self' /\ h <= h'.
Proof.
  intros HI E.
  destruct o; simpl in E;
    try (apply ret_Ok in E; destruct E as [-> ->];
         split; [eapply Inv_stack; [|exact HI]; reflexivity|lia]);
    try (eapply Inv_push_leaf; eassumption);
    try (eapply Inv_push_container; eassumption);
    try (eapply Inv_quantify; eassumption).
  - unfold named_backreference in E.
    destruct (negb _); [discriminate|]. eapply Inv_push_leaf; eassumption.
  - unfold backreference in E.
    destruct (negb _); [discriminate|]. eapply Inv_push_leaf; eassumption.
  - unfold capture in E.
    apply bind_Ok in E. destruct E as (pushed & h1 & Ep & E).
    apply Inv_push_container in Ep; [|exact HI]. destruct Ep as [HIp Hle].
    apply ret_Ok in E. destruct E as [-> ->].
    split; [eapply Inv_stack; [|exact HIp]; reflexivity|exact Hle].
  - unfold named_capture in E.
    destruct (bool_decide _); [discriminate|].
    apply bind_Ok in E. destruct E as (pushed & h1 & Ep & E).
    apply Inv_push_container in Ep; [|exact HI]. destruct Ep as [HIp Hle].
    apply ret_Ok in E. destruct E as [-> ->].
    split; [eapply Inv_stack; [|exact HIp]; reflexivity|exact Hle].
  - unfold start_of_input in E.
    repeat match type of E with
           | (if ?b then _ else _) _ = _ => destruct b; [discriminate|]
           end.
    eapply Inv_push_leaf; eassumption.
  - unfold end_of_input in E.
    destruct (_ && _); [discriminate|]. eapply Inv_push_leaf; eassumption.
  - apply Inv_end in E; [|exact HI]. destruct E as [? ->]. split; [assumption|lia].
  - eapply Inv_subexpression; eassumption.
  - unfold ascii_backspace in E.
    apply bind_Ok in E. destruct E as (current & h1 & Et & E).
    apply lift_Ok in Et. destruct Et as [_ ->].
    destruct (negb _); [discriminate|]. eapply Inv_push_leaf; eassumption.
Qed.

Lemma reachable_Inv h self : reachable h self -> Inv self.
Proof.
  induction 1 as [strict|h h' self _ IH _|h o self h' self' _ IH _ _ E].
  - apply Inv_init.
  - exact IH.
  - eapply Inv_step; eassumption.
Qed.

(** ** Chains of calls stay reachable *)

Lemma reachable_run ops : forall h self h' self',
  reachable h self ->
  Forall (fun o => forall e ns igf ign,
            o = O_subexpression e ns igf ign -> reachable h e) ops ->
  run ops self h = Ok (self', h') ->
  reachable h' self' /\ h <= h'.
Proof.
  induction ops as [|o ops IH]; intros h self h' self' Hr Hops E; simpl in E.
  - apply ret_Ok in E. destruct E as [-> ->]. split; [exact Hr|lia].
  - apply bind_Ok in E. destruct E as (s & h1 & Es & E).
    inversion Hops as [|? ? Ho Hrest]; subst.
    pose proof (Inv_step _ _ _ _ _ (reachable_Inv _ _ Hr) Es) as [_ Hle].
    apply IH in E.
    + destruct E as [Hr' Hle']. split; [exact Hr'|lia].
    + eapply reachable_step; eassumption.
    + eapply Forall_impl; [exact Hrest|].
      intros o' Ho' e ns igf ign ->.
      eapply reachable_later; [eapply Ho'; reflexivity|exact Hle].
Qed.

Lemma _push_succeeds self element h :
  Inv self -> exists self' h', _push self element h = Ok (self', h').
Proof.
  intros HI.
  destruct (_push_sound self element h HI)
    as (? & ? & ? & ? & h' & _ & E & _).
  eauto.
Qed.

Lemma Inv_top_not_set self current :
  Inv self -> top (stack self) = Ok current ->
  unset_quantifier current = isinstance_Quantifier current.
Proof.
  intros [_ _ _ Ht] E. apply top_Ok in E. destruct E as (anc & E).
  rewrite E in Ht. destruct current as [|? ? [|]|]; simpl in *; auto; contradiction.
Qed.

Lemma push_container_eq k self h :
  Container_post_init k = Ok tt ->
  push_container k self h = _push self (ContainsChildren h k []) (S h).
Proof.
  intros E. unfold push_container. apply bind_eq. apply new_ContainsChildren_eq. exact E.
Qed.

(** ** A push and an [end] change nothing but the stack *)

Lemma _push_frame self element h self' h' :
  _push self element h = Ok (self', h') ->
  exists s, self' = _replace self (stack_is s).
Proof.
  unfold _push. intros E.
  apply bind_Ok in E. destruct E as (current & h1 & _ & E).
  apply bind_Ok in E. destruct E as (new & h2 & _ & E).
  apply bind_Ok in E. destruct E as (new_stack & h3 & _ & E).
  destruct (_ || _); apply ret_Ok in E; destruct E as [-> _]; eauto.
Qed.

Lemma end_frame self h self' h' :
  end_ self h = Ok (self', h') -> exists s, self' = _replace self (stack_is s).
Proof.
  unfold end_. intros E. destruct (_ <=? _); [discriminate|].
  apply bind_Ok in E. destruct E as (current & h1 & _ & E).
  destruct (negb _); [discriminate|].
  apply ret_Ok in E; destruct E as [-> _]; eauto.
Qed.


(** ** Trees of distinct objects *)

Lemma well_formed_oid h e : well_formed h e = true -> oid e < h.
Proof.
  destruct e; simpl; intros H; apply andb_true_iff in H; destruct H as [H _];
    apply Nat.ltb_lt in H; exact H.
Qed.

Lemma well_formed_mono h h' e :
  h <= h' -> well_formed h e = true -> well_formed h' e = true.
Proof.
  intros Hle. induction e as [i l|i q|i q c IH|i k cs IH] using Element_ind';
    simpl; intros H; apply andb_true_iff in H; destruct H as [Hi H];
    apply Nat.ltb_lt in Hi; apply andb_true_iff; (split; [apply Nat.ltb_lt; lia|]);
    auto.
  apply andb_true_iff in H. destruct H as [Hd Hf].
  apply andb_true_iff. split; [exact Hd|].
  apply forallb_forall. intros c Hc.
  rewrite Forall_forall in IH. apply IH.
  - apply list_elem_of_In. exact Hc.
  - rewrite forallb_forall in Hf. apply Hf. exact Hc.
Qed.

(** Replacing by identity in a list of distinct objects replaces at one
    position. *)
Lemma replace_middle done c rest new :
  Forall (fun d => oid d <> oid c) done ->
  Forall (fun t => oid t <> oid c) rest ->
  List.map (fun x => if is_ x c then new else x) (done ++ c :: rest)
  = done ++ new :: rest.
Proof.
  intros Hd Hr.
  assert (Hid : forall l, Forall (fun t => oid t <> oid c) l ->
                List.map (fun x => if is_ x c then new else x) l = l).
  { induction 1 as [|x l Hx _ IH]; [reflexivity|]. simpl. rewrite IH.
    unfold is_. apply Nat.eqb_neq in Hx. rewrite Hx. reflexivity. }
  rewrite map_app. simpl. rewrite (Hid _ Hd), (Hid _ Hr).
  unfold is_. rewrite Nat.eqb_refl. reflexivity.
Qed.

(** ** What _merge_in_element returns *)

Lemma not_existsb_In (a : nat) l :
  negb (existsb (Nat.eqb a) l) = true <-> ~ In a l.
Proof.
  rewrite negb_true_iff. split.
  - intros H Hin. assert (existsb (Nat.eqb a) l = true); [|congruence].
    apply existsb_exists. exists a. split; [exact Hin|apply Nat.eqb_refl].
  - intros H. destruct (existsb (Nat.eqb a) l) eqn:E; [|reflexivity].
    exfalso. apply H. apply existsb_exists in E. destruct E as (x & Hx & Hax).
    apply Nat.eqb_eq in Hax. subst. exact Hx.
Qed.

Lemma distinct_middle l1 x l2 :
  distinct (l1 ++ x :: l2) = true
  <-> ~ In x l1 /\ ~ In x l2 /\ distinct (l1 ++ l2) = true.
Proof.
  induction l1 as [|a l1 IH]; simpl.
  - rewrite andb_true_iff, not_existsb_In. tauto.
  - rewrite !andb_true_iff, !not_existsb_In, IH, !in_app_iff. simpl.
    intuition congruence.
Qed.

Lemma not_In_oid c l :
  ~ In (oid c) (List.map oid l) -> Forall (fun d => oid d <> oid c) l.
Proof.
  intros H. apply Forall_forall. intros d Hd Heq. apply H.
  rewrite <- Heq. apply in_map. apply list_elem_of_In. exact Hd.
Qed.

Lemma below_not_In h i l :
  forallb (well_formed h) l = true -> h <= i -> ~ In i (List.map oid l).
Proof.
  intros Hw Hle Hin. apply in_map_iff in Hin. destruct Hin as (x & Hx & Hin).
  rewrite forallb_forall in Hw. apply Hw, well_formed_oid in Hin. lia.
Qed.

Lemma forallb_well_formed_mono h h' l :
  h <= h' -> forallb (well_formed h) l = true -> forallb (well_formed h') l = true.
Proof.
  intros Hle Hw. apply forallb_forall. intros x Hx.
  rewrite forallb_forall in Hw. eapply well_formed_mono; [exact Hle|apply Hw; exact Hx].
Qed.

Section Merge.

(** The two options of a merge; they are the same in every recursive
    call. *)
Variables (namespace : str) (ignore : bool).

Lemma merge_children_rewrites n todo :
  Forall (fun c => forall m h r h',
            total_capture_groups m = n ->
            well_formed h c = true ->
            _merge_in_element m c namespace ignore h = Ok (r, h') ->
            merge_result n namespace ignore c h r h') todo ->
  forall done merged i k h r h',
    total_capture_groups merged = n ->
    distinct (List.map oid (done ++ todo)) = true ->
    forallb (well_formed h) (done ++ todo) = true ->
    merge_children
      (fun merged child => _merge_in_element merged child namespace ignore)
      todo merged (ContainsChildren i k (done ++ todo)) h = Ok (r, h') ->
    exists i' todo',
      snd r = ContainsChildren i' k (done ++ todo') /\
      Forall2 (fun t t' => erase t' = erase (rewritten n namespace ignore t))
        todo todo' /\
      h <= h' /\ (i' = i \/ h <= i' < h') /\
      distinct (List.map oid (done ++ todo')) = true /\
      forallb (well_formed h') (done ++ todo') = true.
Proof.
  induction 1 as [|c rest Hc _ IH];
    intros done merged i k h r h' Hn Hd Hw E; cbn [merge_children] in E.
  - apply ret_Ok in E. destruct E as [-> ->]. simpl.
    exists i, []. repeat split; auto.
  - apply bind_Ok in E. destruct E as (r1 & h1 & Em & E).
    apply bind_Ok in E. destruct E as (element' & h2 & Er & E).
    rewrite forallb_app in Hw. apply andb_true_iff in Hw. destruct Hw as [Hwd Hw].
    simpl in Hw. apply andb_true_iff in Hw. destruct Hw as [Hwc Hwr].
    rewrite map_app in Hd. simpl in Hd.
    apply distinct_middle in Hd. destruct Hd as (Hd1 & Hd2 & Hd3).
    pose proof (_merge_in_element_names _ _ _ _ _ _ _ Em) as [Hnames _].
    destruct (Hc merged h r1 h1 Hn Hwc Em) as (He & Ho & Hle & Hw1).
    apply ContainsChildren_replace_child_Ok in Er.
    destruct Er as (i0 & k0 & cs0 & E0 & -> & ->).
    inversion E0; subst i0 k0 cs0. clear E0.
    rewrite replace_middle in E by (apply not_In_oid; assumption).
    change (done ++ snd r1 :: rest) with (done ++ [snd r1] ++ rest) in E.
    rewrite app_assoc in E.
    apply IH in E.
    + destruct E as (i' & todo' & Es & Hf & Hle' & Hi' & Hd' & Hw').
      exists i', (snd r1 :: todo').
      rewrite <- app_assoc in Es, Hd', Hw'.
      split; [exact Es|]. split; [constructor; assumption|].
      split; [lia|]. split; [right; destruct Hi'; lia|].
      split; assumption.
    + rewrite (only_names_total _ _ Hnames). exact Hn.
    + rewrite <- app_assoc, map_app. simpl. apply distinct_middle.
      split; [|split; [|exact Hd3]].
      * destruct Ho as [->|Ho]; [exact Hd1|]. eapply below_not_In; eassumption.
      * destruct Ho as [->|Ho]; [exact Hd2|]. eapply below_not_In; eassumption.
    + rewrite <- app_assoc, forallb_app. simpl.
      rewrite (forallb_well_formed_mono h (S h1)) by (lia || assumption).
      rewrite (forallb_well_formed_mono h (S h1) rest) by (lia || assumption).
      rewrite (well_formed_mono h1 (S h1)) by (lia || assumption).
      reflexivity.
Qed.

Lemma _merge_in_element_rewrites element :
  forall self h r h',
    well_formed h element = true ->
    _merge_in_element self element namespace ignore h = Ok (r, h') ->
    merge_result (total_capture_groups self) namespace ignore element h r h'.
Proof.
  induction element as [i l|i q|i q c IH|i k cs IH] using Element_ind';
    intros self h r h' Hw E; unfold merge_result.
  - pose proof (well_formed_oid _ _ Hw) as Hi. simpl in Hi.
    destruct l; simpl in E;
      repeat match type of E with
             | (if ?b then _ else _) _ = _ => destruct b
             end;
      inv_M;
      repeat match goal with
             | H : new_Leaf _ _ = Ok _ |- _ =>
                 apply new_Leaf_Ok in H; destruct H as (-> & -> & _)
             end;
      simpl; (split; [reflexivity|split; [auto|split; [lia|]]]);
      rewrite andb_true_r; apply Nat.ltb_lt; lia.
  - simpl in E. inv_M.
    match goal with
    | H : new_ContainsChild _ _ _ = Ok _ |- _ =>
        apply new_ContainsChild_Ok in H; destruct H as (-> & -> & _)
    end.
    simpl. split; [reflexivity|split; [auto|split; [lia|]]].
    rewrite andb_true_r; apply Nat.ltb_lt; lia.
  - cbn [_merge_in_element] in E.
    apply bind_Ok in E. destruct E as (r1 & h1 & E1 & E).
    apply bind_Ok in E1. destruct E1 as (r0 & h0 & E0 & E1).
    apply ret_Ok in E1. destruct E1 as [-> ->].
    apply bind_Ok in E. destruct E as (element' & h2 & Er & E).
    apply ret_Ok in E. destruct E as [-> ->].
    apply ContainsChild_replace_child_Ok in Er.
    destruct Er as (? & ? & ? & E2 & -> & ->). inversion E2; subst. clear E2.
    simpl in Hw. apply andb_true_iff in Hw. destruct Hw as [_ Hw].
    destruct (IH _ _ _ _ Hw E0) as (He & _ & Hle & Hw0).
    simpl. rewrite He. split; [reflexivity|split; [right; lia|split; [lia|]]].
    apply andb_true_iff. split; [apply Nat.ltb_lt; lia|].
    eapply well_formed_mono; [|exact Hw0]. lia.
  - cbn [_merge_in_element] in E.
    apply bind_Ok in E. destruct E as (r1 & h1 & E1 & E).
    simpl in Hw. apply andb_true_iff in Hw. destruct Hw as [Hi Hw].
    apply Nat.ltb_lt in Hi.
    apply andb_true_iff in Hw. destruct Hw as [Hd Hw].
    assert (H1 : exists i1,
               snd r1 = ContainsChildren i1
                          match k with
                          | NamedCapture name => NamedCapture (namespace ++ name)
                          | _ => k
                          end cs
               /\ (i1 = i \/ h <= i1 < h1) /\ h <= h1
               /\ total_capture_groups (fst r1) = total_capture_groups self).
    { destruct k;
        try (apply ret_Ok in E1; destruct E1 as [-> ->];
             exists i; simpl; auto).
      apply bind_Ok in E1. destruct E1 as (renamed & h0 & Er & E1).
      match type of E1 with
      | (if ?b then _ else _) _ = _ => destruct b; [discriminate|]
      end.
      apply ret_Ok in E1. destruct E1 as [-> ->]. simpl.
      unfold truthy in Er. destruct (bool_decide (namespace = [])) eqn:Hns.
      - apply bool_decide_eq_true in Hns. subst namespace. simpl in Er.
        apply ret_Ok in Er. destruct Er as [-> ->]. exists i. simpl. auto.
      - simpl in Er. apply new_ContainsChildren_Ok in Er.
        destruct Er as (-> & -> & _). exists h. split; [reflexivity|].
        split; [right; lia|]. split; [lia|reflexivity]. }
    destruct H1 as (i1 & Es & Hi1 & Hle1 & Hn1). rewrite Es in E.
    eapply (merge_children_rewrites (total_capture_groups self) cs)
      with (done := []) in E.
    + destruct E as (i' & todo' & Er & Hf & Hle & Hi' & Hd' & Hw').
      rewrite Er. simpl. simpl in Hd', Hw'.
      split; [|split; [|split; [lia|]]].
      * f_equal. clear -Hf. induction Hf; simpl; [reflexivity|]. f_equal; assumption.
      * destruct Hi' as [->|Hi']; [|right; lia].
        destruct Hi1 as [->|Hi1]; [left; reflexivity|right; lia].
      * rewrite Hd', Hw', !andb_true_r. apply Nat.ltb_lt.
        destruct Hi' as [->|Hi']; [|lia]. destruct Hi1 as [->|Hi1]; lia.
    + eapply Forall_impl; [exact IH|].
      intros c Hc m h2 r2 h2' Hm Hwc Em. rewrite <- Hm. eapply Hc; eassumption.
    + exact Hn1.
    + exact Hd.
    + simpl. eapply forallb_well_formed_mono; [|exact Hw]. lia.
Qed.

End Merge.

(** ** The text does not depend on the identities *)

Lemma fusable_text_erase e : fusable_text (erase e) = fusable_text e.
Proof. destruct e as [i l| |]; try reflexivity. Qed.

Lemma is_fusable_erase e : is_fusable (erase e) = is_fusable e.
Proof. destruct e as [i l| |]; try reflexivity. Qed.

Lemma requires_group_erase e :
  isinstance_QuantifierRequiresGroup (erase e) = isinstance_QuantifierRequiresGroup e.
Proof. destruct e as [i l| |]; reflexivity. Qed.

Lemma str_erase e : str_ (erase e) = str_ e.
Proof.
  induction e as [i l|i q|i q c IH|i k cs IH] using Element_ind'.
  - reflexivity.
  - reflexivity.
  - simpl. rewrite IH, requires_group_erase. reflexivity.
  - assert (Hm : List.map str_ (List.map erase cs) = List.map str_ cs).
    { induction IH as [|c cs Hc _ IHcs]; simpl; [reflexivity|].
      rewrite Hc, IHcs. reflexivity. }
    assert (Hf : flat_map (fun c => match fusable_text c with
                                    | Some t => [t]
                                    | None => []
                                    end) (List.map erase cs)
                 = flat_map (fun c => match fusable_text c with
                                      | Some t => [t]
                                      | None => []
                                      end) cs).
    { clear. induction cs as [|c cs IHcs]; simpl; [reflexivity|].
      rewrite fusable_text_erase, IHcs. reflexivity. }
    assert (Hi : flat_map (fun c => if is_fusable c then [] else [str_ c])
                   (List.map erase cs)
                 = flat_map (fun c => if is_fusable c then [] else [str_ c]) cs).
    { clear Hm Hf. induction IH as [|c cs Hc _ IHcs]; simpl; [reflexivity|].
      rewrite is_fusable_erase, Hc, IHcs. reflexivity. }
    cbn [erase str_]. rewrite Hm, Hf, Hi. reflexivity.
Qed.

Lemma erase_str a b : erase a = erase b -> str_ a = str_ b.
Proof. intros H. rewrite <- (str_erase a), <- (str_erase b), H. reflexivity. Qed.

(** ** Without a namespace and without anchors to ignore, only the
    backreferences change *)

Lemma occurs_child p i q c :
  occurs p (ContainsChild i q (Some c)) = false -> occurs p c = false.
Proof. simpl. intros H. apply orb_false_iff in H. apply H. Qed.

Lemma occurs_children p i k cs :
  occurs p (ContainsChildren i k cs) = false ->
  Forall (fun c => occurs p c = false) cs.
Proof.
  simpl. intros H. apply orb_false_iff in H. destruct H as [_ H].
  apply Forall_forall. intros c Hc.
  destruct (occurs p c) eqn:E; [|reflexivity].
  rewrite <- H. symmetry. apply existsb_exists. exists c.
  split; [apply list_elem_of_In; exact Hc|exact E].
Qed.

Lemma rewritten_shift n ignore e :
  ignore = false \/ occurs is_anchor e = false ->
  rewritten n [] ignore e = shift_backreferences n e.
Proof.
  induction e as [i l|i q|i q c IH|i k cs IH] using Element_ind'; intros H.
  - destruct l; try reflexivity; simpl;
      (destruct H as [->|H]; [reflexivity|discriminate H]).
  - reflexivity.
  - simpl. rewrite IH; [reflexivity|].
    destruct H as [H|H]; [left; exact H|right; eapply occurs_child; exact H].
  - assert (Hc : Forall (fun c => ignore = false \/ occurs is_anchor c = false) cs).
    { destruct H as [H|H].
      - apply Forall_forall. intros; left; exact H.
      - eapply Forall_impl; [eapply occurs_children; exact H|].
        intros; right; assumption. }
    simpl. f_equal; [destruct k; reflexivity|].
    clear H. induction IH as [|c cs Hc1 _ IHcs]; [reflexivity|].
    inversion Hc; subst. simpl. f_equal; auto.
Qed.

(** ** Every reachable tree is a tree of distinct objects *)

Lemma distinct_snoc b cs e :
  distinct (List.map oid cs) = true ->
  forallb (well_formed b) cs = true -> b <= oid e ->
  distinct (List.map oid (cs ++ [e])) = true.
Proof.
  intros Hd Hw Hb. rewrite map_app. simpl. apply distinct_middle.
  split; [eapply below_not_In; eassumption|].
  split; [intros []|]. rewrite app_nil_r. exact Hd.
Qed.

Lemma distinct_replace b cs old new :
  distinct (List.map oid cs) = true ->
  forallb (well_formed b) cs = true -> b <= oid new ->
  distinct (List.map oid (List.map (fun c => if is_ c old then new else c) cs))
  = true.
Proof.
  intros Hd Hw Hb. induction cs as [|c rest IH]; [reflexivity|].
  simpl in Hd, Hw. apply andb_true_iff in Hd. destruct Hd as [Hc Hd].
  apply not_existsb_In in Hc.
  apply andb_true_iff in Hw. destruct Hw as [Hwc Hw].
  specialize (IH Hd Hw). simpl.
  apply andb_true_iff. split; [|exact IH].
  apply not_existsb_In. intros Hin.
  apply in_map_iff in Hin. destruct Hin as (x & Hx & Hin).
  apply in_map_iff in Hin. destruct Hin as (t & Ht & Hin).
  pose proof (well_formed_oid _ _ Hwc) as Hlt.
  assert (Htlt : oid t < b).
  { rewrite forallb_forall in Hw. apply well_formed_oid, Hw, Hin. }
  assert (Htc : oid t <> oid c).
  { intros Heq. apply Hc. rewrite <- Heq. apply in_map. exact Hin. }
  subst x. unfold is_ in *.
  destruct (oid c =? oid old) eqn:Eco; destruct (oid t =? oid old) eqn:Eto;
    try apply Nat.eqb_eq in Eco; try apply Nat.eqb_eq in Eto; subst; simpl in *;
    try lia.
Qed.

Lemma forallb_replace h cs old new :
  forallb (well_formed h) cs = true -> well_formed h new = true ->
  forallb (well_formed h) (List.map (fun c => if is_ c old then new else c) cs)
  = true.
Proof.
  intros Hw Hn. apply forallb_forall. intros x Hx.
  apply in_map_iff in Hx. destruct Hx as (t & <- & Ht).
  destruct (is_ t old); [exact Hn|].
  rewrite forallb_forall in Hw. apply Hw. exact Ht.
Qed.

Lemma add_child_wf b current element h new h1 :
  add_child current element h = Ok (new, h1) ->
  well_formed b current = true -> b <= oid element -> b <= h ->
  well_formed h element = true ->
  well_formed h1 new = true /\ h1 = S h /\ oid new = h.
Proof.
  intros E Hw Hb Hbh Hwe.
  destruct current as [i l|i q [c|]|i k cs]; simpl in E; try discriminate.
  - apply new_ContainsChild_Ok in E. destruct E as (-> & -> & _).
    split; [|auto]. simpl. apply andb_true_iff.
    split; [apply Nat.ltb_lt; lia|]. eapply well_formed_mono; [|exact Hwe]. lia.
  - apply new_ContainsChildren_Ok in E. destruct E as (-> & -> & _).
    split; [|auto]. simpl in *.
    apply andb_true_iff in Hw. destruct Hw as [_ Hw].
    apply andb_true_iff in Hw. destruct Hw as [Hd Hw].
    rewrite (distinct_snoc b) by assumption.
    rewrite forallb_app. simpl.
    rewrite (forallb_well_formed_mono b (S h)) by (lia || assumption).
    rewrite (well_formed_mono h (S h)) by (lia || assumption).
    rewrite !andb_true_r. apply Nat.ltb_lt. lia.
Qed.

Lemma replace_child_wf b s previous replaced h s' h1 :
  replace_child s previous replaced h = Ok (s', h1) ->
  well_formed b s = true -> b <= oid replaced -> b <= h ->
  well_formed h replaced = true ->
  well_formed h1 s' = true /\ h1 = S h /\ oid s' = h.
Proof.
  intros E Hw Hb Hbh Hwr.
  destruct s as [i l|i q c|i k cs]; simpl in E; try discriminate.
  - destruct (negb _); [discriminate|].
    apply new_ContainsChild_Ok in E. destruct E as (-> & -> & _).
    split; [|auto]. simpl. apply andb_true_iff.
    split; [apply Nat.ltb_lt; lia|]. eapply well_formed_mono; [|exact Hwr]. lia.
  - destruct (negb _); [discriminate|].
    apply new_ContainsChildren_Ok in E. destruct E as (-> & -> & _).
    split; [|auto]. simpl in *.
    apply andb_true_iff in Hw. destruct Hw as [_ Hw].
    apply andb_true_iff in Hw. destruct Hw as [Hd Hw].
    rewrite (distinct_replace b) by assumption.
    rewrite forallb_replace.
    + rewrite !andb_true_r. apply Nat.ltb_lt. lia.
    + eapply forallb_well_formed_mono; [|exact Hw]. lia.
    + eapply well_formed_mono; [|exact Hwr]. lia.
Qed.

Lemma Forall_well_formed_mono h h' l :
  h <= h' ->
  Forall (fun s => well_formed h s = true) l ->
  Forall (fun s => well_formed h' s = true) l.
Proof.
  intros Hle Hf. eapply Forall_impl; [exact Hf|].
  intros s. apply well_formed_mono. exact Hle.
Qed.

Lemma propagate_wf b ancestors : forall previous replaced acc h out h',
  propagate ancestors previous replaced acc h = Ok (out, h') ->
  Forall (fun s => well_formed b s = true) ancestors ->
  b <= oid replaced -> b <= h -> well_formed h replaced = true ->
  Forall (fun s => well_formed h s = true) acc ->
  Forall (fun s => well_formed h' s = true) out /\ h <= h'.
Proof.
  induction ancestors as [|s rest IH];
    intros previous replaced acc h out h' E Hanc Hb Hbh Hwr Hacc; simpl in E.
  - apply ret_Ok in E. destruct E as [-> ->]. split; [exact Hacc|lia].
  - apply bind_Ok in E. destruct E as (s' & h1 & Er & E).
    inversion Hanc as [|? ? Hs Hrest]; subst.
    destruct (replace_child_wf _ _ _ _ _ _ _ Er Hs Hb Hbh Hwr) as (Hws & -> & Ho).
    apply IH in E; try assumption; try lia.
    + destruct E. split; [assumption|lia].
    + apply Forall_app. split; [|constructor; [exact Hws|constructor]].
      eapply Forall_well_formed_mono; [|exact Hacc]. lia.
Qed.

Lemma pop_incl l : incl (pop_ContainsChild l) l.
Proof.
  unfold pop_ContainsChild. intros x Hx.
  apply in_rev in Hx. apply drop_incl in Hx. apply in_rev. exact Hx.
Qed.

Lemma Forall_incl {A} (P : A -> Prop) (l l' : list A) :
  incl l l' -> Forall P l' -> Forall P l.
Proof.
  intros Hi Hf. apply Forall_forall. intros x Hx.
  rewrite Forall_forall in Hf. apply Hf.
  apply list_elem_of_In, Hi, list_elem_of_In. exact Hx.
Qed.

Lemma removelast_incl {A} (l : list A) : incl (removelast l) l.
Proof.
  induction l as [|x l IH]; [apply incl_refl|].
  simpl. destruct l; [intros ? []|].
  intros y [->|Hy]; [left; reflexivity|right; apply IH; exact Hy].
Qed.

Lemma _push_wf b self element h self' h' :
  _push self element h = Ok (self', h') ->
  Forall (fun s => well_formed b s = true) (stack self) ->
  b <= oid element -> b <= h -> well_formed h element = true ->
  Forall (fun s => well_formed h' s = true) (stack self') /\ h <= h'.
Proof.
  intros E Hst Hb Hbh Hwe. unfold _push in E.
  apply bind_Ok in E. destruct E as (current & h0 & Et & E).
  apply lift_Ok in Et. destruct Et as [Et ->].
  apply bind_Ok in E. destruct E as (new & h1 & Ea & E).
  apply bind_Ok in E. destruct E as (new_stack & h2 & Ep & E).
  apply top_Ok in Et. destruct Et as (ancestors & Erev).
  assert (Hrev : Forall (fun s => well_formed b s = true) (current :: ancestors)).
  { rewrite <- Erev. apply Forall_rev. exact Hst. }
  inversion Hrev as [|? ? Hc Hanc]; subst.
  destruct (add_child_wf _ _ _ _ _ _ Ea Hc Hb Hbh Hwe) as (Hwn & -> & Hon).
  rewrite rev_removelast, Erev in Ep. simpl tl in Ep.
  apply propagate_wf with (b := b) in Ep; try assumption; try lia;
    [|constructor].
  destruct Ep as [Hns Hle].
  assert (Hall : Forall (fun s => well_formed h2 s = true)
                   ((rev new_stack ++ [new]) ++ [element])).
  { apply Forall_app. split; [apply Forall_app; split|].
    - apply Forall_rev. exact Hns.
    - constructor; [|constructor]. eapply well_formed_mono; [|exact Hwn]. lia.
    - constructor; [|constructor]. eapply well_formed_mono; [|exact Hwe]. lia. }
  destruct (_ || _); apply ret_Ok in E; destruct E as [-> ->];
    rewrite stack_replace_stack; (split; [|lia]).
  - exact Hall.
  - eapply Forall_incl; [apply pop_incl|].
    apply Forall_app in Hall. apply Hall.
Qed.

Lemma end_wf self h self' h' :
  end_ self h = Ok (self', h') ->
  Forall (fun s => well_formed h s = true) (stack self) ->
  Forall (fun s => well_formed h' s = true) (stack self') /\ h' = h.
Proof.
  unfold end_. intros E Hst. destruct (_ <=? _); [discriminate|].
  apply bind_Ok in E. destruct E as (current & h1 & Et & E).
  apply lift_Ok in Et. destruct Et as [_ ->].
  destruct (negb _); [discriminate|].
  apply ret_Ok in E. destruct E as [-> ->]. split; [|reflexivity].
  rewrite stack_replace_stack.
  eapply Forall_incl; [|exact Hst].
  eapply incl_tran; [apply pop_incl|apply removelast_incl].
Qed.

Lemma push_fresh_wf self e h self' h' :
  _push self e (S h) = Ok (self', h') ->
  oid e = h -> well_formed (S h) e = true ->
  Forall (fun s => well_formed h s = true) (stack self) ->
  Forall (fun s => well_formed h' s = true) (stack self') /\ h <= h'.
Proof.
  intros E Ho Hw Hst.
  apply (_push_wf h) in E; try assumption; try lia.
  destruct E. split; [assumption|lia].
Qed.

Lemma push_leaf_wf l self h self' h' :
  push_leaf l self h = Ok (self', h') ->
  Forall (fun s => well_formed h s = true) (stack self) ->
  Forall (fun s => well_formed h' s = true) (stack self') /\ h <= h'.
Proof.
  unfold push_leaf. intros E Hst.
  apply bind_Ok in E. destruct E as (e & h1 & En & E).
  apply new_Leaf_Ok in En. destruct En as (-> & -> & _).
  eapply push_fresh_wf; try eassumption; [reflexivity|].
  simpl. rewrite andb_true_r. apply Nat.ltb_lt. lia.
Qed.

Lemma push_container_wf k self h self' h' :
  push_container k self h = Ok (self', h') ->
  Forall (fun s => well_formed h s = true) (stack self) ->
  Forall (fun s => well_formed h' s = true) (stack self') /\ h <= h'.
Proof.
  unfold push_container. intros E Hst.
  apply bind_Ok in E. destruct E as (e & h1 & En & E).
  apply new_ContainsChildren_Ok in En. destruct En as (-> & -> & _).
  eapply push_fresh_wf; try eassumption; [reflexivity|].
  simpl. rewrite andb_true_r. apply Nat.ltb_lt. lia.
Qed.

Lemma quantify_wf q self h self' h' :
  quantify q self h = Ok (self', h') ->
  Forall (fun s => well_formed h s = true) (stack self) ->
  Forall (fun s => well_formed h' s = true) (stack self') /\ h <= h'.
Proof.
  unfold quantify, _quantify. intros E Hst.
  apply bind_Ok in E. destruct E as (e & h1 & En & E).
  apply new_ContainsChild_Ok in En. destruct En as (-> & -> & _).
  apply bind_Ok in E. destruct E as (current & h2 & Et & E).
  apply lift_Ok in Et. destruct Et as [_ ->].
  destruct (isinstance_Quantifier current); [discriminate|].
  eapply push_fresh_wf; try eassumption; [reflexivity|].
  simpl. rewrite andb_true_r. apply Nat.ltb_lt. lia.
Qed.

Lemma subexpression_wf expression namespace ignore_flags ignore self h self' h' :
  subexpression expression namespace ignore_flags ignore self h = Ok (self', h') ->
  Forall (fun s => well_formed h s = true) (stack self) ->
  Forall (fun s => well_formed h s = true) (stack expression) ->
  Forall (fun s => well_formed h' s = true) (stack self') /\ h <= h'.
Proof.
  intros E Hst Hex. unfold subexpression in E.
  destruct (negb (length (stack expression) =? 1)).
  { apply bind_Ok in E. destruct E as (? & ? & _ & E). discriminate. }
  apply bind_Ok in E. destruct E as (root & h1 & Eb & E).
  apply lift_Ok in Eb. destruct Eb as [Eb ->].
  assert (Hroot : well_formed h root = true).
  { unfold bottom in Eb. destruct (stack expression); [discriminate|].
    inversion Eb; subst. inversion Hex; assumption. }
  apply bind_Ok in E. destruct E as (r & h2 & Em & E).
  pose proof (_merge_in_element_names _ _ _ _ _ _ _ Em) as [Hn _].
  apply _merge_in_element_rewrites in Em; [|exact Hroot].
  destruct Em as (_ & _ & Hle & Hwr).
  apply bind_Ok in E. destruct E as (merged & h3 & Ef & E).
  assert (Hm : stack merged = stack self /\ h3 = h2).
  { destruct (negb ignore_flags).
    - destruct (_ || _) in Ef; [discriminate|].
      apply ret_Ok in Ef. destruct Ef as [-> ->]. split; [|reflexivity].
      destruct (f_global expression); [reflexivity|].
      destruct (f_dotall expression); [reflexivity|].
      destruct (f_multiline expression); [reflexivity|].
      destruct (f_ignorecase expression); [reflexivity|].
      apply only_names_stack. exact Hn.
    - apply ret_Ok in Ef. destruct Ef as [-> ->]. split; [|reflexivity].
      apply only_names_stack. exact Hn. }
  destruct Hm as [Hm ->].
  apply bind_Ok in E. destruct E as (children & h4 & Ec & E).
  apply lift_Ok in Ec. destruct Ec as [Ec ->].
  apply bind_Ok in E. destruct E as (sub & h5 & Es & E).
  apply new_ContainsChildren_Ok in Es. destruct Es as (-> & -> & _).
  apply bind_Ok in E. destruct E as (pushed & h6 & Ep & E).
  apply push_fresh_wf in Ep.
  - destruct Ep as [Hp Hle2]. apply end_wf in E; [|exact Hp].
    destruct E as [He ->]. split; [exact He|lia].
  - reflexivity.
  - destruct (snd r) as [| |i k cs]; try discriminate.
    inversion Ec; subst. simpl in Hwr |- *.
    apply andb_true_iff in Hwr. destruct Hwr as [_ Hwr].
    apply andb_true_iff in Hwr. destruct Hwr as [Hd Hw].
    rewrite Hd. rewrite (forallb_well_formed_mono h2 (S h2)) by (lia || assumption).
    rewrite !andb_true_r. apply Nat.ltb_lt. lia.
  - rewrite Hm. eapply Forall_well_formed_mono; [|exact Hst]. exact Hle.
Qed.

Lemma step_wf o self h self' h' :
  step o self h = Ok (self', h') ->
  Forall (fun s => well_formed h s = true) (stack self) ->
  (forall e ns igf ign, o = O_subexpression e ns igf ign ->
     Forall (fun s => well_formed h s = true) (stack e)) ->
  Forall (fun s => well_formed h' s = true) (stack self') /\ h <= h'.
Proof.
  intros E Hst Hop.
  destruct o; simpl in E;
    try (apply ret_Ok in E; destruct E as [-> ->]; split; [exact Hst|lia]);
    try (eapply push_leaf_wf; eassumption);
    try (eapply push_container_wf; eassumption);
    try (eapply quantify_wf; eassumption).
  - unfold named_backreference in E.
    destruct (negb _); [discriminate|]. eapply push_leaf_wf; eassumption.
  - unfold backreference in E.
    destruct (negb _); [discriminate|]. eapply push_leaf_wf; eassumption.
  - unfold capture in E.
    apply bind_Ok in E. destruct E as (pushed & h1 & Ep & E).
    apply push_container_wf in Ep; [|exact Hst].
    apply ret_Ok in E. destruct E as [-> ->]. exact Ep.
  - unfold named_capture in E.
    destruct (bool_decide _); [discriminate|].
    apply bind_Ok in E. destruct E as (pushed & h1 & Ep & E).
    apply push_container_wf in Ep; [|exact Hst].
    apply ret_Ok in E. destruct E as [-> ->]. exact Ep.
  - unfold start_of_input in E.
    repeat match type of E with
           | (if ?b then _ else _) _ = _ => destruct b; [discriminate|]
           end.
    eapply push_leaf_wf; eassumption.
  - unfold end_of_input in E.
    destruct (_ && _); [discriminate|]. eapply push_leaf_wf; eassumption.
  - apply end_wf in E; [|exact Hst]. destruct E as [? ->]. split; [assumption|lia].
  - eapply subexpression_wf; [eassumption|exact Hst|]. eapply Hop. reflexivity.
  - unfold ascii_backspace in E.
    apply bind_Ok in E. destruct E as (current & h1 & Et & E).
    apply lift_Ok in Et. destruct Et as [_ ->].
    destruct (negb _); [discriminate|]. eapply push_leaf_wf; eassumption.
Qed.

Lemma reachable_well_formed h self :
  reachable h self -> Forall (fun s => well_formed h s = true) (stack self).
Proof.
  induction 1 as [strict|h h' self _ IH Hle|h o self h' self' _ IH _ IHop E].
  - constructor; [reflexivity|constructor].
  - eapply Forall_well_formed_mono; eassumption.
  - eapply step_wf; eassumption.
Qed.

(** * The expressions of the repository's tests *)

Example test_any_of_basic :
  pattern (run [O_any_of; O_string (lit "hello"); O_digit; O_word;
                O_char (CStr (lit ".")); O_char (CStr (lit "#")); O_end]
             (SuperExpressive0 false))
  = Ok (lit "(?:hello|\d|\w|[\.#])").
Proof. vm_compute. reflexivity. Qed.

Example test_backreference :
  pattern (run [O_capture; O_string (lit "hello "); O_word;
                O_char (CStr (lit "!")); O_end; O_backreference 1]
             (SuperExpressive0 false))
  = Ok (lit "(hello \w!)\1").
Proof. vm_compute. reflexivity. Qed.

Example test_named_backreference :
  pattern (run [O_named_capture (lit "module"); O_exactly 2; O_any_char; O_end;
                O_named_backreference (lit "module")]
             (SuperExpressive0 false))
  = Ok (lit "(?P<module>.{2})\g<module>").
Proof. vm_compute. reflexivity. Qed.

Example test_end_no_stack :
  pattern (run [O_end] (SuperExpressive0 false)) = Raise RuntimeError.
Proof. vm_compute. reflexivity. Qed.

Example test_simple :
  pattern (simple <- run [O_string (lit "hello"); O_any_char; O_string (lit "world")]
                       (SuperExpressive0 false) ;;
           run [O_start_of_input; O_at_least 3; O_digit;
                O_subexpression simple [] true true;
                O_range (CStr (lit "0")) (CStr (lit "9")); O_end_of_input]
             (SuperExpressive0 false))
  = Ok (lit "^\d{3,}hello.world[0-9]$").
Proof. vm_compute. reflexivity. Qed.

Example test_simple_quantified :
  pattern (simple <- run [O_string (lit "hello"); O_any_char; O_string (lit "world")]
                       (SuperExpressive0 false) ;;
           run [O_start_of_input; O_at_least 3; O_digit; O_one_or_more;
                O_subexpression simple [] true true;
                O_range (CStr (lit "0")) (CStr (lit "9")); O_end_of_input]
             (SuperExpressive0 false))
  = Ok (lit "^\d{3,}(?:hello.world)+[0-9]$").
Proof. vm_compute. reflexivity. Qed.

(** Two groups that are equal as values are two objects: the second one
    alone receives the digit. *)
Example equal_groups_are_two_objects :
  pattern (run [O_group; O_end; O_group; O_digit; O_end] (SuperExpressive0 false))
  = Ok (lit "(?:)(?:\d)").
Proof. vm_compute. reflexivity. Qed.

(** * The stack of open nodes *)

Lemma drop_ContainsChild_spec reversed :
  exists popped,
    reversed = popped ++ drop_ContainsChild reversed /\
    forallb isinstance_ContainsChild popped = true.
Proof.
  induction reversed as [|x l (p & E & Hp)].
  - exists []. split; reflexivity.
  - simpl. destruct (isinstance_ContainsChild x) eqn:Hx.
    + exists (x :: p). simpl. rewrite Hx, Hp. split; [f_equal; exact E|reflexivity].
    + exists []. split; reflexivity.
Qed.

Lemma pop_ContainsChild_root root rest :
  is_Root root ->
  exists kept popped,
    pop_ContainsChild (root :: rest) = root :: kept /\
    rest = kept ++ popped /\
    forallb isinstance_ContainsChild popped = true.
Proof.
  intros Hr. rewrite pop_keeps_root by (apply is_Root_not_ContainsChild; exact Hr).
  destruct (drop_ContainsChild_spec (rev rest)) as (p & E & Hp).
  exists (rev (drop_ContainsChild (rev rest))), (rev p).
  split; [reflexivity|]. split.
  - rewrite <- rev_app_distr, <- E, rev_involutive. reflexivity.
  - rewrite forallb_forall in *. intros x Hx. apply Hp. apply in_rev. exact Hx.
Qed.

(** C10, the claim as stated fails in its last clause: a state whose stack
    has length two renders, as every reachable state does. *)
Lemma unfinished_state_renders :
  exists s h,
    run [O_capture; O_digit] (SuperExpressive0 false) 1 = Ok (s, h)
    /\ length (stack s) = 2
    /\ __str__ s = Ok (lit "(\d)").
Proof.
  eexists _, _. split; [vm_compute; reflexivity|].
  split; vm_compute; reflexivity.
Qed.

(** C10, amended.  In every state that a chain of successful calls
    reaches, the stack of open nodes is not empty and its bottom entry is
    the root container.  The method [end] refuses to pop the last entry;
    the loop that closes the quantifiers after a push or an [end] removes
    only single-child nodes from the top and keeps the root.  Rendering is
    defined whatever the length of the stack; the length matters to a
    merge, which refuses with [ValueError] every expression whose stack
    does not have length one. *)
Theorem stack_rooted h self :
  reachable h self ->
  (exists i children,
     stack self = ContainsChildren i Root children :: openStack self)
  /\ (forall h0, length (stack self) <= 1 -> end_ self h0 = Raise RuntimeError)
  /\ (forall root rest, is_Root root ->
      exists kept popped,
        pop_ContainsChild (root :: rest) = root :: kept /\
        rest = kept ++ popped /\
        forallb isinstance_ContainsChild popped = true)
  /\ (exists text, __str__ self = Ok text)
  /\ (forall target namespace ignore_flags ignore h0,
      length (stack self) <> 1 ->
      subexpression self namespace ignore_flags ignore target h0
      = Raise ValueError).
Proof.
  intros Hr. apply reachable_Inv in Hr.
  destruct Hr as [(root & rest & E & Hroot) _ _ _].
  unfold openStack. rewrite E. simpl.
  split; [|split; [|split; [|split]]].
  - destruct root as [| |i [] cs]; try contradiction. eauto.
  - intros h0 Hl. unfold end_. rewrite E. simpl.
    destruct rest; [reflexivity|simpl in Hl; lia].
  - apply pop_ContainsChild_root.
  - unfold __str__. rewrite E. simpl. eauto.
  - intros target namespace ignore_flags ignore h0 Hl.
    unfold subexpression. rewrite E.
    destruct rest as [|x rest]; [simpl in Hl; lia|].
    cbn [length Nat.eqb negb].
    destruct (rev (root :: x :: rest)) as [|current ancestors] eqn:Erev.
    { apply (f_equal (@length Element)) in Erev. rewrite length_rev in Erev.
      discriminate. }
    rewrite (bind_eq _ _ _ current h0)
      by (unfold lift; rewrite (top_rev _ _ _ Erev); reflexivity).
    reflexivity.
Qed.

Lemma reachable_open_group : reachable 3 open_group.
Proof.
  apply (reachable_step 1 O_group (SuperExpressive0 true)).
  - apply reachable_init.
  - intros; discriminate.
  - vm_compute. reflexivity.
Qed.

Lemma stack_rooted_witness :
  (exists i children,
     stack open_group = ContainsChildren i Root children :: openStack open_group)
  /\ (forall h0, length (stack open_group) <= 1 -> end_ open_group h0 = Raise RuntimeError)
  /\ (forall root rest, is_Root root ->
      exists kept popped,
        pop_ContainsChild (root :: rest) = root :: kept /\
        rest = kept ++ popped /\
        forallb isinstance_ContainsChild popped = true)
  /\ (exists text, __str__ open_group = Ok text)
  /\ (forall target namespace ignore_flags ignore h0,
      length (stack open_group) <> 1 ->
      subexpression open_group namespace ignore_flags ignore target h0
      = Raise ValueError).
Proof.
  apply (stack_rooted 3 open_group). apply reachable_open_group.
Defined.

(** * Quantifiers *)

(** C9.  In a state whose innermost open node is a quantifier without its
    child, applying a quantifier raises an error: every quantifier object
    is refused, so each of [optional], [zero_or_more], [one_or_more],
    [exactly], [at_least], [between] and the lazy variants raises.  In a
    reachable state whose innermost open node is not such a quantifier,
    applying a quantifier object succeeds, and so does each of these
    methods once its class has been instantiated. *)
Theorem quantifiers_never_stack h self current :
  top (stack self) = Ok current ->
  (unset_quantifier current = true ->
     (forall quantifier, _quantify quantifier self h = Raise RuntimeError)
     /\ (forall q, exists e, quantify q self h = Raise e))
  /\ (reachable h self -> unset_quantifier current = false ->
     (forall quantifier,
        exists self' h', _quantify quantifier self h = Ok (self', h'))
     /\ (forall q, Quantifier_post_init q = Ok tt ->
         exists self' h', quantify q self h = Ok (self', h'))).
Proof.
  intros Et.
  assert (Hquant : forall quantifier h0,
            _quantify quantifier self h0
            = if isinstance_Quantifier current then Raise RuntimeError
              else _push self quantifier h0).
  { intros quantifier h0. unfold _quantify.
    rewrite bind_eq with (a := current) (h1 := h0) by (unfold lift; rewrite Et; reflexivity).
    destruct (isinstance_Quantifier current); reflexivity. }
  split.
  - intros Hu.
    assert (Hq : isinstance_Quantifier current = true)
      by (destruct current as [|? ? [|]|]; try discriminate; reflexivity).
    split.
    + intros quantifier. rewrite Hquant, Hq. reflexivity.
    + intros q. unfold quantify, new_ContainsChild.
      destruct (Quantifier_post_init q) as [[]|e] eqn:Eq.
      * exists RuntimeError.
        rewrite bind_eq with (a := ContainsChild h q None) (h1 := S h)
          by (unfold bind, lift, alloc, ret; reflexivity).
        rewrite Hquant, Hq. reflexivity.
      * exists e. reflexivity.
  - intros Hr Hu. apply reachable_Inv in Hr.
    pose proof (Inv_top_not_set _ _ Hr Et) as Hq. rewrite Hu in Hq.
    split.
    + intros quantifier. rewrite Hquant, <- Hq. apply _push_succeeds. exact Hr.
    + intros q Eq. unfold quantify.
      rewrite bind_eq with (1 := new_ContainsChild_eq q None h Eq).
      rewrite Hquant, <- Hq. apply _push_succeeds. exact Hr.
Qed.

Lemma quantifiers_never_stack_witness :
  (exists e, quantify ZeroOrMore open_optional 3 = Raise e) /\
  (exists self' h', quantify ZeroOrMore open_group 3 = Ok (self', h')).
Proof.
  split.
  - destruct (quantifiers_never_stack 3 open_optional (ContainsChild 1 Opt None)
                eq_refl) as [H _].
    destruct (H eq_refl) as [_ H2]. apply H2.
  - destruct (quantifiers_never_stack 3 open_group (ContainsChildren 1 Group [])
                eq_refl) as [_ H].
    destruct (H reachable_open_group eq_refl) as [_ H2]. apply H2. reflexivity.
Defined.

(** * Backreferences *)

(** C4, the claim as stated fails: a backreference to index 0 is accepted
    by a builder without any capture group. *)
Lemma backreference_zero_accepted :
  pattern (backreference 0 (SuperExpressive0 false)) = Ok (lit "\0").
Proof. vm_compute. reflexivity. Qed.

(** C4, amended.  In a state with [n] counted capture groups,
    [backreference] rejects every negative index and every index above
    [n]; in a reachable state it accepts every index from 0 to [n].  The
    count starts at 0 and every successful [capture] adds one to it, so the
    groups are numbered from 1; in a reachable state [capture] succeeds. *)
Theorem backreference_bounds h self index :
  ((index < 0 \/ total_capture_groups self < index)%Z ->
     backreference index self h = Raise ValueError)
  /\ (reachable h self -> (0 <= index <= total_capture_groups self)%Z ->
     exists self' h', backreference index self h = Ok (self', h'))
  /\ (forall self' h', capture self h = Ok (self', h') ->
      total_capture_groups self' = (total_capture_groups self + 1)%Z)
  /\ (reachable h self -> exists self' h', capture self h = Ok (self', h'))
  /\ (forall strict, total_capture_groups (SuperExpressive0 strict) = 0%Z).
Proof.
  split; [|split; [|split; [|split]]].
  - intros Hi. unfold backreference.
    replace ((0 <=? index)%Z && (index <=? total_capture_groups self)%Z) with false;
      [reflexivity|].
    symmetry. apply andb_false_iff. destruct Hi; [left|right]; lia.
  - intros Hr Hi. apply reachable_Inv in Hr. unfold backreference.
    replace ((0 <=? index)%Z && (index <=? total_capture_groups self)%Z) with true
      by (symmetry; apply andb_true_iff; split; lia).
    simpl. unfold push_leaf.
    assert (Ep : LeafT_post_init (Backreference index) = Ok tt).
    { simpl. unfold check. replace (index <? 0)%Z with false by lia. reflexivity. }
    rewrite (bind_eq _ _ _ _ _ (new_Leaf_eq _ h Ep)).
    apply _push_succeeds. exact Hr.
  - intros self' h' E. unfold capture, push_container in E.
    apply bind_Ok in E. destruct E as (pushed & h1 & Ep & E).
    apply bind_Ok in Ep. destruct Ep as (e & h2 & _ & Ep).
    apply _push_frame in Ep. destruct Ep as (s & ->).
    apply ret_Ok in E. destruct E as [-> _]. reflexivity.
  - intros Hr. apply reachable_Inv in Hr.
    destruct (_push_sound self (ContainsChildren h Capture []) (S h) Hr)
      as (? & ? & ? & ? & h' & _ & E & _).
    unfold capture.
    erewrite bind_eq
      by (rewrite push_container_eq by reflexivity; exact E).
    do 2 eexists. reflexivity.
  - reflexivity.
Qed.

Lemma backreference_bounds_witness :
  backreference 1 open_group 3 = Raise ValueError
  /\ exists self' h', backreference 0 open_group 3 = Ok (self', h').
Proof.
  destruct (backreference_bounds 3 open_group 1) as (H1 & _).
  destruct (backreference_bounds 3 open_group 0) as (_ & H2 & _).
  split.
  - apply H1. right. reflexivity.
  - apply H2; [apply reachable_open_group|]. split; discriminate.
Defined.

(** * Rendering *)

(** C2, the claim as stated fails: with a group still open, rendering
    succeeds and yields the text of the group as if it were closed. *)
Lemma open_group_renders :
  run [O_group] (SuperExpressive0 true) 1 = Ok (open_group, 3)
  /\ openStack open_group <> []
  /\ __str__ open_group = Ok (lit "(?:)").
Proof. split; [|split]; [vm_compute; reflexivity|discriminate|vm_compute; reflexivity]. Qed.

(** With a quantifier that still waits for its child, the text holds the
    rendering of [None]. *)
Example open_optional_renders :
  run [O_optional] (SuperExpressive0 false) 1 = Ok (open_optional, 3)
  /\ __str__ open_optional = Ok (lit "None?").
Proof. split; vm_compute; reflexivity. Qed.

(** C2, amended.  Rendering is defined on every reachable state, whether
    or not containers are still open: it does not raise, and its result is
    the text of the root at the bottom of the stack. *)
Theorem render_defined h self :
  reachable h self ->
  exists root,
    stack self = root :: openStack self /\ __str__ self = Ok (str_ root).
Proof.
  intros Hr. apply reachable_Inv in Hr.
  destruct Hr as [(root & rest & E & _) _ _ _].
  exists root. unfold __str__, openStack. rewrite E. split; reflexivity.
Qed.

Lemma render_defined_witness :
  exists root,
    stack open_group = root :: openStack open_group /\
    __str__ open_group = Ok (str_ root).
Proof. apply (render_defined 3 open_group). apply reachable_open_group. Defined.

(** * Anchors *)

(** C3, the claim as stated fails: under strict checking, a start of input
    inside a closed group is not seen, and a second start of input is
    accepted. *)
Lemma anchor_in_closed_group_not_seen :
  pattern (run [O_group; O_start_of_input; O_end; O_start_of_input]
             (SuperExpressive0 true))
  = Ok (lit "(?:^)^").
Proof. vm_compute. reflexivity. Qed.

(** The test of [_end_defined] is the test of [_start_defined]: under
    strict checking two ends of input are accepted, and an end of input
    after a start of input is refused. *)
Example end_twice_accepted :
  pattern (run [O_end_of_input; O_end_of_input] (SuperExpressive0 true))
  = Ok (lit "$$").
Proof. vm_compute. reflexivity. Qed.

Example end_after_start_refused :
  pattern (run [O_start_of_input; O_end_of_input] (SuperExpressive0 true))
  = Raise RuntimeError.
Proof. vm_compute. reflexivity. Qed.

Lemma _start_defined_directly_open self :
  _start_defined self = directly_open isinstance_StartOfInput self.
Proof. reflexivity. Qed.

Lemma directly_open_weaken (p q : Element -> bool) self :
  (forall e, p e = true -> q e = true) ->
  directly_open q self = false -> directly_open p self = false.
Proof.
  intros Hpq Hq. unfold directly_open in *.
  destruct (existsb _ (stack self)) eqn:E in |- *; [|reflexivity].
  rewrite <- Hq. symmetry.
  apply existsb_exists in E. destruct E as (s & Hin & Hs).
  apply existsb_exists. exists s. split; [exact Hin|].
  destruct s as [|? ? [c|]|? ? cs]; try discriminate.
  - apply Hpq. exact Hs.
  - apply existsb_exists in Hs. destruct Hs as (c & Hc & Hpc).
    apply existsb_exists. exists c. split; [exact Hc|apply Hpq; exact Hpc].
Qed.

(** C3, amended.  Under strict checking, [start_of_input] raises when a
    start of input is a direct child of one of the open nodes; the scan
    looks at the children of the nodes of the stack only.  In a reachable
    state, without strict checking, or when no anchor of either kind is a
    direct child of an open node, both [start_of_input] and [end_of_input]
    are accepted. *)
Theorem strict_anchor_detection h self :
  (check_simple_start_and_end self = true ->
   directly_open isinstance_StartOfInput self = true ->
   start_of_input self h = Raise RuntimeError)
  /\ (reachable h self ->
      check_simple_start_and_end self = false \/
      directly_open is_anchor self = false ->
      (exists self' h', start_of_input self h = Ok (self', h')) /\
      (exists self' h', end_of_input self h = Ok (self', h'))).
Proof.
  split.
  - intros Hs Hd. unfold start_of_input.
    rewrite _start_defined_directly_open, Hd, Hs. reflexivity.
  - intros Hr Hc. apply reachable_Inv in Hr.
    assert (B : _start_defined self && check_simple_start_and_end self = false).
    { destruct Hc as [Hc|Hc].
      - rewrite Hc. apply andb_false_r.
      - rewrite _start_defined_directly_open.
        rewrite (directly_open_weaken _ _ self
                   (fun e He => proj2 (orb_true_iff _ _) (or_introl He)) Hc).
        reflexivity. }
    assert (B' : _end_defined self && check_simple_start_and_end self = false)
      by exact B.
    unfold start_of_input, end_of_input. rewrite B, B'.
    unfold push_leaf.
    rewrite (bind_eq _ _ _ _ _ (new_Leaf_eq StartOfInput h eq_refl)).
    rewrite (bind_eq _ _ _ _ _ (new_Leaf_eq EndOfInput h eq_refl)).
    split; apply _push_succeeds; exact Hr.
Qed.

Lemma strict_anchor_detection_witness :
  start_of_input open_anchor 3 = Raise RuntimeError
  /\ (exists self' h', start_of_input open_group 3 = Ok (self', h'))
  /\ (exists self' h', end_of_input open_group 3 = Ok (self', h')).
Proof.
  destruct (strict_anchor_detection 3 open_anchor) as [H1 _].
  destruct (strict_anchor_detection 3 open_group) as [_ H2].
  split.
  - apply H1; reflexivity.
  - apply H2; [apply reachable_open_group|]. right. reflexivity.
Defined.

(** * Rendering of alternations and quantifiers *)

Lemma fusable_list children :
  flat_map (fun c => match fusable_text c with Some t => [t] | None => [] end)
    children
  = omap fusable_text children.
Proof.
  induction children as [|c cs IH]; [reflexivity|].
  simpl. rewrite IH. destruct (fusable_text c); reflexivity.
Qed.

Lemma inner_bits_list children :
  flat_map (fun c => if is_fusable c then [] else [str_ c]) children
  = alternatives children.
Proof.
  unfold alternatives. induction children as [|c cs IH]; [reflexivity|].
  simpl. rewrite IH. destruct (is_fusable c); reflexivity.
Qed.

Lemma AnyOf_str_eq i children :
  str_ (ContainsChildren i AnyOf children)
  = AnyOf_str (omap fusable_text children) (alternatives children).
Proof. simpl. rewrite fusable_list, inner_bits_list. reflexivity. Qed.

Lemma fusable_text_member c :
  fusable_text c = if class_member c then Some (member_text c) else None.
Proof. destruct c as [j l| |]; [destruct l|..]; reflexivity. Qed.

Lemma is_fusable_member c : is_fusable c = class_member c.
Proof. destruct c as [j l| |]; [destruct l|..]; reflexivity. Qed.

Lemma omap_fusable_members children :
  omap fusable_text children
  = List.map member_text (List.filter class_member children).
Proof.
  induction children as [|c cs IH]; [reflexivity|].
  change (omap fusable_text (c :: cs))
    with (match fusable_text c with
          | Some y => y :: omap fusable_text cs
          | None => omap fusable_text cs
          end).
  rewrite IH, fusable_text_member. cbn [List.filter].
  destruct (class_member c); reflexivity.
Qed.

Lemma alternatives_others children :
  alternatives children
  = List.map str_ (List.filter (fun c => negb (class_member c)) children).
Proof.
  unfold alternatives.
  rewrite (filter_ext _ (fun c => negb (class_member c))); [reflexivity|].
  intros c. rewrite is_fusable_member. reflexivity.
Qed.

Lemma filter_all {A} (p : A -> bool) l : forallb p l = true -> List.filter p l = l.
Proof.
  induction l as [|x l IH]; [reflexivity|]. simpl.
  destruct (p x); [|discriminate]. intros H. rewrite IH by exact H. reflexivity.
Qed.

(** C7, the claim as stated fails for the alternation without children:
    every child of it is a member of the class, and [any_of.end()]
    renders as an empty group, not as a bracketed class. *)
Lemma empty_any_of_renders_group :
  forallb class_member [] = true
  /\ pattern (run [O_any_of; O_end] (SuperExpressive0 false)) = Ok (lit "(?:)").
Proof. split; [reflexivity|vm_compute; reflexivity]. Qed.

(** C7, amended.  An alternation with at least one child, all of whose
    children are single characters, ranges or character sets, renders as
    exactly one bracketed class of what the children add, in order,
    without a group and without [|].  An alternation that mixes such
    children with others renders as a non-capturing group: the other
    children in order, joined by [|], then the class of the members as
    the last alternative.  An alternation without any such child, the one
    without children among them, renders as a non-capturing group of its
    children joined by [|]. *)
Theorem any_of_fusion i children :
  (children <> [] -> forallb class_member children = true ->
   str_ (ContainsChildren i AnyOf children)
   = lit "[" ++ concat (List.map member_text children) ++ lit "]")
  /\ (existsb class_member children = true ->
      forallb class_member children = false ->
      str_ (ContainsChildren i AnyOf children)
      = lit "(?:"
        ++ join (lit "|")
             (List.map str_
                (List.filter (fun c => negb (class_member c)) children)
              ++ [bracketed_class children])
        ++ lit ")")
  /\ (existsb class_member children = false ->
      str_ (ContainsChildren i AnyOf children)
      = lit "(?:" ++ join (lit "|") (List.map str_ children) ++ lit ")").
Proof.
  rewrite AnyOf_str_eq, omap_fusable_members, alternatives_others.
  unfold bracketed_class. split; [|split].
  - intros Hne Hall.
    assert (Hn : List.filter (fun c => negb (class_member c)) children = []).
    { clear Hne. induction children as [|c cs IH]; [reflexivity|].
      simpl in *. destruct (class_member c); [|discriminate]. simpl. apply IH, Hall. }
    rewrite Hn, (filter_all _ _ Hall).
    destruct children as [|c cs]; [contradiction|]. reflexivity.
  - intros He Hall.
    assert (Hm : List.map member_text (List.filter class_member children) <> []).
    { clear Hall. induction children as [|c cs IH]; [discriminate|].
      simpl in *. destruct (class_member c); [discriminate|]. apply IH, He. }
    assert (Ho : List.map str_
                   (List.filter (fun c => negb (class_member c)) children) <> []).
    { clear He Hm. induction children as [|c cs IH]; [discriminate|].
      simpl in *. destruct (class_member c); simpl; [apply IH, Hall|discriminate]. }
    destruct (List.map member_text (List.filter class_member children));
      [contradiction|].
    destruct (List.map str_ (List.filter (fun c => negb (class_member c)) children));
      [contradiction|reflexivity].
  - intros He.
    assert (Hm : List.filter class_member children = []).
    { induction children as [|c cs IH]; [reflexivity|].
      simpl in *. destruct (class_member c); [discriminate|]. apply IH, He. }
    assert (Ho : List.filter (fun c => negb (class_member c)) children = children).
    { apply filter_all. clear Hm. induction children as [|c cs IH]; [reflexivity|].
      simpl in *. destruct (class_member c); [discriminate|]. apply IH, He. }
    rewrite Hm, Ho. reflexivity.
Qed.

Lemma any_of_fusion_witness :
  str_ (ContainsChildren 0 AnyOf
          [Leaf 1 (Char (CStr (lit "_"))); Leaf 2 (AnyOfChars (lit ".-"));
           Leaf 3 (chr_range "a" "z"); Leaf 4 (chr_range "0" "9")])
  = lit "[_\.\-a-z0-9]"
  /\ str_ (ContainsChildren 0 AnyOf
             [Leaf 1 (Char (CStr (lit "_"))); Leaf 2 (String (lit "XXX"));
              Leaf 3 (chr_range "a" "z"); Leaf 4 Digit;
              Leaf 5 (AnyOfChars (lit "xy"))])
     = lit "(?:XXX|\d|[_a-zxy])".
Proof.
  split.
  - apply (any_of_fusion 0
             [Leaf 1 (Char (CStr (lit "_"))); Leaf 2 (AnyOfChars (lit ".-"));
              Leaf 3 (chr_range "a" "z"); Leaf 4 (chr_range "0" "9")]);
      [discriminate|reflexivity].
  - apply (any_of_fusion 0
             [Leaf 1 (Char (CStr (lit "_"))); Leaf 2 (String (lit "XXX"));
              Leaf 3 (chr_range "a" "z"); Leaf 4 Digit;
              Leaf 5 (AnyOfChars (lit "xy"))]);
      reflexivity.
Defined.

(** An alternation without any child renders as an empty group. *)
Example any_of_empty i : str_ (ContainsChildren i AnyOf []) = lit "(?:)".
Proof. reflexivity. Qed.

(** C8, the claim as stated fails for a literal string of one character:
    it is a single leaf, and [zero_or_more.string('h')] renders with the
    group, not as [h*]. *)
Lemma one_character_string_wrapped :
  pattern (run [O_zero_or_more; O_string (lit "h")] (SuperExpressive0 false))
  = Ok (lit "(?:h)*").
Proof. vm_compute. reflexivity. Qed.

(** C8, amended.  A quantifier renders its child followed by its symbol.
    The text of the child is wrapped in a non-capturing group when the
    child is a literal string, of any length and so of one character too,
    a sub-expression or a root; every other child is quantified
    unwrapped: a leaf that is not a literal string, a group, a capture,
    an alternation or an assertion, which bring their own brackets, and a
    quantifier.  So zero-or-more of a leaf [X] that is not a literal
    string renders as [X*], and zero-or-more of the literal string [ab]
    renders as [(?:ab)*]. *)
Theorem quantifier_grouping i q :
  (forall j s,
     str_ (ContainsChild i q (Some (Leaf j (String s))))
     = lit "(?:" ++ translate s ++ lit ")" ++ symbol q)
  /\ (forall j k children, k = Subexpression \/ k = Root ->
      str_ (ContainsChild i q (Some (ContainsChildren j k children)))
      = lit "(?:" ++ concat (List.map str_ children) ++ lit ")" ++ symbol q)
  /\ (forall j l, (forall s, l <> String s) ->
      str_ (ContainsChild i q (Some (Leaf j l))) = LeafT_str l ++ symbol q)
  /\ (forall j k children, k <> Subexpression -> k <> Root ->
      str_ (ContainsChild i q (Some (ContainsChildren j k children)))
      = str_ (ContainsChildren j k children) ++ symbol q)
  /\ (forall j q' child,
      str_ (ContainsChild i q (Some (ContainsChild j q' child)))
      = str_ (ContainsChild j q' child) ++ symbol q)
  /\ (forall j l, (forall s, l <> String s) ->
      str_ (ContainsChild i ZeroOrMore (Some (Leaf j l)))
      = LeafT_str l ++ lit "*")
  /\ (forall j,
      str_ (ContainsChild i ZeroOrMore (Some (Leaf j (String (lit "ab")))))
      = lit "(?:ab)*").
Proof.
  split; [|split; [|split; [|split; [|split; [|split]]]]].
  - intros j s. cbn [str_ isinstance_QuantifierRequiresGroup LeafT_str].
    rewrite <- !app_assoc. reflexivity.
  - intros j k children [->| ->];
      cbn [str_ isinstance_QuantifierRequiresGroup];
      rewrite <- !app_assoc; reflexivity.
  - intros j l Hl. cbn [str_ isinstance_QuantifierRequiresGroup].
    destruct l; try reflexivity. exfalso. eapply Hl. reflexivity.
  - intros j k children Hs Hr.
    destruct k; try contradiction; reflexivity.
  - intros j q' child. reflexivity.
  - intros j l Hl. cbn [str_ isinstance_QuantifierRequiresGroup].
    destruct l; try reflexivity. exfalso. eapply Hl. reflexivity.
  - intros j. reflexivity.
Qed.

Lemma quantifier_grouping_witness :
  str_ (ContainsChild 0 OneOrMore
          (Some (ContainsChildren 1 Subexpression [Leaf 2 Digit; Leaf 3 Word])))
  = lit "(?:\d\w)+"
  /\ str_ (ContainsChild 0 OneOrMore
             (Some (ContainsChildren 1 Group [Leaf 2 Digit])))
     = lit "(?:\d)+"
  /\ str_ (ContainsChild 0 OneOrMore (Some (Leaf 1 Word))) = lit "\w+"
  /\ str_ (ContainsChild 0 OneOrMore (Some (Leaf 1 (String (lit "h")))))
     = lit "(?:h)+".
Proof.
  destruct (quantifier_grouping 0 OneOrMore)
    as (Hstring & Hmarked & Hleaf & Hother & _).
  split; [|split; [|split]].
  - apply (Hmarked 1 Subexpression [Leaf 2 Digit; Leaf 3 Word]).
    left. reflexivity.
  - apply (Hother 1 Group [Leaf 2 Digit]); discriminate.
  - apply (Hleaf 1 Word). discriminate.
  - apply (Hstring 1 (lit "h")).
Defined.

(** * Sub-expressions: the bookkeeping *)

(** [subexpression] never changes the count of capture groups, whatever
    the number of capture groups of the expression that it merges. *)
Lemma subexpression_keeps_count expression namespace ignore_flags ignore self h self' h' :
  subexpression expression namespace ignore_flags ignore self h = Ok (self', h') ->
  total_capture_groups self' = total_capture_groups self.
Proof.
  intros E. unfold subexpression in E.
  destruct (negb (length (stack expression) =? 1)).
  { apply bind_Ok in E. destruct E as (? & ? & _ & E). discriminate. }
  apply bind_Ok in E. destruct E as (root & h1 & _ & E).
  apply bind_Ok in E. destruct E as (r & h2 & Em & E).
  apply _merge_in_element_names in Em. destruct Em as [Hn _].
  apply only_names_total in Hn.
  apply bind_Ok in E. destruct E as (merged & h3 & Ef & E).
  assert (Hm : total_capture_groups merged = total_capture_groups self).
  { destruct (negb ignore_flags).
    - destruct (_ || _) in Ef; [discriminate|].
      apply ret_Ok in Ef. destruct Ef as [-> _].
      destruct (f_global expression); [reflexivity|].
      destruct (f_dotall expression); [reflexivity|].
      destruct (f_multiline expression); [reflexivity|].
      destruct (f_ignorecase expression); [reflexivity|exact Hn].
    - apply ret_Ok in Ef. destruct Ef as [-> _]. exact Hn. }
  apply bind_Ok in E. destruct E as (children & h4 & _ & E).
  apply bind_Ok in E. destruct E as (sub & h5 & _ & E).
  apply bind_Ok in E. destruct E as (pushed & h6 & Ep & E).
  apply _push_frame in Ep. destruct Ep as (s1 & ->).
  apply end_frame in E. destruct E as (s2 & ->).
  exact Hm.
Qed.

(** C1, at the failing input.  The host has one capture group and the
    sub-expression has one capture group with a backreference to it.  After
    the merge the pattern holds both groups, and the backreference of the
    sub-expression points to the second one, but the count of the host is
    still 1: a backreference to group 2 is then refused. *)
Theorem merged_capture_not_counted :
  value (expression <- INDEXED_BACKREFERENCE ;;
         host <- one_capture_host ;;
         merged <- subexpression expression [] true true host ;;
         ret (total_capture_groups host, total_capture_groups merged,
              __str__ merged, value (backreference 2 merged)))
  = Ok (1%Z, 1%Z, Ok (lit "(\d{3,})(.{2})\2"), Raise ValueError).
Proof. vm_compute. reflexivity. Qed.

(** * Sub-expressions: the flags *)

(** C6, at the failing input.  The expression to merge is case-insensitive
    and multiline, the host has neither flag, and the flags are not
    ignored: the result is multiline but not case-insensitive. *)
Theorem merged_flags_not_joined :
  value (merged <- subexpression
                     (line_by_line (case_insensitive (SuperExpressive0 false)))
                     [] false true (SuperExpressive0 false) ;;
         ret (f_ignorecase merged, f_multiline merged))
  = Ok (false, true).
Proof. vm_compute. reflexivity. Qed.

(** The same assignments drop the names that the merge has recorded: with
    the flags ignored the name of the merged capture is known to the
    result, with one flag merged it is not. *)
Example merged_names_dropped :
  value (expression <- run [O_named_capture (lit "a"); O_end; O_case_insensitive]
                         (SuperExpressive0 false) ;;
         kept <- subexpression expression [] true true (SuperExpressive0 false) ;;
         lost <- subexpression expression [] false true (SuperExpressive0 false) ;;
         ret (bool_decide (lit "a" ∈ named_groups kept),
              bool_decide (lit "a" ∈ named_groups lost)))
  = Ok (true, false).
Proof. vm_compute. reflexivity. Qed.

(** Encoding flags that differ stop the merge when the flags are not
    ignored. *)
Lemma subexpression_incompatible_flags expression namespace ignore self h :
  f_unicode self <> f_unicode expression
  \/ f_ascii self <> f_ascii expression
  \/ f_locale self <> f_locale expression ->
  exists e, subexpression expression namespace false ignore self h = Raise e.
Proof.
  intros Hd. unfold subexpression.
  destruct (negb (length (stack expression) =? 1)).
  { unfold bind. destruct (lift _ h) as [[]|e]; eauto. }
  unfold bind at 1. destruct (lift _ h) as [[root h1]|e]; [|eauto].
  unfold bind at 1. destruct (_merge_in_element _ _ _ _ _) as [[r h2]|e]; [|eauto].
  assert (B : negb (Bool.eqb (f_unicode self) (f_unicode expression))
              || negb (Bool.eqb (f_ascii self) (f_ascii expression))
              || negb (Bool.eqb (f_locale self) (f_locale expression)) = true).
  { destruct (f_unicode self), (f_unicode expression), (f_ascii self),
      (f_ascii expression), (f_locale self), (f_locale expression);
      simpl; try reflexivity; exfalso; destruct Hd as [H|[H|H]]; apply H; reflexivity. }
  unfold bind at 1. simpl negb. cbv iota. rewrite B. eauto.
Qed.

(** * Sub-expressions: the rewriting of the merged tree *)

Lemma backreferences_erase e : backreferences (erase e) = backreferences e.
Proof.
  induction e as [i l|i q|i q c IH|i k cs IH] using Element_ind'; simpl; auto.
  induction IH as [|c cs Hc _ IHcs]; simpl; [reflexivity|].
  rewrite Hc, IHcs. reflexivity.
Qed.

Lemma backreferences_rewritten n namespace ignore e :
  backreferences (rewritten n namespace ignore e)
  = List.map (fun i => (i + n)%Z) (backreferences e).
Proof.
  induction e as [i l|i q|i q c IH|i k cs IH] using Element_ind'.
  - destruct l; try reflexivity; simpl; destruct ignore; reflexivity.
  - reflexivity.
  - simpl. exact IH.
  - simpl. induction IH as [|c cs Hc _ IHcs]; simpl; [reflexivity|].
    rewrite Hc, IHcs, map_app. reflexivity.
Qed.

Example backreference_source_built :
  INDEXED_BACKREFERENCE 1 = Ok (backreference_source, 12)
  /\ run [O_capture; O_end] (SuperExpressive0 false) 12 = Ok (capture_host, 14).
Proof. split; vm_compute; reflexivity. Qed.

Lemma reachable_backreference_source : reachable 14 backreference_source.
Proof.
  apply (reachable_later 12); [|lia].
  eapply (reachable_run
            [O_capture; O_exactly 2; O_any_char; O_end; O_backreference 1]
            1 (SuperExpressive0 false)).
  - apply reachable_init.
  - repeat constructor; intros; discriminate.
  - exact (proj1 backreference_source_built).
Qed.

(** C5, the claim as stated fails: with the default options the start of
    input of the source is replaced by a no-op, so the merged content does
    not render as the pattern of the source. *)
Lemma merged_anchor_not_rendered :
  value (expression <- run [O_start_of_input; O_digit] (SuperExpressive0 false) ;;
         merged <- subexpression expression [] true true (SuperExpressive0 false) ;;
         ret (__str__ expression, __str__ merged))
  = Ok (Ok (lit "^\d"), Ok (lit "\d")).
Proof. vm_compute. reflexivity. Qed.

(** C5, amended.  When the root of a finished reachable expression is
    merged into a target with [n] counted capture groups, every indexed
    backreference of the source appears in the result with its index plus
    [n], in the same order.  Without a namespace, the result is the source
    tree with these shifts and, when [ignore_start_and_end] is set, with
    every start or end of input replaced by a no-op; so, when the anchors
    are kept or the source has none, it renders as the source with only
    the backreference indices shifted. *)
Theorem merge_shifts_backreferences
    h self expression root namespace ignore r h' :
  reachable h expression ->
  stack expression = [root] ->
  _merge_in_element self root namespace ignore h = Ok (r, h') ->
  backreferences (snd r)
  = List.map (fun i => (i + total_capture_groups self)%Z) (backreferences root)
  /\ (namespace = [] ->
      erase (snd r)
      = erase (rewritten (total_capture_groups self) [] ignore root))
  /\ (namespace = [] ->
      ignore = false \/ occurs is_anchor root = false ->
      str_ (snd r) = str_ (shift_backreferences (total_capture_groups self) root)).
Proof.
  intros Hr Est E.
  assert (Hw : well_formed h root = true).
  { apply reachable_well_formed in Hr. rewrite Est in Hr.
    inversion Hr; assumption. }
  destruct (_merge_in_element_rewrites _ _ _ _ _ _ _ Hw E) as (He & _).
  split; [|split].
  - rewrite <- backreferences_erase, He, backreferences_erase.
    apply backreferences_rewritten.
  - intros ->. exact He.
  - intros -> Ha. apply erase_str. rewrite He, rewritten_shift by exact Ha.
    reflexivity.
Qed.

Lemma merge_shifts_backreferences_witness :
  _merge_in_element capture_host backreference_root [] true 14
  = Ok (merged_source, 19)
  /\ backreferences (snd merged_source) = [2%Z]
  /\ str_ (snd merged_source) = lit "(.{2})\2".
Proof.
  assert (E : _merge_in_element capture_host backreference_root [] true 14
              = Ok (merged_source, 19)) by (vm_compute; reflexivity).
  split; [exact E|].
  destruct (merge_shifts_backreferences 14 capture_host backreference_source
              backreference_root [] true merged_source 19
              reachable_backreference_source eq_refl E) as (H1 & _ & H3).
  split.
  - rewrite H1. reflexivity.
  - rewrite H3; [reflexivity|reflexivity|right; reflexivity].
Defined.

Lemma merge_rewrites_reachable h self expression root ignore r h' :
  reachable h expression ->
  stack expression = [root] ->
  _merge_in_element self root [] ignore h = Ok (r, h') ->
  (match snd r with ContainsChildren _ k _ => k = Root | _ => False end)
  /\ (ignore = false \/ occurs is_anchor root = false ->
      str_ (snd r) = str_ (shift_backreferences (total_capture_groups self) root)).
Proof.
  intros Hr Est E.
  pose proof (reachable_Inv _ _ Hr) as [(root0 & rest & Es & Hroot) _ _ _].
  rewrite Est in Es. inversion Es; subst root0 rest. clear Es.
  assert (Hw : well_formed h root = true).
  { apply reachable_well_formed in Hr. rewrite Est in Hr.
    inversion Hr; assumption. }
  destruct (_merge_in_element_rewrites _ _ _ _ _ _ _ Hw E) as (He & _).
  split.
  - destruct root as [| |i [] cs]; try contradiction.
    destruct (snd r) as [| |i0 k0 cs0]; simpl in He; try discriminate.
    inversion He. reflexivity.
  - intros Ha. apply erase_str. rewrite He, rewritten_shift by exact Ha.
    reflexivity.
Qed.

(** On a host without open containers, the merged tree is spliced as one
    [Subexpression] node after the children of the root of the host. *)
Lemma subexpression_splices
    h self expression i cs root namespace ignore_flags ignore self' h' :
  stack self = [ContainsChildren i Root cs] ->
  stack expression = [root] ->
  subexpression expression namespace ignore_flags ignore self h = Ok (self', h') ->
  exists r h1 children i' j,
    _merge_in_element self root namespace ignore h = Ok (r, h1) /\
    children_of (snd r) = Ok children /\
    stack self'
    = [ContainsChildren i' Root (cs ++ [ContainsChildren j Subexpression children])].
Proof.
  intros Hs He E. unfold subexpression in E. rewrite He in E. simpl in E.
  apply bind_Ok in E. destruct E as (root' & h1 & Eb & E).
  apply ret_Ok in Eb. destruct Eb as [-> ->].
  apply bind_Ok in E. destruct E as (r & h2 & Em & E).
  pose proof (_merge_in_element_names _ _ _ _ _ _ _ Em) as [Hn _].
  apply bind_Ok in E. destruct E as (merged & h3 & Ef & E).
  assert (Hm : stack merged = stack self).
  { destruct (negb ignore_flags).
    - destruct (_ || _) in Ef; [discriminate|].
      apply ret_Ok in Ef. destruct Ef as [-> ->].
      destruct (f_global expression); [reflexivity|].
      destruct (f_dotall expression); [reflexivity|].
      destruct (f_multiline expression); [reflexivity|].
      destruct (f_ignorecase expression); [reflexivity|].
      apply only_names_stack. exact Hn.
    - apply ret_Ok in Ef. destruct Ef as [-> ->].
      apply only_names_stack. exact Hn. }
  apply bind_Ok in E. destruct E as (children & h4 & Ec & E).
  apply lift_Ok in Ec. destruct Ec as [Ec ->].
  apply bind_Ok in E. destruct E as (sub & h5 & Es & E).
  apply new_ContainsChildren_Ok in Es. destruct Es as (-> & -> & _).
  apply bind_Ok in E. destruct E as (pushed & h6 & Ep & E).
  unfold _push in Ep. rewrite Hm, Hs in Ep. simpl in Ep.
  apply ret_Ok in Ep. destruct Ep as [-> ->].
  unfold end_ in E. simpl in E.
  apply ret_Ok in E. destruct E as [-> ->].
  exists r, h2, children, (S h3), h3. split; [exact Em|]. split; [exact Ec|].
  reflexivity.
Qed.

(** Then, without a namespace and without anchors to ignore, the pattern of
    the result is the pattern of the host followed by the pattern of the
    source with its backreferences shifted. *)
Lemma subexpression_pattern
    h self expression i cs root ignore_flags ignore self' h' :
  reachable h expression ->
  stack self = [ContainsChildren i Root cs] ->
  stack expression = [root] ->
  ignore = false \/ occurs is_anchor root = false ->
  subexpression expression [] ignore_flags ignore self h = Ok (self', h') ->
  __str__ self'
  = Ok (str_ (ContainsChildren i Root cs)
        ++ str_ (shift_backreferences (total_capture_groups self) root)).
Proof.
  intros Hr Hs He Ha E.
  destruct (subexpression_splices _ _ _ _ _ _ _ _ _ _ _ Hs He E)
    as (r & h1 & children & i' & j & Em & Ec & Est).
  destruct (merge_rewrites_reachable _ _ _ _ _ _ _ Hr He Em) as (Hk & Hstr).
  unfold __str__. rewrite Est. simpl bottom. simpl rbind. f_equal.
  rewrite <- (Hstr Ha).
  destruct (snd r) as [| |i0 k0 cs0]; try discriminate.
  simpl in Hk. inversion Ec; subst.
  simpl. rewrite map_app, concat_app. simpl. rewrite app_nil_r. reflexivity.
Qed.

(** * Further properties *)

#[local] Set Warnings "-clear-no-such-hyp".

(** ** Escaping *)

Lemma backslash_special : mem 92 SPECIAL_CHARS = true.
Proof. reflexivity. Qed.

Lemma translate_cons c s :
  translate (c :: s)
  = (if mem c SPECIAL_CHARS then [92%Z; c] else [c]) ++ translate s.
Proof. unfold translate. simpl. destruct (mem c SPECIAL_CHARS); reflexivity. Qed.

Lemma translate_app a b : translate (a ++ b) = translate a ++ translate b.
Proof. unfold translate. apply flat_map_app. Qed.

(** X1.  Escaping loses nothing: two literal strings with the same
    escaped text are the same string, so two different [String] nodes
    never render alike. *)
Theorem translate_injective s1 s2 :
  str_ (Leaf 0 (String s1)) = str_ (Leaf 0 (String s2)) -> s1 = s2.
Proof.
  simpl. revert s2. induction s1 as [|c1 s1 IH]; intros [|c2 s2].
  - reflexivity.
  - rewrite translate_cons. destruct (mem c2 SPECIAL_CHARS); discriminate.
  - rewrite translate_cons. destruct (mem c1 SPECIAL_CHARS); discriminate.
  - rewrite !translate_cons.
    destruct (mem c1 SPECIAL_CHARS) eqn:E1, (mem c2 SPECIAL_CHARS) eqn:E2;
      simpl; intros H; inversion H; subst.
    + f_equal. apply IH. assumption.
    + rewrite backslash_special in E2. discriminate.
    + rewrite backslash_special in E1. discriminate.
    + f_equal. apply IH. assumption.
Qed.

Lemma translate_injective_witness : lit "a.b" = lit "a.b".
Proof. apply (translate_injective (lit "a.b") (lit "a.b")). reflexivity. Defined.

(** ** Appending a leaf *)

Lemma push_leaf_frame l self h self' h' :
  push_leaf l self h = Ok (self', h') ->
  exists s, self' = _replace self (stack_is s).
Proof.
  unfold push_leaf. intros E.
  apply bind_Ok in E. destruct E as (e & h1 & _ & E).
  eapply _push_frame. exact E.
Qed.

Lemma push_container_frame k self h self' h' :
  push_container k self h = Ok (self', h') ->
  exists s, self' = _replace self (stack_is s).
Proof.
  unfold push_container. intros E.
  apply bind_Ok in E. destruct E as (e & h1 & _ & E).
  eapply _push_frame. exact E.
Qed.

Lemma quantify_frame q self h self' h' :
  quantify q self h = Ok (self', h') ->
  exists s, self' = _replace self (stack_is s).
Proof.
  unfold quantify, _quantify. intros E.
  apply bind_Ok in E. destruct E as (e & h1 & _ & E).
  apply bind_Ok in E. destruct E as (current & h2 & _ & E).
  destruct (isinstance_Quantifier current); [discriminate|].
  eapply _push_frame. exact E.
Qed.

(** X2.  In a reachable state, a method that only appends a leaf
    ([any_char], [digit], [string], [char], [range], [hex_char], ...)
    succeeds exactly when the class of the leaf accepts its arguments: the
    state of the builder never makes it fail.  The result differs from the
    state before in the stack only. *)
Theorem push_leaf_succeeds_iff h self l :
  reachable h self ->
  ((exists self' h', push_leaf l self h = Ok (self', h'))
   <-> LeafT_post_init l = Ok tt)
  /\ (forall self' h', push_leaf l self h = Ok (self', h') ->
      self' = _replace self (stack_is (stack self'))).
Proof.
  intros Hr. apply reachable_Inv in Hr. split; [split|].
  - intros (self' & h' & E). unfold push_leaf in E.
    apply bind_Ok in E. destruct E as (e & h1 & En & _).
    apply new_Leaf_Ok in En. apply En.
  - intros Hl. unfold push_leaf.
    rewrite (bind_eq _ _ _ _ _ (new_Leaf_eq l h Hl)).
    apply _push_succeeds. exact Hr.
  - intros self' h' E. apply push_leaf_frame in E. destruct E as (s & ->).
    reflexivity.
Qed.

Lemma push_leaf_succeeds_iff_witness :
  (exists self' h', push_leaf (String (lit "ab")) open_group 3 = Ok (self', h'))
  /\ ~ (exists self' h', push_leaf (String []) open_group 3 = Ok (self', h')).
Proof.
  destruct (push_leaf_succeeds_iff 3 open_group (String (lit "ab"))
              reachable_open_group) as [H1 _].
  destruct (push_leaf_succeeds_iff 3 open_group (String [])
              reachable_open_group) as [H2 _].
  split.
  - apply H1. reflexivity.
  - intros H. apply H2 in H. discriminate H.
Defined.

Lemma code_point_CharT_str c :
  match code_point c with
  | Some a => CharT_str c = Ok [a]
  | None => forall lo, CharT_str c = Ok lo -> length lo <> 1
  end.
Proof.
  destruct c as [n|[|a [|a' s]]]; simpl; unfold chr.
  - destruct ((0 <=? n)%Z && (n <? 1114112)%Z); [reflexivity|].
    intros lo. destruct (_ && _); discriminate.
  - intros lo H. inversion H. discriminate.
  - reflexivity.
  - intros lo H. inversion H. discriminate.
Qed.

(** X3.  A range, or its negation, is accepted exactly when both ends are
    single characters (a string of length one, or an integer that is a
    code point) and the low end is strictly below the high end: an empty
    or inverted range is refused. *)
Theorem range_accepted_iff low high :
  (LeafT_post_init (Range low high) = Ok tt
   <-> exists a b, code_point low = Some a /\ code_point high = Some b /\ (a < b)%Z)
  /\ LeafT_post_init (AnythingButRange low high) = LeafT_post_init (Range low high).
Proof.
  split; [|reflexivity]. simpl. unfold Range_post_init.
  pose proof (code_point_CharT_str low) as Hl.
  pose proof (code_point_CharT_str high) as Hh.
  destruct (code_point low) as [a|], (code_point high) as [b|].
  - rewrite Hl, Hh. simpl. unfold check.
    destruct (b <=? a)%Z eqn:E; split.
    + discriminate.
    + intros (a' & b' & Ha & Hb & Hab). inversion Ha; inversion Hb; subst. lia.
    + intros _. exists a, b. repeat split. lia.
    + reflexivity.
  - split; [|intros (? & ? & _ & H & _); discriminate].
    rewrite Hl. simpl. destruct (CharT_str high) as [hi|e]; [|discriminate].
    specialize (Hh hi eq_refl). simpl. unfold check.
    destruct (length hi =? 1) eqn:El; [apply Nat.eqb_eq in El; contradiction|].
    discriminate.
  - split; [|intros (? & ? & H & _); discriminate].
    destruct (CharT_str low) as [lo|e]; [|discriminate].
    specialize (Hl lo eq_refl). simpl. rewrite Hh. simpl. unfold check.
    destruct (length lo =? 1) eqn:El; [apply Nat.eqb_eq in El; contradiction|].
    discriminate.
  - split; [|intros (? & ? & H & _); discriminate].
    destruct (CharT_str low) as [lo|e]; [|discriminate].
    specialize (Hl lo eq_refl). simpl.
    destruct (CharT_str high) as [hi|e]; [|discriminate].
    simpl. unfold check.
    destruct (length lo =? 1) eqn:El; [apply Nat.eqb_eq in El; contradiction|].
    discriminate.
Qed.

Lemma range_accepted_iff_witness :
  LeafT_post_init (Range (CStr (lit "a")) (CInt 122)) = Ok tt
  /\ LeafT_post_init (Range (CStr (lit "a")) (CStr (lit "a"))) <> Ok tt.
Proof.
  destruct (range_accepted_iff (CStr (lit "a")) (CInt 122)) as [[_ H1] _].
  destruct (range_accepted_iff (CStr (lit "a")) (CStr (lit "a"))) as [[H2 _] _].
  split.
  - apply H1. exists 97%Z, 122%Z. split; [reflexivity|]. split; reflexivity.
  - intros H. apply H2 in H. destruct H as (a & b & Ha & Hb & Hab).
    inversion Ha; inversion Hb; subst. lia.
Defined.

(** ** What a call leaves unchanged *)

(** The state that [subexpression] returns is, but for its stack, either
    the state that the merge of the tree returns or the target with one
    more flag. *)
Lemma subexpression_result expression namespace ignore_flags ignore self h self' h' :
  subexpression expression namespace ignore_flags ignore self h = Ok (self', h') ->
  exists merged s,
    self' = _replace merged (stack_is s) /\
    (only_names self merged
     \/ (ignore_flags = false /\
         (merged = _replace self (f_ignorecase_is true)
          \/ merged = _replace self (f_multiline_is true)
          \/ merged = _replace self (f_dotall_is true)
          \/ merged = _replace self (f_global_is true)))).
Proof.
  intros E. unfold subexpression in E.
  destruct (negb (length (stack expression) =? 1)).
  { apply bind_Ok in E. destruct E as (? & ? & _ & E). discriminate. }
  apply bind_Ok in E. destruct E as (root & h1 & _ & E).
  apply bind_Ok in E. destruct E as (r & h2 & Em & E).
  apply _merge_in_element_names in Em. destruct Em as [Hn _].
  apply bind_Ok in E. destruct E as (merged & h3 & Ef & E).
  apply bind_Ok in E. destruct E as (children & h4 & _ & E).
  apply bind_Ok in E. destruct E as (sub & h5 & _ & E).
  apply bind_Ok in E. destruct E as (pushed & h6 & Ep & E).
  apply _push_frame in Ep. destruct Ep as (s1 & ->).
  apply end_frame in E. destruct E as (s2 & ->).
  exists merged, s2. split; [destruct merged; reflexivity|].
  destruct ignore_flags; simpl in Ef.
  - apply ret_Ok in Ef. destruct Ef as [-> _]. left. exact Hn.
  - destruct (_ || _) in Ef; [discriminate|].
    apply ret_Ok in Ef. destruct Ef as [-> _].
    destruct (f_global expression); [right; auto|].
    destruct (f_dotall expression); [right; auto|].
    destruct (f_multiline expression); [right; auto|].
    destruct (f_ignorecase expression); [right; auto|].
    left. exact Hn.
Qed.

Ltac frame_of E :=
  first
    [ apply push_leaf_frame in E
    | apply push_container_frame in E
    | apply quantify_frame in E
    | apply end_frame in E ];
  let s := fresh "s" in destruct E as (s & ->).

(** Every call but [ascii], [locale] and [unicode] keeps the flags of the
    character encoding, and every call but [capture] keeps the count of
    capture groups, to which [capture] adds one. *)
Lemma step_keeps o self h self' h' :
  step o self h = Ok (self', h') ->
  (chooses_encoding o = false -> encoding self' = encoding self)
  /\ total_capture_groups self'
     = (total_capture_groups self + count_captures [o])%Z
  /\ check_simple_start_and_end self' = check_simple_start_and_end self.
Proof.
  intros E.
  destruct o; simpl in E;
    try (apply ret_Ok in E; destruct E as [-> _];
         split; [intros C; try discriminate C; reflexivity|];
         split; [simpl; lia|reflexivity]);
    try (frame_of E; split; [reflexivity|split; [simpl; lia|reflexivity]]).
  - unfold named_backreference in E. destruct (negb _); [discriminate|].
    frame_of E. split; [reflexivity|split; [simpl; lia|reflexivity]].
  - unfold backreference in E. destruct (negb _); [discriminate|].
    frame_of E. split; [reflexivity|split; [simpl; lia|reflexivity]].
  - unfold capture in E.
    apply bind_Ok in E. destruct E as (pushed & h1 & Ep & E).
    frame_of Ep. apply ret_Ok in E. destruct E as [-> _].
    split; [reflexivity|split; [simpl; lia|reflexivity]].
  - unfold named_capture in E. destruct (bool_decide _); [discriminate|].
    apply bind_Ok in E. destruct E as (pushed & h1 & Ep & E).
    frame_of Ep. apply ret_Ok in E. destruct E as [-> _].
    split; [reflexivity|split; [simpl; lia|reflexivity]].
  - unfold start_of_input in E.
    repeat match type of E with
           | (if ?b then _ else _) _ = _ => destruct b; [discriminate|]
           end.
    frame_of E. split; [reflexivity|split; [simpl; lia|reflexivity]].
  - unfold end_of_input in E. destruct (_ && _); [discriminate|].
    frame_of E. split; [reflexivity|split; [simpl; lia|reflexivity]].
  - apply subexpression_result in E.
    destruct E as (merged & s & -> & [Hn|[_ Hm]]).
    + rewrite Hn. split; [reflexivity|split; [simpl; lia|reflexivity]].
    + destruct Hm as [Hm|[Hm|[Hm|Hm]]]; rewrite Hm;
        (split; [reflexivity|split; [simpl; lia|reflexivity]]).
  - unfold ascii_backspace in E.
    apply bind_Ok in E. destruct E as (current & h1 & _ & E).
    destruct (negb _); [discriminate|].
    frame_of E. split; [reflexivity|split; [simpl; lia|reflexivity]].
Qed.

(** X4.  The count of capture groups of an expression is the number of
    calls of [capture] in the chain that built it: no other call changes
    it, whatever sub-expressions the chain merges. *)
Theorem capture_count ops : forall self h self' h',
  run ops self h = Ok (self', h') ->
  total_capture_groups self'
  = (total_capture_groups self + count_captures ops)%Z.
Proof.
  induction ops as [|o ops IH]; intros self h self' h' E; simpl in E.
  - apply ret_Ok in E. destruct E as [-> _]. simpl. lia.
  - apply bind_Ok in E. destruct E as (s & h1 & Es & E).
    apply step_keeps in Es. destruct Es as (_ & Ht & _).
    apply IH in E. rewrite E, Ht.
    destruct o; simpl; lia.
Qed.

Lemma capture_count_witness :
  total_capture_groups capture_host
  = (total_capture_groups (SuperExpressive0 false)
     + count_captures [O_capture; O_end])%Z.
Proof.
  apply (capture_count [O_capture; O_end] (SuperExpressive0 false) 12 capture_host 14).
  vm_compute. reflexivity.
Defined.

Lemma reachable_one_encoding h self : reachable h self -> one_encoding self.
Proof.
  induction 1 as [strict|h h' self _ IH _|h o self h' self' _ IH _ _ E].
  - right; right. reflexivity.
  - exact IH.
  - destruct (chooses_encoding o) eqn:C.
    + destruct o; try discriminate C; simpl in E;
        apply ret_Ok in E; destruct E as [-> _]; unfold one_encoding; simpl; auto.
    + apply step_keeps in E. destruct E as (He & _). specialize (He C).
      unfold encoding in He. unfold one_encoding. rewrite He. exact IH.
Qed.

(** X5.  Every reachable state has exactly one of the flags [f_ascii],
    [f_locale], [f_unicode] set, so the flags handed to [re] hold exactly
    one of [re.ASCII] (256), [re.LOCALE] (4) and [re.UNICODE] (32). *)
Theorem one_encoding_kept h self :
  reachable h self ->
  one_encoding self
  /\ (Z.land (_flags self) 292 = 256
      \/ Z.land (_flags self) 292 = 4
      \/ Z.land (_flags self) 292 = 32)%Z.
Proof.
  intros Hr. apply reachable_one_encoding in Hr. split; [exact Hr|].
  unfold one_encoding in Hr. unfold _flags.
  destruct Hr as [Hr|[Hr|Hr]]; injection Hr as Ha Hl Hu;
    rewrite Ha, Hl, Hu;
    destruct (f_ignorecase self), (f_multiline self), (f_dotall self);
    vm_compute; auto.
Qed.

Lemma one_encoding_kept_witness :
  one_encoding (ascii_ open_group)
  /\ (Z.land (_flags (ascii_ open_group)) 292 = 256
      \/ Z.land (_flags (ascii_ open_group)) 292 = 4
      \/ Z.land (_flags (ascii_ open_group)) 292 = 32)%Z.
Proof.
  apply (one_encoding_kept 3 (ascii_ open_group)).
  apply (reachable_step 3 O_ascii open_group).
  - apply reachable_open_group.
  - intros; discriminate.
  - reflexivity.
Defined.

(** ** The names that a merge records *)

Section Names.

Variables (namespace : str) (ignore : bool).

Lemma merge_children_names_recorded todo :
  Forall (fun c => forall m h r h',
            _merge_in_element m c namespace ignore h = Ok (r, h') ->
            names_recorded namespace c m r) todo ->
  forall merged element h r h',
    merge_children
      (fun merged child => _merge_in_element merged child namespace ignore)
      todo merged element h = Ok (r, h') ->
    named_groups (fst r)
    = list_to_set (List.map (app namespace) (flat_map capture_names todo))
      ∪ named_groups merged
    /\ Forall (fun n => n ∉ named_groups merged)
         (List.map (app namespace) (flat_map capture_names todo))
    /\ NoDup (List.map (app namespace) (flat_map capture_names todo)).
Proof.
  induction 1 as [|c rest Hc _ IH]; intros merged element h r h' E;
    cbn [merge_children] in E.
  - apply ret_Ok in E. destruct E as [-> _]. simpl.
    split; [set_solver|]. split; constructor.
  - apply bind_Ok in E. destruct E as (r1 & h1 & Em & E).
    apply bind_Ok in E. destruct E as (element' & h2 & _ & E).
    apply Hc in Em. destruct Em as (Hn1 & Hf1 & Hd1).
    apply IH in E. destruct E as (Hn2 & Hf2 & Hd2).
    simpl flat_map. rewrite map_app. rewrite Hn1 in Hn2, Hf2.
    split; [|split].
    + rewrite Hn2, list_to_set_app_L. set_solver.
    + apply Forall_app. split; [exact Hf1|].
      eapply Forall_impl; [exact Hf2|]. intros n Hn. set_solver.
    + apply NoDup_app. split; [exact Hd1|]. split; [|exact Hd2].
      intros n Hn1' Hn2'.
      rewrite Forall_forall in Hf2. apply (Hf2 n Hn2').
      apply elem_of_union_l, elem_of_list_to_set. exact Hn1'.
Qed.

Lemma _merge_in_element_names_recorded element :
  forall self h r h',
    _merge_in_element self element namespace ignore h = Ok (r, h') ->
    names_recorded namespace element self r.
Proof.
  induction element as [i l|i q|i q c IH|i k cs IH] using Element_ind';
    intros self h r h' E; unfold names_recorded.
  - assert (fst r = self).
    { destruct l; simpl in E;
        repeat match type of E with
               | (if ?b then _ else _) _ = _ => destruct b
               end;
        inv_M; reflexivity. }
    subst. simpl. split; [set_solver|]. split; constructor.
  - simpl in E. inv_M. simpl. split; [set_solver|]. split; constructor.
  - cbn [_merge_in_element] in E.
    apply bind_Ok in E. destruct E as (r1 & h1 & E1 & E).
    apply bind_Ok in E1. destruct E1 as (r0 & h0 & E0 & E1).
    apply ret_Ok in E1. destruct E1 as [-> ->].
    apply bind_Ok in E. destruct E as (element' & h2 & _ & E).
    apply ret_Ok in E. destruct E as [-> ->].
    apply IH in E0. exact E0.
  - cbn [_merge_in_element] in E.
    apply bind_Ok in E. destruct E as (r1 & h1 & E1 & E).
    eapply merge_children_names_recorded in E; [|exact IH].
    destruct E as (Hn & Hf & Hd).
    destruct k;
      try (apply ret_Ok in E1; destruct E1 as [-> _];
           simpl in *; auto).
    apply bind_Ok in E1. destruct E1 as (renamed & h0 & _ & E1).
    assert (Hname : (if truthy namespace then namespace ++ name else name)
                    = namespace ++ name).
    { unfold truthy. destruct (bool_decide (namespace = [])) eqn:B; [|reflexivity].
      apply bool_decide_eq_true in B. subst. reflexivity. }
    rewrite Hname in E1.
    destruct (bool_decide (namespace ++ name ∈ named_groups self)) eqn:B;
      [discriminate|].
    apply bool_decide_eq_false in B.
    apply ret_Ok in E1. destruct E1 as [-> _]. simpl in Hn, Hf. simpl.
    split; [|split].
    + rewrite Hn. set_solver.
    + constructor; [exact B|].
      eapply Forall_impl; [exact Hf|]. intros n Hn'. set_solver.
    + apply NoDup_cons. split; [|exact Hd].
      intros Hin. rewrite Forall_forall in Hf. apply (Hf _ Hin). set_solver.
Qed.

End Names.

(** What a successful call of [subexpression] has done: the expression had
    a root only, the root was merged, and the names of the result are the
    names of the merge unless one of the four flags of the expression was
    joined, which starts again from the names of the target. *)
Lemma subexpression_merged expression namespace ignore_flags ignore self h self' h' :
  subexpression expression namespace ignore_flags ignore self h = Ok (self', h') ->
  exists root r h1,
    stack expression = [root] /\
    _merge_in_element self root namespace ignore h = Ok (r, h1) /\
    (named_groups self' = named_groups (fst r)
     \/ named_groups self' = named_groups self) /\
    (ignore_flags = true
     \/ f_ignorecase expression || f_multiline expression
        || f_dotall expression || f_global expression = false ->
     named_groups self' = named_groups (fst r)).
Proof.
  intros E. unfold subexpression in E.
  destruct (stack expression) as [|root [|second rest]] eqn:Es; simpl in E.
  { apply bind_Ok in E. destruct E as (? & ? & E & _). discriminate. }
  2: { apply bind_Ok in E. destruct E as (? & ? & _ & E). discriminate. }
  apply bind_Ok in E. destruct E as (root' & h0 & Er & E).
  apply ret_Ok in Er. destruct Er as [-> ->].
  apply bind_Ok in E. destruct E as (r & h2 & Em & E).
  apply bind_Ok in E. destruct E as (merged & h3 & Ef & E).
  apply bind_Ok in E. destruct E as (children & h4 & _ & E).
  apply bind_Ok in E. destruct E as (sub & h5 & _ & E).
  apply bind_Ok in E. destruct E as (pushed & h6 & Ep & E).
  apply _push_frame in Ep. destruct Ep as (s1 & ->).
  apply end_frame in E. destruct E as (s2 & ->).
  exists root, r, h2. split; [reflexivity|]. split; [exact Em|].
  assert (Hn : forall m s, named_groups (_replace (_replace m (stack_is s1)) (stack_is s))
                      = named_groups m) by reflexivity.
  rewrite Hn.
  destruct ignore_flags; simpl in Ef.
  - apply ret_Ok in Ef. destruct Ef as [-> _]. split; [left; reflexivity|].
    intros _. reflexivity.
  - destruct (_ || _) in Ef; [discriminate|].
    apply ret_Ok in Ef. destruct Ef as [-> _].
    destruct (f_global expression);
      [split; [right; reflexivity|];
       intros [C|C]; [discriminate C|];
       rewrite !orb_true_r in C; discriminate C|].
    destruct (f_dotall expression);
      [split; [right; reflexivity|];
       intros [C|C]; [discriminate C|];
       rewrite ?orb_true_r in C; discriminate C|].
    destruct (f_multiline expression);
      [split; [right; reflexivity|];
       intros [C|C]; [discriminate C|];
       rewrite ?orb_true_r in C; discriminate C|].
    destruct (f_ignorecase expression);
      [split; [right; reflexivity|];
       intros [C|C]; [discriminate C|]; discriminate C|].
    split; [left; reflexivity|]. intros _. reflexivity.
Qed.

(** X6.  A merge accepts an expression only when the names of its named
    captures, each with the namespace in front, are pairwise distinct and
    new to the target: a clash of names stops the merge.  With the flags
    ignored, or none of the four flags set on the expression, the result
    knows exactly these names and those of the target. *)
Theorem subexpression_names expression namespace ignore_flags ignore self h self' h' :
  subexpression expression namespace ignore_flags ignore self h = Ok (self', h') ->
  exists root,
    stack expression = [root]
    /\ NoDup (List.map (app namespace) (capture_names root))
    /\ Forall (fun n => n ∉ named_groups self)
         (List.map (app namespace) (capture_names root))
    /\ (ignore_flags = true
        \/ f_ignorecase expression || f_multiline expression
           || f_dotall expression || f_global expression = false ->
        named_groups self'
        = list_to_set (List.map (app namespace) (capture_names root))
          ∪ named_groups self).
Proof.
  intros E. apply subexpression_merged in E.
  destruct E as (root & r & h1 & Es & Em & _ & Hn).
  apply _merge_in_element_names_recorded in Em. destruct Em as (Hr & Hf & Hd).
  exists root. split; [exact Es|]. split; [exact Hd|]. split; [exact Hf|].
  intros C. rewrite (Hn C). exact Hr.
Qed.

Lemma named_source_built :
  run [O_named_capture (lit "a"); O_digit; O_end] (SuperExpressive0 false) 1
  = Ok (named_source, 6).
Proof. vm_compute. reflexivity. Qed.

Lemma named_target_built :
  subexpression named_source (lit "n_") true true (SuperExpressive0 false) 6
  = Ok (named_target, 11).
Proof. vm_compute. reflexivity. Qed.

Lemma reachable_named_source : reachable 6 named_source.
Proof.
  eapply (reachable_run [O_named_capture (lit "a"); O_digit; O_end]).
  - apply (reachable_init false).
  - repeat constructor; intros; discriminate.
  - exact named_source_built.
Qed.

Lemma reachable_named_target : reachable 11 named_target.
Proof.
  apply (reachable_step 6 (O_subexpression named_source (lit "n_") true true)
           (SuperExpressive0 false)).
  - apply (reachable_later 1); [apply reachable_init|lia].
  - intros e ns igf ign H. injection H as <- _ _ _. exact reachable_named_source.
  - exact named_target_built.
Qed.

Lemma subexpression_names_witness :
  exists root,
    stack named_source = [root]
    /\ NoDup (List.map (app (lit "n_")) (capture_names root))
    /\ Forall (fun n => n ∉ named_groups (SuperExpressive0 false))
         (List.map (app (lit "n_")) (capture_names root))
    /\ (true = true
        \/ f_ignorecase named_source || f_multiline named_source
           || f_dotall named_source || f_global named_source = false ->
        named_groups named_target
        = list_to_set (List.map (app (lit "n_")) (capture_names root))
          ∪ named_groups (SuperExpressive0 false)).
Proof.
  apply (subexpression_names named_source (lit "n_") true true
           (SuperExpressive0 false) 6 named_target 11).
  exact named_target_built.
Defined.

(** ** Names are used once *)

Lemma step_names o self h self' h' :
  step o self h = Ok (self', h') -> named_groups self ⊆ named_groups self'.
Proof.
  intros E.
  destruct o; simpl in E;
    try (apply ret_Ok in E; destruct E as [-> _]; reflexivity);
    try (frame_of E; reflexivity).
  - unfold named_backreference in E. destruct (negb _); [discriminate|].
    frame_of E. reflexivity.
  - unfold backreference in E. destruct (negb _); [discriminate|].
    frame_of E. reflexivity.
  - unfold capture in E.
    apply bind_Ok in E. destruct E as (pushed & h1 & Ep & E).
    frame_of Ep. apply ret_Ok in E. destruct E as [-> _]. reflexivity.
  - unfold named_capture in E. destruct (bool_decide _); [discriminate|].
    apply bind_Ok in E. destruct E as (pushed & h1 & Ep & E).
    frame_of Ep. apply ret_Ok in E. destruct E as [-> _]. simpl. set_solver.
  - unfold start_of_input in E.
    repeat match type of E with
           | (if ?b then _ else _) _ = _ => destruct b; [discriminate|]
           end.
    frame_of E. reflexivity.
  - unfold end_of_input in E. destruct (_ && _); [discriminate|].
    frame_of E. reflexivity.
  - apply subexpression_merged in E.
    destruct E as (root & r & h1 & _ & Em & [Hn|Hn] & _); rewrite Hn;
      [|reflexivity].
    apply _merge_in_element_names_recorded in Em. destruct Em as (-> & _).
    set_solver.
  - unfold ascii_backspace in E.
    apply bind_Ok in E. destruct E as (current & h1 & _ & E).
    destruct (negb _); [discriminate|].
    frame_of E. reflexivity.
Qed.

Lemma run_names ops : forall self h self' h',
  run ops self h = Ok (self', h') -> named_groups self ⊆ named_groups self'.
Proof.
  induction ops as [|o ops IH]; intros self h self' h' E; simpl in E.
  - apply ret_Ok in E. destruct E as [-> _]. reflexivity.
  - apply bind_Ok in E. destruct E as (s & h1 & Es & E).
    apply step_names in Es. apply IH in E. set_solver.
Qed.

(** X7.  A name that the builder has recorded stays recorded through
    every chain of calls, and while it is recorded it cannot be given
    again: [named_capture] with it raises [ValueError], and no expression
    that has a named capture of that name, the namespace in front, can be
    merged.  This is about the names that are recorded: a merge that joins
    a flag records none of the names that it brings. *)
Theorem recorded_name_refused ops name self h self' h' :
  name ∈ named_groups self ->
  run ops self h = Ok (self', h') ->
  name ∈ named_groups self'
  /\ (forall h2, named_capture name self' h2 = Raise ValueError)
  /\ (forall expression namespace ignore_flags ignore root h2,
        stack expression = [root] ->
        In name (List.map (app namespace) (capture_names root)) ->
        is_Ok (subexpression expression namespace ignore_flags ignore self' h2)
        = false).
Proof.
  intros Hn E. apply run_names in E.
  assert (Hn' : name ∈ named_groups self') by set_solver.
  split; [exact Hn'|]. split.
  - intros h2. unfold named_capture.
    rewrite bool_decide_eq_true_2 by exact Hn'. reflexivity.
  - intros expression namespace ignore_flags ignore root h2 Es Hin.
    destruct (subexpression _ _ _ _ _ h2) as [[s h3]|e] eqn:Eq; [|reflexivity].
    exfalso. apply subexpression_merged in Eq.
    destruct Eq as (root' & r & h1 & Es' & Em & _).
    rewrite Es in Es'. injection Es' as <-.
    apply _merge_in_element_names_recorded in Em. destruct Em as (_ & Hf & _).
    rewrite Forall_forall in Hf. apply list_elem_of_In in Hin.
    exact (Hf name Hin Hn').
Qed.

Lemma recorded_name_refused_witness :
  lit "n_a" ∈ named_groups named_later
  /\ (forall h2, named_capture (lit "n_a") named_later h2 = Raise ValueError)
  /\ (forall expression namespace ignore_flags ignore root h2,
        stack expression = [root] ->
        In (lit "n_a") (List.map (app namespace) (capture_names root)) ->
        is_Ok (subexpression expression namespace ignore_flags ignore
                 named_later h2)
        = false).
Proof.
  apply (recorded_name_refused
           [O_digit; O_case_insensitive; O_group; O_word; O_end]
           (lit "n_a") named_target 11 named_later 18).
  - vm_compute. reflexivity.
  - vm_compute. reflexivity.
Defined.

(** Merging [named_source] a second time under the same namespace is
    refused, and so is a second [named_capture] of the name. *)
Example second_use_refused :
  is_Ok (subexpression named_source (lit "n_") true true named_later 18) = false
  /\ named_capture (lit "n_a") named_later 18 = Raise ValueError.
Proof. split; vm_compute; reflexivity. Qed.

(** ** Every node has passed the checks of its class *)

Lemma is_Ok_tt (r : result unit) : is_Ok r = true <-> r = Ok tt.
Proof. destruct r as [[]|e]; simpl; split; (reflexivity || discriminate). Qed.

Lemma forallb_valid_replace cs old new :
  forallb valid_tree cs = true -> valid_tree new = true ->
  forallb valid_tree (List.map (fun c => if is_ c old then new else c) cs) = true.
Proof.
  intros Hw Hn. apply forallb_forall. intros x Hx.
  apply in_map_iff in Hx. destruct Hx as (t & <- & Ht).
  destruct (is_ t old); [exact Hn|].
  rewrite forallb_forall in Hw. apply Hw. exact Ht.
Qed.

Lemma add_child_valid current element h new h1 :
  add_child current element h = Ok (new, h1) ->
  valid_tree current = true -> valid_tree element = true ->
  valid_tree new = true.
Proof.
  intros E Hc He.
  destruct current as [i l|i q [c|]|i k cs]; simpl in E; try discriminate.
  - apply new_ContainsChild_Ok in E. destruct E as (-> & _ & Hq).
    simpl. rewrite Hq, He. reflexivity.
  - apply new_ContainsChildren_Ok in E. destruct E as (-> & _ & Hk).
    simpl in *. apply andb_true_iff in Hc. destruct Hc as [_ Hc].
    rewrite Hk, forallb_app, Hc. simpl. rewrite He. reflexivity.
Qed.

Lemma ContainsChildren_replace_child_valid s old new h s' h1 :
  ContainsChildren_replace_child s old new h = Ok (s', h1) ->
  valid_tree s = true -> valid_tree new = true -> valid_tree s' = true.
Proof.
  intros E Hs Hn. destruct s as [i l|i q c|i k cs]; simpl in E; try discriminate.
  destruct (negb _); [discriminate|].
  apply new_ContainsChildren_Ok in E. destruct E as (-> & _ & Hk).
  simpl in *. apply andb_true_iff in Hs. destruct Hs as [_ Hs].
  rewrite Hk, forallb_valid_replace by assumption. reflexivity.
Qed.

Lemma replace_child_valid s previous replaced h s' h1 :
  replace_child s previous replaced h = Ok (s', h1) ->
  valid_tree s = true -> valid_tree replaced = true -> valid_tree s' = true.
Proof.
  intros E Hs Hr.
  destruct s as [i l|i q c|i k cs]; [simpl in E; discriminate| |].
  - simpl in E. destruct (negb _); [discriminate|].
    apply new_ContainsChild_Ok in E. destruct E as (-> & _ & Hq).
    simpl. rewrite Hq, Hr. reflexivity.
  - exact (ContainsChildren_replace_child_valid _ _ _ _ _ _ E Hs Hr).
Qed.

Lemma propagate_valid ancestors : forall previous replaced acc h out h',
  propagate ancestors previous replaced acc h = Ok (out, h') ->
  Forall (fun s => valid_tree s = true) ancestors ->
  valid_tree replaced = true ->
  Forall (fun s => valid_tree s = true) acc ->
  Forall (fun s => valid_tree s = true) out.
Proof.
  induction ancestors as [|s rest IH];
    intros previous replaced acc h out h' E Hanc Hr Hacc; simpl in E.
  - apply ret_Ok in E. destruct E as [-> _]. exact Hacc.
  - apply bind_Ok in E. destruct E as (s' & h1 & Er & E).
    inversion Hanc as [|? ? Hs Hrest]; subst.
    pose proof (replace_child_valid _ _ _ _ _ _ Er Hs Hr) as Hs'.
    apply IH in E; try assumption.
    apply Forall_app. split; [exact Hacc|]. constructor; [exact Hs'|constructor].
Qed.

Lemma _push_valid self element h self' h' :
  _push self element h = Ok (self', h') ->
  Forall (fun s => valid_tree s = true) (stack self) ->
  valid_tree element = true ->
  Forall (fun s => valid_tree s = true) (stack self').
Proof.
  intros E Hst He. unfold _push in E.
  apply bind_Ok in E. destruct E as (current & h0 & Et & E).
  apply lift_Ok in Et. destruct Et as [Et ->].
  apply bind_Ok in E. destruct E as (new & h1 & Ea & E).
  apply bind_Ok in E. destruct E as (new_stack & h2 & Ep & E).
  apply top_Ok in Et. destruct Et as (ancestors & Erev).
  assert (Hrev : Forall (fun s => valid_tree s = true) (current :: ancestors)).
  { rewrite <- Erev. apply Forall_rev. exact Hst. }
  inversion Hrev as [|? ? Hc Hanc]; subst.
  pose proof (add_child_valid _ _ _ _ _ Ea Hc He) as Hn.
  rewrite rev_removelast, Erev in Ep. simpl tl in Ep.
  apply propagate_valid in Ep; try assumption; [|constructor].
  assert (Hall : Forall (fun s => valid_tree s = true)
                   ((rev new_stack ++ [new]) ++ [element])).
  { apply Forall_app. split; [apply Forall_app; split|].
    - apply Forall_rev. exact Ep.
    - constructor; [exact Hn|constructor].
    - constructor; [exact He|constructor]. }
  destruct (_ || _); apply ret_Ok in E; destruct E as [-> _];
    rewrite stack_replace_stack.
  - exact Hall.
  - eapply Forall_incl; [apply pop_incl|].
    apply Forall_app in Hall. apply Hall.
Qed.

Lemma end_valid self h self' h' :
  end_ self h = Ok (self', h') ->
  Forall (fun s => valid_tree s = true) (stack self) ->
  Forall (fun s => valid_tree s = true) (stack self').
Proof.
  unfold end_. intros E Hst. destruct (_ <=? _); [discriminate|].
  apply bind_Ok in E. destruct E as (current & h1 & _ & E).
  destruct (negb _); [discriminate|].
  apply ret_Ok in E. destruct E as [-> _].
  rewrite stack_replace_stack.
  eapply Forall_incl; [|exact Hst].
  eapply incl_tran; [apply pop_incl|apply removelast_incl].
Qed.

Lemma push_leaf_valid l self h self' h' :
  push_leaf l self h = Ok (self', h') ->
  Forall (fun s => valid_tree s = true) (stack self) ->
  Forall (fun s => valid_tree s = true) (stack self').
Proof.
  unfold push_leaf. intros E Hst.
  apply bind_Ok in E. destruct E as (e & h1 & En & E).
  apply new_Leaf_Ok in En. destruct En as (-> & _ & Hl).
  eapply _push_valid; [exact E|exact Hst|]. simpl. rewrite Hl. reflexivity.
Qed.

Lemma push_container_valid k self h self' h' :
  push_container k self h = Ok (self', h') ->
  Forall (fun s => valid_tree s = true) (stack self) ->
  Forall (fun s => valid_tree s = true) (stack self').
Proof.
  unfold push_container. intros E Hst.
  apply bind_Ok in E. destruct E as (e & h1 & En & E).
  apply new_ContainsChildren_Ok in En. destruct En as (-> & _ & Hk).
  eapply _push_valid; [exact E|exact Hst|]. simpl. rewrite Hk. reflexivity.
Qed.

Lemma quantify_valid q self h self' h' :
  quantify q self h = Ok (self', h') ->
  Forall (fun s => valid_tree s = true) (stack self) ->
  Forall (fun s => valid_tree s = true) (stack self').
Proof.
  unfold quantify, _quantify. intros E Hst.
  apply bind_Ok in E. destruct E as (e & h1 & En & E).
  apply new_ContainsChild_Ok in En. destruct En as (-> & _ & Hq).
  apply bind_Ok in E. destruct E as (current & h2 & _ & E).
  destruct (isinstance_Quantifier current); [discriminate|].
  eapply _push_valid; [exact E|exact Hst|]. simpl. rewrite Hq. reflexivity.
Qed.

Section Valid.

Variables (namespace : str) (ignore : bool).

Lemma merge_children_valid todo :
  Forall (fun c => forall m h r h',
            valid_tree c = true ->
            _merge_in_element m c namespace ignore h = Ok (r, h') ->
            valid_tree (snd r) = true) todo ->
  forall merged element h r h',
    Forall (fun c => valid_tree c = true) todo ->
    valid_tree element = true ->
    merge_children
      (fun merged child => _merge_in_element merged child namespace ignore)
      todo merged element h = Ok (r, h') ->
    valid_tree (snd r) = true.
Proof.
  induction 1 as [|c rest Hc _ IH]; intros merged element h r h' Hv He E;
    cbn [merge_children] in E.
  - apply ret_Ok in E. destruct E as [-> _]. exact He.
  - apply bind_Ok in E. destruct E as (r1 & h1 & Em & E).
    apply bind_Ok in E. destruct E as (element' & h2 & Er & E).
    inversion Hv as [|? ? Hvc Hvr]; subst.
    apply Hc in Em; [|exact Hvc].
    eapply IH; [exact Hvr| |exact E].
    eapply ContainsChildren_replace_child_valid; eassumption.
Qed.

Lemma _merge_in_element_valid element :
  forall self h r h',
    valid_tree element = true ->
    _merge_in_element self element namespace ignore h = Ok (r, h') ->
    valid_tree (snd r) = true.
Proof.
  induction element as [i l|i q|i q c IH|i k cs IH] using Element_ind';
    intros self h r h' Hv E.
  - destruct l; simpl in E;
      repeat match type of E with
             | (if ?b then _ else _) _ = _ => destruct b
             end;
      try (apply ret_Ok in E; destruct E as [-> _]; exact Hv);
      try discriminate;
      apply bind_Ok in E; destruct E as (e & h1 & En & E);
      apply new_Leaf_Ok in En; destruct En as (-> & _ & Hl);
      apply ret_Ok in E; destruct E as [-> _];
      cbn [snd valid_tree]; rewrite Hl; reflexivity.
  - simpl in E. inv_M. simpl in *.
    match goal with
    | H : new_ContainsChild _ _ _ = Ok _ |- _ =>
        apply new_ContainsChild_Ok in H; destruct H as (-> & _ & Hq)
    end.
    simpl. rewrite Hq. reflexivity.
  - cbn [_merge_in_element] in E.
    apply bind_Ok in E. destruct E as (r1 & h1 & E1 & E).
    apply bind_Ok in E1. destruct E1 as (r0 & h0 & E0 & E1).
    apply ret_Ok in E1. destruct E1 as [-> ->].
    apply bind_Ok in E. destruct E as (element' & h2 & Er & E).
    apply ret_Ok in E. destruct E as [-> ->].
    simpl in Hv. apply andb_true_iff in Hv. destruct Hv as [_ Hv].
    apply IH in E0; [|exact Hv].
    simpl in Er. destruct (negb _) in Er; [discriminate|].
    apply new_ContainsChild_Ok in Er. destruct Er as (-> & _ & Hq).
    simpl. rewrite Hq. exact E0.
  - cbn [_merge_in_element] in E.
    apply bind_Ok in E. destruct E as (r1 & h1 & E1 & E).
    assert (Hcs : Forall (fun c => valid_tree c = true) cs).
    { simpl in Hv. apply andb_true_iff in Hv. destruct Hv as [_ Hv].
      apply Forall_forall. intros x Hx. rewrite forallb_forall in Hv.
      apply Hv. apply list_elem_of_In. exact Hx. }
    eapply merge_children_valid in E; [exact E| |exact Hcs|].
    + eapply Forall_impl; [exact IH|]. intros c Hc m h0 r0 h0' Hvc Em.
      eapply Hc; eassumption.
    + destruct k;
        try (apply ret_Ok in E1; destruct E1 as [-> _]; exact Hv).
      apply bind_Ok in E1. destruct E1 as (renamed & h0 & En & E1).
      destruct (bool_decide _) in E1; [discriminate|].
      apply ret_Ok in E1. destruct E1 as [-> _]. simpl snd.
      destruct (truthy namespace).
      * apply new_ContainsChildren_Ok in En. destruct En as (-> & _ & Hk).
        simpl in *. rewrite Hk.
        apply andb_true_iff in Hv. destruct Hv as [_ Hv]. exact Hv.
      * apply ret_Ok in En. destruct En as [-> _]. exact Hv.
Qed.

End Valid.

(** The steps of a successful call of [subexpression]. *)
Lemma subexpression_Ok expression namespace ignore_flags ignore self h self' h' :
  subexpression expression namespace ignore_flags ignore self h = Ok (self', h') ->
  exists root r h1 merged i k children pushed h2,
    stack expression = [root] /\
    _merge_in_element self root namespace ignore h = Ok (r, h1) /\
    snd r = ContainsChildren i k children /\
    stack merged = stack self /\
    _push merged (ContainsChildren h1 Subexpression children) (S h1)
    = Ok (pushed, h2) /\
    end_ pushed h2 = Ok (self', h').
Proof.
  intros E. unfold subexpression in E.
  destruct (stack expression) as [|root [|second rest]] eqn:Es; simpl in E.
  { apply bind_Ok in E. destruct E as (? & ? & E & _). discriminate. }
  2: { apply bind_Ok in E. destruct E as (? & ? & _ & E). discriminate. }
  apply bind_Ok in E. destruct E as (root' & h0 & Er & E).
  apply ret_Ok in Er. destruct Er as [-> ->].
  apply bind_Ok in E. destruct E as (r & h2 & Em & E).
  pose proof (_merge_in_element_names _ _ _ _ _ _ _ Em) as [Hn _].
  apply bind_Ok in E. destruct E as (merged & h3 & Ef & E).
  assert (Hm : stack merged = stack self /\ h3 = h2).
  { destruct (negb ignore_flags).
    - destruct (_ || _) in Ef; [discriminate|].
      apply ret_Ok in Ef. destruct Ef as [-> ->]. split; [|reflexivity].
      destruct (f_global expression); [reflexivity|].
      destruct (f_dotall expression); [reflexivity|].
      destruct (f_multiline expression); [reflexivity|].
      destruct (f_ignorecase expression); [reflexivity|].
      apply only_names_stack. exact Hn.
    - apply ret_Ok in Ef. destruct Ef as [-> ->]. split; [|reflexivity].
      apply only_names_stack. exact Hn. }
  destruct Hm as [Hm ->].
  apply bind_Ok in E. destruct E as (children & h4 & Ec & E).
  apply lift_Ok in Ec. destruct Ec as [Ec ->].
  apply bind_Ok in E. destruct E as (sub & h5 & Esub & E).
  apply new_ContainsChildren_Ok in Esub. destruct Esub as (-> & -> & _).
  apply bind_Ok in E. destruct E as (pushed & h6 & Ep & E).
  destruct (snd r) as [| |i k cs] eqn:Esnd; try discriminate.
  injection Ec as ->.
  exists root, r, h2, merged, i, k, children, pushed, h6.
  repeat split; assumption.
Qed.

Lemma subexpression_valid expression namespace ignore_flags ignore self h self' h' :
  subexpression expression namespace ignore_flags ignore self h = Ok (self', h') ->
  Forall (fun s => valid_tree s = true) (stack self) ->
  Forall (fun s => valid_tree s = true) (stack expression) ->
  Forall (fun s => valid_tree s = true) (stack self').
Proof.
  intros E Hst Hex. apply subexpression_Ok in E.
  destruct E as (root & r & h1 & merged & i & k & children & pushed & h2
                 & Es & Em & Esnd & Hm & Ep & E).
  rewrite Es in Hex. inversion Hex as [|? ? Hroot _]; subst.
  apply _merge_in_element_valid in Em; [|exact Hroot].
  rewrite Esnd in Em. simpl in Em.
  apply andb_true_iff in Em. destruct Em as [_ Hc].
  eapply end_valid; [exact E|].
  eapply _push_valid; [exact Ep|rewrite Hm; exact Hst|].
  simpl. exact Hc.
Qed.

Lemma step_valid o self h self' h' :
  step o self h = Ok (self', h') ->
  Forall (fun s => valid_tree s = true) (stack self) ->
  (forall e ns igf ign, o = O_subexpression e ns igf ign ->
     Forall (fun s => valid_tree s = true) (stack e)) ->
  Forall (fun s => valid_tree s = true) (stack self').
Proof.
  intros E Hst Hop.
  destruct o; simpl in E;
    try (apply ret_Ok in E; destruct E as [-> _]; exact Hst);
    try (eapply push_leaf_valid; eassumption);
    try (eapply push_container_valid; eassumption);
    try (eapply quantify_valid; eassumption).
  - unfold named_backreference in E.
    destruct (negb _); [discriminate|]. eapply push_leaf_valid; eassumption.
  - unfold backreference in E.
    destruct (negb _); [discriminate|]. eapply push_leaf_valid; eassumption.
  - unfold capture in E.
    apply bind_Ok in E. destruct E as (pushed & h1 & Ep & E).
    apply push_container_valid in Ep; [|exact Hst].
    apply ret_Ok in E. destruct E as [-> _]. exact Ep.
  - unfold named_capture in E.
    destruct (bool_decide _); [discriminate|].
    apply bind_Ok in E. destruct E as (pushed & h1 & Ep & E).
    apply push_container_valid in Ep; [|exact Hst].
    apply ret_Ok in E. destruct E as [-> _]. exact Ep.
  - unfold start_of_input in E.
    repeat match type of E with
           | (if ?b then _ else _) _ = _ => destruct b; [discriminate|]
           end.
    eapply push_leaf_valid; eassumption.
  - unfold end_of_input in E.
    destruct (_ && _); [discriminate|]. eapply push_leaf_valid; eassumption.
  - eapply end_valid; eassumption.
  - eapply subexpression_valid; [eassumption|exact Hst|]. eapply Hop. reflexivity.
  - unfold ascii_backspace in E.
    apply bind_Ok in E. destruct E as (current & h1 & _ & E).
    destruct (negb _); [discriminate|]. eapply push_leaf_valid; eassumption.
Qed.

Section ValidNames.

Variables (namespace : str) (ignore : bool).

Lemma merge_children_names_valid todo :
  Forall (fun c => forall m h r h',
            valid_tree c = true ->
            _merge_in_element m c namespace ignore h = Ok (r, h') ->
            Forall (fun n => check_name (namespace ++ n) = Ok tt)
              (capture_names c)) todo ->
  forall merged element h r h',
    Forall (fun c => valid_tree c = true) todo ->
    merge_children
      (fun merged child => _merge_in_element merged child namespace ignore)
      todo merged element h = Ok (r, h') ->
    Forall (fun n => check_name (namespace ++ n) = Ok tt)
      (flat_map capture_names todo).
Proof.
  induction 1 as [|c rest Hc _ IH]; intros merged element h r h' Hv E;
    cbn [merge_children] in E.
  - constructor.
  - apply bind_Ok in E. destruct E as (r1 & h1 & Em & E).
    apply bind_Ok in E. destruct E as (element' & h2 & _ & E).
    inversion Hv as [|? ? Hvc Hvr]; subst.
    simpl. apply Forall_app. split.
    + eapply Hc; eassumption.
    + eapply IH; eassumption.
Qed.

Lemma _merge_in_element_names_valid element :
  forall self h r h',
    valid_tree element = true ->
    _merge_in_element self element namespace ignore h = Ok (r, h') ->
    Forall (fun n => check_name (namespace ++ n) = Ok tt)
      (capture_names element).
Proof.
  induction element as [i l|i q|i q c IH|i k cs IH] using Element_ind';
    intros self h r h' Hv E.
  - constructor.
  - constructor.
  - cbn [_merge_in_element] in E.
    apply bind_Ok in E. destruct E as (r1 & h1 & E1 & E).
    apply bind_Ok in E1. destruct E1 as (r0 & h0 & E0 & E1).
    simpl in Hv. apply andb_true_iff in Hv. destruct Hv as [_ Hv].
    simpl. eapply IH; eassumption.
  - cbn [_merge_in_element] in E.
    apply bind_Ok in E. destruct E as (r1 & h1 & E1 & E).
    simpl in Hv. apply andb_true_iff in Hv. destruct Hv as [Hk Hv].
    assert (Hcs : Forall (fun c => valid_tree c = true) cs).
    { apply Forall_forall. intros x Hx. rewrite forallb_forall in Hv.
      apply Hv. apply list_elem_of_In. exact Hx. }
    eapply merge_children_names_valid in E; [|exact IH|exact Hcs].
    simpl. apply Forall_app. split; [|exact E].
    destruct k; try constructor; [|constructor].
    apply bind_Ok in E1. destruct E1 as (renamed & h0 & En & _).
    unfold truthy in En. destruct (bool_decide (namespace = [])) eqn:B.
    + apply bool_decide_eq_true in B. rewrite B. simpl.
      apply is_Ok_tt. exact Hk.
    + simpl in En. apply new_ContainsChildren_Ok in En.
      destruct En as (_ & _ & Hn). exact Hn.
Qed.

End ValidNames.

Lemma step_names_valid o self h self' h' :
  step o self h = Ok (self', h') ->
  (forall n, n ∈ named_groups self -> check_name n = Ok tt) ->
  (forall e ns igf ign, o = O_subexpression e ns igf ign ->
     Forall (fun s => valid_tree s = true) (stack e)) ->
  forall n, n ∈ named_groups self' -> check_name n = Ok tt.
Proof.
  intros E Hst Hop.
  destruct o; simpl in E;
    try (apply ret_Ok in E; destruct E as [-> _]; exact Hst);
    try (frame_of E; exact Hst).
  - unfold named_backreference in E. destruct (negb _); [discriminate|].
    frame_of E. exact Hst.
  - unfold backreference in E. destruct (negb _); [discriminate|].
    frame_of E. exact Hst.
  - unfold capture in E.
    apply bind_Ok in E. destruct E as (pushed & h1 & Ep & E).
    frame_of Ep. apply ret_Ok in E. destruct E as [-> _]. exact Hst.
  - unfold named_capture in E. destruct (bool_decide _); [discriminate|].
    apply bind_Ok in E. destruct E as (pushed & h1 & Ep & E).
    pose proof Ep as Ep'. unfold push_container in Ep'.
    apply bind_Ok in Ep'. destruct Ep' as (e & h0 & En & _).
    apply new_ContainsChildren_Ok in En. destruct En as (_ & _ & Hk).
    frame_of Ep. apply ret_Ok in E. destruct E as [-> _].
    simpl. intros n Hn. apply elem_of_union in Hn. destruct Hn as [Hn|Hn].
    + apply elem_of_singleton in Hn. subst. exact Hk.
    + apply Hst. exact Hn.
  - unfold start_of_input in E.
    repeat match type of E with
           | (if ?b then _ else _) _ = _ => destruct b; [discriminate|]
           end.
    frame_of E. exact Hst.
  - unfold end_of_input in E. destruct (_ && _); [discriminate|].
    frame_of E. exact Hst.
  - specialize (Hop _ _ _ _ eq_refl).
    apply subexpression_merged in E.
    destruct E as (root & r & h1 & Es & Em & [Hn|Hn] & _); rewrite Hn;
      [|exact Hst].
    rewrite Es in Hop. inversion Hop as [|? ? Hroot _]; subst.
    pose proof (_merge_in_element_names_valid _ _ _ _ _ _ _ Hroot Em) as Hv.
    apply _merge_in_element_names_recorded in Em. destruct Em as (-> & _).
    intros n Hin. apply elem_of_union in Hin. destruct Hin as [Hin|Hin].
    + apply elem_of_list_to_set in Hin. apply list_elem_of_In in Hin.
      apply in_map_iff in Hin. destruct Hin as (x & <- & Hx).
      rewrite Forall_forall in Hv. apply Hv. apply list_elem_of_In. exact Hx.
    + apply Hst. exact Hin.
  - unfold ascii_backspace in E.
    apply bind_Ok in E. destruct E as (current & h1 & _ & E).
    destruct (negb _); [discriminate|].
    frame_of E. exact Hst.
Qed.

Lemma reachable_valid h self : reachable h self -> valid_state self.
Proof.
  induction 1 as [strict|h h' self _ IH Hle|h o self h' self' _ IH _ IHop E].
  - split; [constructor; [reflexivity|constructor]|].
    split; [intros n Hn; set_solver|simpl; lia].
  - exact IH.
  - destruct IH as (Ht & Hn & Hc).
    split; [|split].
    + eapply step_valid; [exact E|exact Ht|].
      intros e ns igf ign Ho. apply (IHop e ns igf ign Ho).
    + eapply step_names_valid; [exact E|exact Hn|].
      intros e ns igf ign Ho. apply (IHop e ns igf ign Ho).
    + apply step_keeps in E. destruct E as (_ & -> & _).
      destruct o; simpl; lia.
Qed.

(** X8.  Every builder that a chain of calls and merges can produce holds
    only nodes that have passed the checks of their classes, at every
    depth of every open tree; every name of a group that it records is a
    name that [NamedCapture] accepts, and its count of capture groups is
    not negative. *)
Theorem builder_valid h self :
  reachable h self ->
  Forall (fun e => valid_tree e = true) (stack self)
  /\ (forall n, n ∈ named_groups self -> check_name n = Ok tt)
  /\ (0 <= total_capture_groups self)%Z.
Proof. intros Hr. exact (reachable_valid h self Hr). Qed.

Lemma builder_valid_witness :
  Forall (fun e => valid_tree e = true) (stack named_target)
  /\ (forall n, n ∈ named_groups named_target -> check_name n = Ok tt)
  /\ (0 <= total_capture_groups named_target)%Z.
Proof. apply (builder_valid 11 named_target). exact reachable_named_target. Defined.

(** X9.  In a reachable state [named_backreference] succeeds exactly for
    the names that the builder has recorded: a recorded name is always one
    that [NamedBackReference] accepts, and nothing else in the state can
    make the call fail. *)
Theorem named_backreference_iff h self name :
  reachable h self ->
  (exists self' h', named_backreference name self h = Ok (self', h'))
  <-> name ∈ named_groups self.
Proof.
  intros Hr. unfold named_backreference.
  destruct (bool_decide (name ∈ named_groups self)) eqn:B; simpl.
  - apply bool_decide_eq_true in B. split; [intros _; exact B|]. intros _.
    destruct (reachable_valid h self Hr) as (_ & Hn & _).
    unfold push_leaf.
    rewrite (bind_eq _ _ _ _ _ (new_Leaf_eq (NamedBackReference name) h (Hn name B))).
    apply _push_succeeds. apply (reachable_Inv h). exact Hr.
  - apply bool_decide_eq_false in B. split.
    + intros (self' & h' & E). discriminate E.
    + intros Hin. contradiction.
Qed.

Lemma named_backreference_iff_witness :
  (exists self' h', named_backreference (lit "n_a") named_target 11 = Ok (self', h'))
  /\ ~ (exists self' h', named_backreference (lit "a") named_target 11 = Ok (self', h')).
Proof.
  destruct (named_backreference_iff 11 named_target (lit "n_a")
              reachable_named_target) as [_ H1].
  destruct (named_backreference_iff 11 named_target (lit "a")
              reachable_named_target) as [H2 _].
  split.
  - apply H1. vm_compute. reflexivity.
  - intros H. apply H2 in H. vm_compute in H. discriminate H.
Defined.

(** ** When a merge succeeds *)

Lemma only_names_check a b :
  only_names a b -> check_simple_start_and_end b = check_simple_start_and_end a.
Proof. intros H. rewrite H. reflexivity. Qed.

Lemma existsb_is_middle done x rest :
  existsb (fun c => is_ c x) (done ++ x :: rest) = true.
Proof.
  rewrite existsb_app. simpl. unfold is_ at 2. rewrite Nat.eqb_refl.
  rewrite orb_true_r. reflexivity.
Qed.

Lemma names_mergeable_app namespace l1 l2 m :
  names_mergeable namespace (l1 ++ l2) m ->
  names_mergeable namespace l1 m /\ names_mergeable namespace l2 m
  /\ (forall n, In n (List.map (app namespace) l1) ->
      ~ In n (List.map (app namespace) l2)).
Proof.
  intros [Hf Hd]. apply Forall_app in Hf. destruct Hf as [Hf1 Hf2].
  rewrite map_app in Hd. apply NoDup_app in Hd. destruct Hd as (Hd1 & Hx & Hd2).
  split; [split; assumption|]. split; [split; assumption|].
  intros n H1 H2. apply (Hx n); apply list_elem_of_In; assumption.
Qed.

Section Succeeds.

Variables (namespace : str) (ignore : bool).

Lemma merge_children_succeeds todo :
  Forall (fun c => forall m h,
            well_formed h c = true -> valid_tree c = true ->
            (0 <= total_capture_groups m)%Z ->
            ignore = true \/ check_simple_start_and_end m = false ->
            names_mergeable namespace (capture_names c) m ->
            exists r h', _merge_in_element m c namespace ignore h = Ok (r, h'))
    todo ->
  forall done merged i k h,
    Container_post_init k = Ok tt ->
    distinct (List.map oid (done ++ todo)) = true ->
    forallb (well_formed h) (done ++ todo) = true ->
    Forall (fun c => valid_tree c = true) todo ->
    (0 <= total_capture_groups merged)%Z ->
    ignore = true \/ check_simple_start_and_end merged = false ->
    names_mergeable namespace (flat_map capture_names todo) merged ->
    exists r h',
      merge_children
        (fun merged child => _merge_in_element merged child namespace ignore)
        todo merged (ContainsChildren i k (done ++ todo)) h = Ok (r, h').
Proof.
  induction 1 as [|c rest Hc _ IH];
    intros done merged i k h Hk Hd Hw Hv Ht Hs Hn; cbn [merge_children].
  - eexists _, _. reflexivity.
  - inversion Hv as [|? ? Hvc Hvr]; subst.
    simpl in Hn. apply names_mergeable_app in Hn. destruct Hn as (Hnc & Hnr & Hx).
    rewrite forallb_app in Hw. apply andb_true_iff in Hw. destruct Hw as [Hwd Hw].
    simpl in Hw. apply andb_true_iff in Hw. destruct Hw as [Hwc Hwr].
    rewrite map_app in Hd. simpl in Hd.
    apply distinct_middle in Hd. destruct Hd as (Hd1 & Hd2 & Hd3).
    destruct (Hc merged h Hwc Hvc Ht Hs Hnc) as (r1 & h1 & Em).
    rewrite (bind_eq _ _ _ _ _ Em).
    pose proof (_merge_in_element_names _ _ _ _ _ _ _ Em) as [Hnames _].
    pose proof (_merge_in_element_names_recorded _ _ _ _ _ _ _ Em) as (Hrec & _).
    destruct (_merge_in_element_rewrites _ _ _ _ _ _ _ Hwc Em)
      as (_ & Ho & Hle & Hw1).
    assert (Er : ContainsChildren_replace_child
                   (ContainsChildren i k (done ++ c :: rest)) c (snd r1) h1
                 = Ok (ContainsChildren h1 k (done ++ snd r1 :: rest), S h1)).
    { unfold ContainsChildren_replace_child.
      rewrite replace_middle by (apply not_In_oid; assumption).
      rewrite existsb_is_middle. simpl.
      apply new_ContainsChildren_eq. exact Hk. }
    rewrite (bind_eq _ _ _ _ _ Er).
    change (done ++ snd r1 :: rest) with (done ++ [snd r1] ++ rest).
    rewrite app_assoc.
    apply IH.
    + exact Hk.
    + rewrite <- app_assoc, map_app. simpl. apply distinct_middle.
      split; [|split; [|exact Hd3]].
      * destruct Ho as [->|Ho]; [exact Hd1|]. eapply below_not_In; eassumption.
      * destruct Ho as [->|Ho]; [exact Hd2|]. eapply below_not_In; eassumption.
    + rewrite <- app_assoc, forallb_app. simpl.
      rewrite (forallb_well_formed_mono h (S h1)) by (lia || assumption).
      rewrite (forallb_well_formed_mono h (S h1) rest) by (lia || assumption).
      rewrite (well_formed_mono h1 (S h1)) by (lia || assumption).
      reflexivity.
    + exact Hvr.
    + rewrite (only_names_total _ _ Hnames). exact Ht.
    + rewrite (only_names_check _ _ Hnames). exact Hs.
    + destruct Hnr as [Hf Hdr]. split; [|exact Hdr].
      apply Forall_forall. intros n Hin. rewrite Forall_forall in Hf.
      destruct (Hf n Hin) as [Hcn Hnew]. split; [exact Hcn|].
      rewrite Hrec. intros Hu. apply elem_of_union in Hu. destruct Hu as [Hu|Hu].
      * apply elem_of_list_to_set in Hu. apply list_elem_of_In in Hu.
        apply (Hx _ Hu). apply in_map. apply list_elem_of_In. exact Hin.
      * exact (Hnew Hu).
Qed.

Lemma _merge_in_element_succeeds element :
  forall self h,
    well_formed h element = true -> valid_tree element = true ->
    (0 <= total_capture_groups self)%Z ->
    ignore = true \/ check_simple_start_and_end self = false ->
    names_mergeable namespace (capture_names element) self ->
    exists r h', _merge_in_element self element namespace ignore h = Ok (r, h').
Proof.
  induction element as [i l|i q|i q c IH|i k cs IH] using Element_ind';
    intros self h Hw Hv Ht Hs Hn.
  - destruct l; simpl; try (eexists _, _; reflexivity).
    + destruct ignore; [eexists _, _; reflexivity|].
      destruct Hs as [Hs|Hs]; [discriminate|].
      rewrite Hs, !andb_false_r. eexists _, _; reflexivity.
    + destruct ignore; [eexists _, _; reflexivity|].
      destruct Hs as [Hs|Hs]; [discriminate|].
      rewrite Hs, !andb_false_r. eexists _, _; reflexivity.
    + destruct (truthy namespace); [|eexists _, _; reflexivity].
      simpl in Hv. apply is_Ok_tt in Hv.
      rewrite (bind_eq _ _ _ _ _ (new_Leaf_eq (NamedBackReference name) h Hv)).
      eexists _, _; reflexivity.
    + simpl in Hv. unfold check in Hv.
      destruct (index <? 0)%Z eqn:Ei; [discriminate|]. apply Z.ltb_ge in Ei.
      assert (Hl : LeafT_post_init (Backreference (index + total_capture_groups self))
                   = Ok tt).
      { simpl. unfold check.
        destruct (index + total_capture_groups self <? 0)%Z eqn:E2;
          [apply Z.ltb_lt in E2; lia|reflexivity]. }
      rewrite (bind_eq _ _ _ _ _ (new_Leaf_eq _ h Hl)).
      eexists _, _; reflexivity.
  - simpl in Hv. rewrite andb_true_r in Hv || idtac. apply is_Ok_tt in Hv.
    cbn [_merge_in_element]. unfold bind at 1. cbn [ret fst snd].
    unfold ContainsChild_replace_child. cbn [is_opt negb].
    rewrite (bind_eq _ _ _ _ _ (new_ContainsChild_eq q None h Hv)).
    eexists _, _; reflexivity.
  - simpl in Hv. apply andb_true_iff in Hv. destruct Hv as [Hq Hv].
    apply is_Ok_tt in Hq.
    simpl in Hw. apply andb_true_iff in Hw. destruct Hw as [_ Hw].
    destruct (IH self h Hw Hv Ht Hs Hn) as (r0 & h0 & E0).
    cbn [_merge_in_element].
    rewrite (bind_eq _ _ _ (fst r0, Some (snd r0)) h0)
      by (rewrite (bind_eq _ _ _ _ _ E0); reflexivity).
    cbn [fst snd]. unfold ContainsChild_replace_child. cbn [is_opt].
    unfold is_. rewrite Nat.eqb_refl. cbn [negb].
    rewrite (bind_eq _ _ _ _ _ (new_ContainsChild_eq q (Some (snd r0)) h0 Hq)).
    eexists _, _; reflexivity.
  - simpl in Hv. apply andb_true_iff in Hv. destruct Hv as [Hk Hv].
    apply is_Ok_tt in Hk.
    assert (Hcs : Forall (fun c => valid_tree c = true) cs).
    { apply Forall_forall. intros x Hx. rewrite forallb_forall in Hv.
      apply Hv. apply list_elem_of_In. exact Hx. }
    simpl in Hw. apply andb_true_iff in Hw. destruct Hw as [Hi Hw].
    apply andb_true_iff in Hw. destruct Hw as [Hd Hw].
    cbn [_merge_in_element].
    assert (H1 : exists merged i1 k1 h1,
               (match k with
                | NamedCapture name =>
                    renamed <- (if truthy namespace
                                then new_ContainsChildren
                                       (NamedCapture (namespace ++ name)) cs
                                else ret (ContainsChildren i k cs)) ;;
                    let name' := if truthy namespace then namespace ++ name
                                 else name in
                    if bool_decide (name' ∈ named_groups self)
                    then raise ValueError
                    else ret (_replace self
                                (named_groups_is ({[name']} ∪ named_groups self)),
                              renamed)
                | _ => ret (self, ContainsChildren i k cs)
                end) h = Ok ((merged, ContainsChildren i1 k1 cs), h1)
               /\ h <= h1
               /\ Container_post_init k1 = Ok tt
               /\ (0 <= total_capture_groups merged)%Z
               /\ (ignore = true \/ check_simple_start_and_end merged = false)
               /\ names_mergeable namespace (flat_map capture_names cs) merged).
    { destruct k as [| | |name| | | |];
        try (eexists self, i, _, h; simpl in Hn;
             split; [reflexivity|]; split; [lia|]; split; [exact Hk|];
             split; [exact Ht|]; split; [exact Hs|]; exact Hn).
      simpl in Hn.
      change (name :: flat_map capture_names cs)
        with ([name] ++ flat_map capture_names cs) in Hn.
      apply names_mergeable_app in Hn. destruct Hn as (Hn1 & Hnr & Hx).
      destruct Hn1 as [Hf1 _]. inversion Hf1 as [|? ? [Hcn Hnew] _]; subst.
      assert (Hname : (if truthy namespace then namespace ++ name else name)
                      = namespace ++ name).
      { unfold truthy. destruct (bool_decide (namespace = [])) eqn:B; [|reflexivity].
        apply bool_decide_eq_true in B. rewrite B. reflexivity. }
      assert (Hm : names_mergeable namespace (flat_map capture_names cs)
                     (_replace self
                        (named_groups_is ({[namespace ++ name]} ∪ named_groups self)))).
      { destruct Hnr as [Hf Hdr]. split; [|exact Hdr].
        apply Forall_forall. intros n Hin. rewrite Forall_forall in Hf.
        destruct (Hf n Hin) as [Hcn' Hnew']. split; [exact Hcn'|].
        simpl. intros Hu. apply elem_of_union in Hu. destruct Hu as [Hu|Hu].
        - apply elem_of_singleton in Hu.
          apply (Hx (namespace ++ name)); [left; reflexivity|].
          rewrite <- Hu. apply in_map. apply list_elem_of_In. exact Hin.
        - exact (Hnew' Hu). }
      cbv zeta. rewrite Hname. rewrite bool_decide_eq_false_2 by exact Hnew.
      destruct (truthy namespace).
      - rewrite (bind_eq _ _ _ _ _
                   (new_ContainsChildren_eq (NamedCapture (namespace ++ name)) cs h Hcn)).
        eexists _, _, _, _. split; [reflexivity|].
        split; [lia|]. split; [exact Hcn|].
        split; [exact Ht|]. split; [exact Hs|]. exact Hm.
      - eexists _, _, _, _. split; [reflexivity|].
        split; [lia|]. split; [exact Hk|].
        split; [exact Ht|]. split; [exact Hs|]. exact Hm. }
    destruct H1 as (merged & i1 & k1 & h1 & E1 & Hle & Hk1 & Ht1 & Hs1 & Hn1).
    rewrite (bind_eq _ _ _ _ _ E1). cbn [fst snd].
    apply (merge_children_succeeds cs) with (done := []);
      [exact IH|exact Hk1|exact Hd| |exact Hcs|exact Ht1|exact Hs1|exact Hn1].
    simpl. eapply forallb_well_formed_mono; [|exact Hw]. exact Hle.
Qed.

End Succeeds.

Lemma subexpression_flags expression namespace ignore_flags ignore self h self' h' :
  subexpression expression namespace ignore_flags ignore self h = Ok (self', h') ->
  ignore_flags = true \/ encoding self = encoding expression.
Proof.
  intros E. unfold subexpression in E.
  destruct (negb (length (stack expression) =? 1)).
  { apply bind_Ok in E. destruct E as (? & ? & _ & E). discriminate. }
  apply bind_Ok in E. destruct E as (root & h1 & _ & E).
  apply bind_Ok in E. destruct E as (r & h2 & _ & E).
  apply bind_Ok in E. destruct E as (merged & h3 & Ef & _).
  destruct ignore_flags; [left; reflexivity|right].
  simpl in Ef.
  match type of Ef with
  | (if ?b then _ else _) _ = _ => destruct b eqn:C; [discriminate|]
  end.
  unfold encoding.
  destruct (f_unicode self), (f_unicode expression), (f_ascii self),
    (f_ascii expression), (f_locale self), (f_locale expression);
    simpl in C; try discriminate C; reflexivity.
Qed.

(** The last steps of [subexpression] cannot fail: the merged root has
    children, [Subexpression] accepts them, the push finds its place and
    [end] closes the node that was just opened. *)
Lemma subexpression_tail merged i k children h :
  Inv merged ->
  exists self' h',
    (children <- lift (children_of (ContainsChildren i k children)) ;;
     sub <- new_ContainsChildren Subexpression children ;;
     pushed <- _push merged sub ;;
     end_ pushed) h = Ok (self', h').
Proof.
  intros HI.
  rewrite (bind_eq _ _ _ children h) by reflexivity.
  rewrite (bind_eq _ _ _ _ _
             (new_ContainsChildren_eq Subexpression children h eq_refl)).
  destruct (_push_sound merged (ContainsChildren h Subexpression children) (S h) HI)
    as (current & ancestors & new & copies & h' & _ & Ep & _).
  rewrite (bind_eq _ _ _ _ _ Ep).
  unfold end_, pushed_stack. cbn [isinstance_ContainsChild isinstance_ContainsChildren orb].
  rewrite stack_replace_stack.
  assert (Hlen : (length ((rev copies ++ [new])
                          ++ [ContainsChildren h Subexpression children]) <=? 1)
                 = false).
  { apply Nat.leb_gt. rewrite !length_app. simpl. lia. }
  rewrite Hlen.
  rewrite (bind_eq _ _ _ (ContainsChildren h Subexpression children) h').
  - cbn [isinstance_ContainsChildren negb]. eexists _, _. reflexivity.
  - unfold lift. erewrite top_rev; [reflexivity|]. apply rev_unit.
Qed.

(** X10.  When the anchors of the expression are ignored, or the target
    does not check the anchors, a merge of a reachable expression into a
    reachable target succeeds exactly when the expression has no open
    node, the names of its named captures, the namespace in front, are
    valid names, new to the target and pairwise distinct, and the flags
    are ignored or the encodings of the two agree.  Nothing else, neither
    the shape of either tree nor the backreferences, can stop it. *)
Theorem subexpression_succeeds_iff h self expression namespace ignore_flags ignore :
  reachable h self -> reachable h expression ->
  ignore = true \/ check_simple_start_and_end self = false ->
  ((exists self' h',
      subexpression expression namespace ignore_flags ignore self h
      = Ok (self', h'))
   <-> exists root,
         stack expression = [root]
         /\ names_mergeable namespace (capture_names root) self
         /\ (ignore_flags = true \/ encoding self = encoding expression)).
Proof.
  intros Hr He Hs.
  destruct (reachable_valid _ _ Hr) as (_ & _ & Ht).
  destruct (reachable_valid _ _ He) as (Hve & _ & _).
  pose proof (reachable_well_formed _ _ He) as Hwe.
  pose proof (reachable_Inv _ _ Hr) as HI.
  split.
  - intros (self' & h' & E).
    pose proof (subexpression_flags _ _ _ _ _ _ _ _ E) as Hf.
    apply subexpression_Ok in E.
    destruct E as (root & r & h1 & merged & i & k & children & pushed & h2
                   & Es & Em & _).
    exists root. split; [exact Es|]. split; [|exact Hf].
    rewrite Es in Hve. inversion Hve as [|? ? Hroot _]; subst.
    pose proof (_merge_in_element_names_valid _ _ _ _ _ _ _ Hroot Em) as Hv.
    apply _merge_in_element_names_recorded in Em. destruct Em as (_ & Hnew & Hd).
    split; [|exact Hd].
    apply Forall_forall. intros n Hn. rewrite Forall_forall in Hv, Hnew.
    split; [apply Hv; exact Hn|]. apply Hnew.
    apply list_elem_of_In, in_map, list_elem_of_In. exact Hn.
  - intros (root & Es & Hn & Hf).
    rewrite Es in Hve, Hwe.
    inversion Hve as [|? ? Hroot _]; subst.
    inversion Hwe as [|? ? Hwroot _]; subst.
    destruct (_merge_in_element_succeeds namespace ignore root self h
                Hwroot Hroot Ht Hs Hn) as (r & h1 & Em).
    pose proof (_merge_in_element_names _ _ _ _ _ _ _ Em) as [Hnames _].
    destruct (_merge_in_element_rewrites _ _ _ _ _ _ _ Hwroot Em) as (Her & _).
    destruct (reachable_Inv _ _ He) as [(root' & rest & Es' & HR) _ _ _].
    rewrite Es in Es'. injection Es' as <- <-.
    destruct root as [| |i k cs]; try contradiction.
    destruct (snd r) as [| |i1 k1 cs1] eqn:Esnd; try discriminate Her.
    assert (HIm : Inv (fst r)).
    { eapply Inv_stack; [|exact HI]. symmetry. apply only_names_stack. exact Hnames. }
    unfold subexpression. rewrite Es. cbn [length Nat.eqb negb].
    rewrite (bind_eq _ _ _ (ContainsChildren i k cs) h) by reflexivity.
    rewrite (bind_eq _ _ _ _ _ Em). rewrite Esnd.
    destruct ignore_flags; cbn [negb].
    + exact (subexpression_tail (fst r) i1 k1 cs1 h1 HIm).
    + destruct Hf as [Hf|Hf]; [discriminate|].
      unfold encoding in Hf. injection Hf as Ha Hl Hu.
      rewrite Ha, Hl, Hu, !Bool.eqb_reflx. cbn [negb orb].
      destruct (f_ignorecase expression), (f_multiline expression),
        (f_dotall expression), (f_global expression);
        apply subexpression_tail;
        first [exact HIm | eapply Inv_stack; [|exact HI]; reflexivity].
Qed.

Lemma subexpression_succeeds_iff_witness :
  (exists self' h',
     subexpression named_source (lit "n_") true true (SuperExpressive0 false) 6
     = Ok (self', h'))
  <-> exists root,
        stack named_source = [root]
        /\ names_mergeable (lit "n_") (capture_names root) (SuperExpressive0 false)
        /\ (true = true
            \/ encoding (SuperExpressive0 false) = encoding named_source).
Proof.
  apply (subexpression_succeeds_iff 6 (SuperExpressive0 false) named_source
           (lit "n_") true true).
  - apply (reachable_later 1); [apply reachable_init|lia].
  - exact reachable_named_source.
  - left. reflexivity.
Defined.

(** ** The stack is the open path of one tree *)

Lemma add_child_Ok current element h new h1 :
  add_child current element h = Ok (new, h1) ->
  new = with_child h current element /\ h1 = S h
  /\ isinstance_ContainsChild current || isinstance_ContainsChildren current = true.
Proof.
  intros E.
  destruct current as [i l|i q [c|]|i k cs]; simpl in E; try discriminate.
  - apply new_ContainsChild_Ok in E. destruct E as (-> & -> & _). auto.
  - apply new_ContainsChildren_Ok in E. destruct E as (-> & -> & _). auto.
Qed.

Lemma replace_child_exact b s previous replaced h s' h1 :
  replace_child s previous replaced h = Ok (s', h1) ->
  last_child s previous -> well_formed b s = true ->
  s' = with_last h s replaced /\ h1 = S h.
Proof.
  intros E Hl Hw.
  destruct s as [i l|i q c|i k cs]; [simpl in E; discriminate| |].
  - simpl in E. destruct (negb _); [discriminate|].
    apply new_ContainsChild_Ok in E. destruct E as (-> & -> & _).
    split; reflexivity.
  - simpl in Hl. destruct Hl as (lefts & ->).
    change (replace_child (ContainsChildren i k (lefts ++ [previous]))
              previous replaced h)
      with (ContainsChildren_replace_child
              (ContainsChildren i k (lefts ++ [previous])) previous replaced h) in E.
    apply ContainsChildren_replace_child_Ok in E.
    destruct E as (i0 & k0 & cs0 & E0 & -> & ->). inversion E0; subst.
    split; [|reflexivity]. simpl.
    simpl in Hw. apply andb_true_iff in Hw. destruct Hw as [_ Hw].
    apply andb_true_iff in Hw. destruct Hw as [Hd _].
    rewrite map_app in Hd. simpl in Hd.
    apply distinct_middle in Hd. destruct Hd as (Hd1 & _ & _).
    rewrite replace_middle by (first [apply not_In_oid; assumption|constructor]).
    rewrite removelast_last. reflexivity.
Qed.

Lemma propagate_exact b ancestors : forall previous replaced acc h out h',
  propagate ancestors previous replaced acc h = Ok (out, h') ->
  chained (previous :: ancestors) ->
  Forall (fun s => well_formed b s = true) ancestors ->
  out = acc ++ rebuilt ancestors replaced h.
Proof.
  induction ancestors as [|a rest IH];
    intros previous replaced acc h out h' E Hc Hw; simpl in E.
  - apply ret_Ok in E. destruct E as [-> _]. simpl. rewrite app_nil_r. reflexivity.
  - apply bind_Ok in E. destruct E as (a' & h1 & Er & E).
    destruct Hc as [Hl Hc]. inversion Hw as [|? ? Hwa Hwr]; subst.
    destruct (replace_child_exact _ _ _ _ _ _ _ Er Hl Hwa) as [-> ->].
    apply IH in E; [|exact Hc|exact Hwr].
    rewrite E, <- app_assoc. reflexivity.
Qed.

Lemma _push_exact b self element h self' h' current ancestors :
  _push self element h = Ok (self', h') ->
  rev (stack self) = current :: ancestors ->
  chained (rev (stack self)) ->
  Forall (fun s => well_formed b s = true) (stack self) ->
  self' = _replace self
            (stack_is (pushed_stack element (with_child h current element)
                         (rebuilt ancestors (with_child h current element) (S h))))
  /\ isinstance_ContainsChild current || isinstance_ContainsChildren current = true.
Proof.
  intros E Erev Hc Hw. unfold _push in E.
  apply bind_Ok in E. destruct E as (current' & h0 & Et & E).
  apply lift_Ok in Et. destruct Et as [Et ->].
  rewrite (top_rev _ _ _ Erev) in Et. injection Et as <-.
  apply bind_Ok in E. destruct E as (new & h1 & Ea & E).
  apply add_child_Ok in Ea. destruct Ea as (-> & -> & Hk).
  apply bind_Ok in E. destruct E as (new_stack & h2 & Ep & E).
  rewrite rev_removelast, Erev in Ep. simpl tl in Ep.
  apply (propagate_exact b) in Ep.
  - simpl in Ep. subst new_stack. split; [|exact Hk].
    unfold pushed_stack.
    destruct (isinstance_ContainsChild element || isinstance_ContainsChildren element);
      apply ret_Ok in E; destruct E as [-> _]; reflexivity.
  - rewrite <- Erev. exact Hc.
  - assert (Hrev : Forall (fun s => well_formed b s = true) (current :: ancestors)).
    { rewrite <- Erev. apply Forall_rev. exact Hw. }
    inversion Hrev; assumption.
Qed.

Lemma chained_tail x l : chained (x :: l) -> chained l.
Proof. intros [_ H]. exact H. Qed.

Lemma chained_drop l : chained l -> chained (drop_ContainsChild l).
Proof.
  induction l as [|x l IH]; intros H; [exact I|].
  simpl. destruct (isinstance_ContainsChild x); [|exact H].
  apply IH. eapply chained_tail. exact H.
Qed.

Lemma last_child_with_last i a previous replaced :
  last_child a previous -> last_child (with_last i a replaced) replaced.
Proof.
  destruct a as [|? ? [c|]|? ? cs]; simpl; try contradiction.
  - reflexivity.
  - intros _. exists (removelast cs). reflexivity.
Qed.

Lemma chained_rebuilt ancestors : forall previous replaced i,
  chained (previous :: ancestors) ->
  chained (replaced :: rebuilt ancestors replaced i).
Proof.
  induction ancestors as [|a rest IH]; intros previous replaced i Hc.
  - simpl. auto.
  - destruct Hc as [Hl Hc]. cbn [rebuilt]. split.
    + eapply last_child_with_last. exact Hl.
    + eapply IH. exact Hc.
Qed.

Lemma chained_push b self element h self' h' :
  _push self element h = Ok (self', h') ->
  chained (rev (stack self)) ->
  Forall (fun s => well_formed b s = true) (stack self) ->
  chained (rev (stack self')).
Proof.
  intros E Hc Hw.
  destruct (rev (stack self)) as [|current ancestors] eqn:Erev.
  { unfold _push in E. apply bind_Ok in E. destruct E as (c & h0 & Et & _).
    apply lift_Ok in Et. destruct Et as [Et _].
    unfold top in Et. rewrite Erev in Et. discriminate. }
  pose proof Hc as Hc'. rewrite <- Erev in Hc'.
  destruct (_push_exact b _ _ _ _ _ _ _ E Erev Hc' Hw) as [-> Hk].
  rewrite stack_replace_stack. unfold pushed_stack.
  pose proof (chained_rebuilt ancestors current (with_child h current element) (S h) Hc)
    as Hr.
  destruct (isinstance_ContainsChild element || isinstance_ContainsChildren element).
  - rewrite !rev_app_distr, rev_involutive. simpl. split; [|exact Hr].
    destruct current as [|? ? ?|? ? cs]; simpl in Hk |- *; try discriminate.
    + reflexivity.
    + exists cs. reflexivity.
  - unfold pop_ContainsChild. rewrite rev_involutive.
    rewrite rev_app_distr, rev_involutive. simpl app.
    apply chained_drop. exact Hr.
Qed.

Lemma chained_end self h self' h' :
  end_ self h = Ok (self', h') ->
  chained (rev (stack self)) -> chained (rev (stack self')).
Proof.
  unfold end_. intros E Hc. destruct (_ <=? _); [discriminate|].
  apply bind_Ok in E. destruct E as (current & h1 & _ & E).
  destruct (negb _); [discriminate|].
  apply ret_Ok in E. destruct E as [-> _].
  rewrite stack_replace_stack. unfold pop_ContainsChild.
  rewrite rev_involutive, rev_removelast.
  apply chained_drop.
  destruct (rev (stack self)); [exact I|]. eapply chained_tail. exact Hc.
Qed.

Lemma chained_step o self h self' h' :
  step o self h = Ok (self', h') ->
  chained (rev (stack self)) ->
  Forall (fun s => well_formed h s = true) (stack self) ->
  chained (rev (stack self')).
Proof.
  intros E Hc Hw.
  assert (Hleaf : forall l s0 h0, push_leaf l self h = Ok (s0, h0) ->
                            chained (rev (stack s0))).
  { intros l s0 h0 El. unfold push_leaf in El.
    apply bind_Ok in El. destruct El as (e & h1 & _ & El).
    eapply chained_push; eassumption. }
  assert (Hcont : forall k s0 h0, push_container k self h = Ok (s0, h0) ->
                            chained (rev (stack s0))).
  { intros k s0 h0 El. unfold push_container in El.
    apply bind_Ok in El. destruct El as (e & h1 & _ & El).
    eapply chained_push; eassumption. }
  assert (Hquant : forall q s0 h0, quantify q self h = Ok (s0, h0) ->
                             chained (rev (stack s0))).
  { intros q s0 h0 El. unfold quantify, _quantify in El.
    apply bind_Ok in El. destruct El as (e & h1 & _ & El).
    apply bind_Ok in El. destruct El as (c & h2 & _ & El).
    destruct (isinstance_Quantifier c); [discriminate|].
    eapply chained_push; eassumption. }
  destruct o; simpl in E;
    try (apply ret_Ok in E; destruct E as [-> _]; exact Hc);
    try (eapply Hleaf; eassumption);
    try (eapply Hcont; eassumption);
    try (eapply Hquant; eassumption).
  - unfold named_backreference in E.
    destruct (negb _); [discriminate|]. eapply Hleaf; eassumption.
  - unfold backreference in E.
    destruct (negb _); [discriminate|]. eapply Hleaf; eassumption.
  - unfold capture in E.
    apply bind_Ok in E. destruct E as (pushed & h1 & Ep & E).
    apply ret_Ok in E. destruct E as [-> _]. exact (Hcont _ _ _ Ep).
  - unfold named_capture in E.
    destruct (bool_decide _); [discriminate|].
    apply bind_Ok in E. destruct E as (pushed & h1 & Ep & E).
    apply ret_Ok in E. destruct E as [-> _]. exact (Hcont _ _ _ Ep).
  - unfold start_of_input in E.
    repeat match type of E with
           | (if ?b then _ else _) _ = _ => destruct b; [discriminate|]
           end.
    eapply Hleaf; eassumption.
  - unfold end_of_input in E.
    destruct (_ && _); [discriminate|]. eapply Hleaf; eassumption.
  - eapply chained_end; eassumption.
  - apply subexpression_Ok in E.
    destruct E as (root & r & h1 & merged & i & k & children & pushed & h2
                   & _ & Em & _ & Hm & Ep & E).
    apply _merge_in_element_names in Em. destruct Em as [_ Hle].
    eapply chained_end; [exact E|].
    eapply (chained_push h); [exact Ep|rewrite Hm; exact Hc|rewrite Hm; exact Hw].
  - unfold ascii_backspace in E.
    apply bind_Ok in E. destruct E as (current & h1 & Et & E).
    apply lift_Ok in Et. destruct Et as [_ ->].
    destruct (negb _); [discriminate|]. eapply Hleaf; eassumption.
Qed.

Lemma reachable_chained h self : reachable h self -> chained (rev (stack self)).
Proof.
  induction 1 as [strict|h h' self Hr IH Hle|h o self h' self' Hr IH _ _ E].
  - simpl. auto.
  - exact IH.
  - eapply chained_step; [exact E|exact IH|].
    apply reachable_well_formed. exact Hr.
Qed.

Lemma erase_with_child i t element :
  erase (with_child i t element) = with_child 0 (erase t) (erase element).
Proof.
  destruct t as [|? ? ?|? ? cs]; simpl; try reflexivity.
  rewrite map_app. reflexivity.
Qed.

Lemma at_focus_add n m g : forall e,
  at_focus n (at_focus m g) e = at_focus (n + m) g e.
Proof.
  induction n as [|n IH]; intros e; [reflexivity|].
  destruct e as [|? ? [c|]|? ? cs]; simpl; try reflexivity.
  - rewrite IH. reflexivity.
  - rewrite IH. reflexivity.
Qed.

Lemma erase_with_last i a previous replaced g :
  last_child a previous ->
  erase replaced = g (erase previous) ->
  erase (with_last i a replaced) = at_focus 1 g (erase a).
Proof.
  intros Hl Hg.
  destruct a as [|? ? [c|]|? ? cs]; simpl in Hl; try contradiction.
  - subst c. simpl. rewrite Hg. reflexivity.
  - destruct Hl as (lefts & ->). simpl.
    rewrite removelast_last, !map_app. simpl.
    rewrite removelast_last, last_last, Hg. reflexivity.
Qed.

Lemma last_default {A} (x : A) l d d' : List.last (x :: l) d = List.last (x :: l) d'.
Proof.
  revert x. induction l as [|y l IH]; intros x; [reflexivity|].
  change (List.last (y :: l) d = List.last (y :: l) d'). apply IH.
Qed.

Lemma hd_rev {A} (l : list A) d : hd d (rev l) = List.last l d.
Proof.
  induction l as [|x l _] using rev_ind; [reflexivity|].
  rewrite rev_unit, last_last. reflexivity.
Qed.

Lemma rebuilt_root g ancestors : forall previous replaced i d d',
  chained (previous :: ancestors) ->
  erase replaced = g (erase previous) ->
  erase (List.last (replaced :: rebuilt ancestors replaced i) d)
  = at_focus (length ancestors) g (erase (List.last (previous :: ancestors) d')).
Proof.
  intros previous replaced i d d' Hc Hg. revert previous replaced i g Hc Hg.
  induction ancestors as [|a rest IH]; intros previous replaced i g Hc Hg.
  - simpl. exact Hg.
  - destruct Hc as [Hl Hc]. cbn [rebuilt].
    change (List.last (replaced :: with_last i a replaced
                         :: rebuilt rest (with_last i a replaced) (S i)) d)
      with (List.last (with_last i a replaced
                         :: rebuilt rest (with_last i a replaced) (S i)) d).
    change (List.last (previous :: a :: rest) d')
      with (List.last (a :: rest) d').
    rewrite (IH a (with_last i a replaced) (S i) (at_focus 1 g) Hc
               (erase_with_last i a previous replaced g Hl Hg)).
    rewrite at_focus_add, Nat.add_1_r. reflexivity.
Qed.

Lemma drop_suffix l : exists pre, l = pre ++ drop_ContainsChild l.
Proof.
  induction l as [|x l [pre IH]]; [exists []; reflexivity|].
  simpl. destruct (isinstance_ContainsChild x).
  - exists (x :: pre). simpl. rewrite <- IH. reflexivity.
  - exists []. reflexivity.
Qed.

Lemma pop_prefix s : exists tail, s = pop_ContainsChild s ++ tail.
Proof.
  unfold pop_ContainsChild. destruct (drop_suffix (rev s)) as [pre E].
  exists (rev pre). rewrite <- rev_app_distr, <- E, rev_involutive. reflexivity.
Qed.

(** The root after a push is the root before with the element added at
    the end of the open path. *)
Lemma _push_root b self element h self' h' root rest root' rest' :
  _push self element h = Ok (self', h') ->
  chained (rev (stack self)) ->
  Forall (fun s => well_formed b s = true) (stack self) ->
  stack self = root :: rest -> stack self' = root' :: rest' ->
  erase root' = appended (length rest) element root.
Proof.
  intros E Hc Hw Es Es'.
  destruct (rev (stack self)) as [|current ancestors] eqn:Erev.
  { apply (f_equal (@rev Element)) in Erev. rewrite rev_involutive, Es in Erev.
    discriminate. }
  pose proof Hc as Hc'. rewrite <- Erev in Hc'.
  destruct (_push_exact b _ _ _ _ _ _ _ E Erev Hc' Hw) as [-> _].
  rewrite stack_replace_stack in Es'.
  set (new := with_child h current element) in *.
  set (copies := rebuilt ancestors new (S h)) in *.
  assert (Hroot' : root' = List.last (new :: copies) new).
  { rewrite <- hd_rev. simpl rev. unfold pushed_stack in Es'.
    destruct (isinstance_ContainsChild element || isinstance_ContainsChildren element).
    - destruct (rev copies ++ [new]) as [|x l] eqn:El.
      + destruct (rev copies); discriminate.
      + simpl in Es'. injection Es' as -> _. reflexivity.
    - destruct (pop_prefix (rev copies ++ [new])) as [tail Et].
      rewrite Es' in Et. rewrite Et. reflexivity. }
  assert (Hroot : root = List.last (current :: ancestors) current).
  { rewrite <- hd_rev, <- Erev, rev_involutive, Es. reflexivity. }
  assert (Hlen : length ancestors = length rest).
  { apply (f_equal (@length Element)) in Erev.
    rewrite length_rev, Es in Erev. simpl in Erev. lia. }
  rewrite Hroot', Hroot, <- Hlen. unfold appended.
  apply rebuilt_root; [exact Hc|]. apply erase_with_child.
Qed.

Lemma _push_nonempty self element h self' h' :
  Inv self -> _push self element h = Ok (self', h') ->
  exists root' rest', stack self' = root' :: rest'.
Proof.
  intros HI E.
  destruct (_push_sound self element h HI)
    as (current & ancestors & new & copies & h1 & Erev & E1 & _ & Hsc & _ & Hf & _).
  rewrite E in E1. inversion E1; subst h1 self'. clear E1.
  destruct HI as [(root & rest & Est & Hroot) _ _ _].
  assert (F : Forall2 same_class (stack self) (rev (new :: copies))).
  { rewrite <- (rev_involutive (stack self)), Erev.
    apply Forall2_same_class_rev. constructor; assumption. }
  rewrite Est in F.
  destruct (rev (new :: copies)) as [|root' rest'] eqn:E2; [inversion F|].
  apply Forall2_cons_1 in F. destruct F as [Hr' _].
  assert (Hroot' : is_Root root') by (eapply same_class_Root; eassumption).
  simpl in E2. rewrite stack_replace_stack. unfold pushed_stack. rewrite E2.
  destruct (isinstance_ContainsChild element || isinstance_ContainsChildren element).
  - eexists _, _. reflexivity.
  - rewrite pop_keeps_root by (apply is_Root_not_ContainsChild; exact Hroot').
    eexists _, _. reflexivity.
Qed.

(** X11.  A push adds the element as the last child of the innermost open
    node and changes nothing else: whatever the depth of the stack, the
    tree of the result is, but for the identities of its objects, the
    tree before with the element at the end of the path along the last
    children. *)
Theorem push_appends h self element h0 self' h' :
  reachable h self ->
  _push self element h0 = Ok (self', h') ->
  exists root root',
    bottom (stack self) = Ok root
    /\ bottom (stack self') = Ok root'
    /\ erase root' = appended (length (stack self) - 1) element root.
Proof.
  intros Hr E.
  pose proof (reachable_Inv _ _ Hr) as HI.
  pose proof (reachable_chained _ _ Hr) as Hc.
  pose proof (reachable_well_formed _ _ Hr) as Hw.
  destruct (_push_nonempty _ _ _ _ _ HI E) as (root' & rest' & Es').
  destruct HI as [(root & rest & Es & _) _ _ _].
  exists root, root'. rewrite Es, Es'. split; [reflexivity|]. split; [reflexivity|].
  replace (length (root :: rest) - 1) with (length rest) by (simpl; lia).
  eapply _push_root; eassumption.
Qed.

Lemma push_appends_witness :
  exists root root',
    bottom (stack open_group) = Ok root
    /\ bottom (stack digit_in_group) = Ok root'
    /\ erase root' = appended (length (stack open_group) - 1) (Leaf 3 Digit) root.
Proof.
  apply (push_appends 3 open_group (Leaf 3 Digit) 4 digit_in_group 6).
  - exact reachable_open_group.
  - vm_compute. reflexivity.
Defined.

(** X12.  Closing a node changes which node is open and nothing of the
    tree: after [end] the pattern is the pattern before, and the stack is
    shorter. *)
Theorem end_keeps_pattern h self self' h' :
  reachable h self ->
  end_ self h = Ok (self', h') ->
  __str__ self' = __str__ self
  /\ bottom (stack self') = bottom (stack self)
  /\ length (stack self') < length (stack self).
Proof.
  intros Hr E. destruct (reachable_Inv _ _ Hr) as [(root & rest & Es & HR) _ _ _].
  unfold end_ in E. destruct (length (stack self) <=? 1) eqn:Hlen; [discriminate|].
  apply Nat.leb_gt in Hlen.
  apply bind_Ok in E. destruct E as (current & h1 & _ & E).
  destruct (negb _); [discriminate|].
  apply ret_Ok in E. destruct E as [-> _].
  unfold __str__. rewrite stack_replace_stack, Es in *.
  destruct rest as [|x rest]; [simpl in Hlen; lia|].
  change (removelast (root :: x :: rest)) with (root :: removelast (x :: rest)).
  rewrite pop_keeps_root by (apply is_Root_not_ContainsChild; exact HR).
  split; [reflexivity|]. split; [reflexivity|].
  cbn [length]. rewrite length_rev.
  pose proof (drop_suffix (rev (removelast (x :: rest)))) as [pre Ep].
  apply (f_equal (@length Element)) in Ep.
  rewrite length_app, length_rev in Ep.
  assert (Hl : length (removelast (x :: rest)) = length rest).
  { clear. revert x. induction rest as [|y rest IH]; intros x; [reflexivity|].
    change (removelast (x :: y :: rest)) with (x :: removelast (y :: rest)).
    cbn [length]. f_equal. apply IH. }
  lia.
Qed.

Lemma end_keeps_pattern_witness :
  __str__ (_replace digit_in_group
             (stack_is [ContainsChildren 5 Root
                          [ContainsChildren 4 Group [Leaf 3 Digit]]]))
  = __str__ digit_in_group
  /\ bottom (stack (_replace digit_in_group
                      (stack_is [ContainsChildren 5 Root
                                   [ContainsChildren 4 Group [Leaf 3 Digit]]])))
     = bottom (stack digit_in_group)
  /\ length (stack (_replace digit_in_group
                      (stack_is [ContainsChildren 5 Root
                                   [ContainsChildren 4 Group [Leaf 3 Digit]]])))
     < length (stack digit_in_group).
Proof.
  apply (end_keeps_pattern 6 digit_in_group _ 6).
  - apply (reachable_step 3 O_digit open_group).
    + exact reachable_open_group.
    + intros; discriminate.
    + vm_compute. reflexivity.
  - vm_compute. reflexivity.
Defined.

(** ** Chains that spell a tree *)

Lemma at_focus_step n x y : forall e,
  at_focus (S n) (fun t => with_child 0 t x)
    (at_focus n (fun t => with_child 0 t y) e)
  = at_focus n (fun t => with_child 0 t (with_child 0 y x)) e.
Proof.
  induction n as [|n IH]; intros e.
  - destruct e as [|? ? ?|? ? cs]; simpl; try reflexivity.
    rewrite removelast_last, last_last. reflexivity.
  - destruct e as [|i q [c|]|i k cs]; try reflexivity.
    + cbn [at_focus]. cbn [at_focus] in IH. rewrite IH. reflexivity.
    + cbn [at_focus]. rewrite removelast_last, last_last.
      cbn [at_focus] in IH. rewrite IH. reflexivity.
Qed.

Lemma pop_snoc_false s x :
  isinstance_ContainsChild x = false -> pop_ContainsChild (s ++ [x]) = s ++ [x].
Proof.
  intros Hx. unfold pop_ContainsChild. rewrite rev_unit. simpl. rewrite Hx.
  simpl. rewrite rev_involutive. reflexivity.
Qed.

Lemma pop_snoc_true s y x :
  isinstance_ContainsChild x = true -> isinstance_ContainsChild y = false ->
  pop_ContainsChild ((s ++ [y]) ++ [x]) = s ++ [y].
Proof.
  intros Hx Hy. unfold pop_ContainsChild. rewrite !rev_unit. simpl.
  rewrite Hx, Hy. simpl. rewrite rev_involutive. reflexivity.
Qed.

Lemma shape_rebuilt ancestors : forall replaced i,
  Forall (fun a => isinstance_ContainsChild a || isinstance_ContainsChildren a = true)
    ancestors ->
  List.map isinstance_ContainsChild (rebuilt ancestors replaced i)
  = List.map isinstance_ContainsChild ancestors.
Proof.
  induction ancestors as [|a rest IH]; intros replaced i Hk; [reflexivity|].
  inversion Hk as [|? ? Ha Hr]; subst. cbn [rebuilt List.map].
  rewrite IH by exact Hr. f_equal.
  destruct a; simpl in *; try discriminate; reflexivity.
Qed.

Lemma chained_not_leaf previous ancestors :
  chained (previous :: ancestors) ->
  Forall (fun a => isinstance_ContainsChild a || isinstance_ContainsChildren a = true)
    ancestors.
Proof.
  revert previous. induction ancestors as [|a rest IH]; intros previous Hc;
    [constructor|].
  destruct Hc as [Hl Hc]. constructor; [|eapply IH; exact Hc].
  destruct a as [|? ? [?|]|]; simpl in *; try contradiction; reflexivity.
Qed.

(** What a push does to a state that is ready. *)
Lemma _push_step h self element h0 self' h' root rest :
  ready h self -> stack self = root :: rest ->
  h <= oid element -> h <= h0 -> well_formed h0 element = true ->
  pushable element ->
  _push self element h0 = Ok (self', h') ->
  ready h' self' /\ h0 <= h'
  /\ exists root' rest' base',
       stack self' = root' :: rest'
       /\ erase root' = appended (length rest) element root
       /\ List.map isinstance_ContainsChild base'
          = List.map isinstance_ContainsChild (stack self)
       /\ stack self'
          = if isinstance_ContainsChild element || isinstance_ContainsChildren element
            then base' ++ [element] else pop_ContainsChild base'.
Proof.
  intros (HI & Hc & Hw) Es Ho Hh Hwe Hp E.
  destruct (Inv_push _ _ _ _ _ HI Hp E) as [HI' Hlt].
  pose proof (chained_push h _ _ _ _ _ E Hc Hw) as Hc'.
  destruct (_push_wf h _ _ _ _ _ E Hw Ho Hh Hwe) as [Hw' _].
  split; [split; [exact HI'|split; assumption]|]. split; [lia|].
  destruct (_push_nonempty _ _ _ _ _ HI E) as (root' & rest' & Es').
  exists root', rest'.
  destruct (rev (stack self)) as [|current ancestors] eqn:Erev.
  { apply (f_equal (@rev Element)) in Erev. rewrite rev_involutive, Es in Erev.
    discriminate. }
  assert (Hc0 : chained (rev (stack self))) by (rewrite Erev; exact Hc).
  destruct (_push_exact h _ _ _ _ _ _ _ E Erev Hc0 Hw) as [Hself' Hk].
  exists (rev (rebuilt ancestors (with_child h0 current element) (S h0))
          ++ [with_child h0 current element]).
  split; [exact Es'|]. split; [eapply _push_root; eassumption|]. split.
  - rewrite map_app, map_rev, shape_rebuilt by (eapply chained_not_leaf; exact Hc).
    rewrite <- (rev_involutive (stack self)), Erev. simpl rev.
    rewrite map_app, map_rev. simpl. f_equal. f_equal.
    destruct current; simpl in *; try discriminate; reflexivity.
  - rewrite Hself', stack_replace_stack. reflexivity.
Qed.

Lemma ready_end h self self' h' :
  ready h self -> end_ self h = Ok (self', h') -> ready h' self' /\ h' = h.
Proof.
  intros (HI & Hc & Hw) E.
  destruct (Inv_end _ _ _ _ HI E) as [HI' ->].
  split; [|reflexivity]. split; [exact HI'|]. split.
  - eapply chained_end; eassumption.
  - eapply end_wf; eassumption.
Qed.

Lemma tree_ind' (P : tree -> Prop) :
  (forall l, P (TLeaf l)) ->
  (forall q t, P t -> P (TQuant q t)) ->
  (forall k ts, Forall P ts -> P (TCont k ts)) ->
  forall t, P t.
Proof.
  intros HL HQ HC. fix IH 1. intros [l|q t|k ts].
  - apply HL.
  - apply HQ, IH.
  - apply HC. induction ts as [|t ts IHts]; constructor; [apply IH|exact IHts].
Qed.

Lemma map_snoc_eq {A B} (f : A -> B) l' l x :
  List.map f l' = List.map f (l ++ [x]) ->
  exists l1 x', l' = l1 ++ [x'] /\ List.map f l1 = List.map f l /\ f x' = f x.
Proof.
  intros H. rewrite map_app in H. apply map_eq_app in H.
  destruct H as (l1 & l2 & -> & H1 & H2).
  destruct l2 as [|x' [|? ?]]; try discriminate.
  injection H2 as H2. exists l1, x'. auto.
Qed.

Lemma map_length_eq {A B} (f : A -> B) l l' :
  List.map f l = List.map f l' -> length l = length l'.
Proof.
  intros H. apply (f_equal (@length B)) in H. rewrite !length_map in H. exact H.
Qed.

Lemma run_one o self h : run [o] self h = step o self h.
Proof.
  cbn [run]. unfold bind. destruct (step o self h) as [[s h1]|e]; reflexivity.
Qed.

Lemma run_app a : forall b self h,
  run (a ++ b) self h = (s <- run a self ;; run b s) h.
Proof.
  induction a as [|o a IH]; intros b self h; [reflexivity|].
  cbn [app run]. unfold bind.
  destruct (step o self h) as [[s h1]|e]; [|reflexivity].
  specialize (IH b s h1). unfold bind in IH. exact IH.
Qed.

Lemma leaf_call_step l o self :
  leaf_call l = Some o -> step o self = push_leaf l self.
Proof. destruct l; simpl; intros H; inversion H; reflexivity. Qed.

Lemma quantifier_call_step q self : step (quantifier_call q) self = quantify q self.
Proof. destruct q; reflexivity. Qed.

(** The method of a container is its push, and for [capture] one more
    capture group in the count. *)
Lemma container_call_step k o self h s1 h1 :
  container_call k = Some o ->
  push_container k self h = Ok (s1, h1) ->
  exists opened, step o self h = Ok (opened, h1) /\ stack opened = stack s1.
Proof.
  intros Hk E. destruct k; simpl in Hk; inversion Hk; subst o;
    try (exists s1; split; [exact E|reflexivity]).
  cbn [step]. unfold capture. rewrite (bind_eq _ _ _ _ _ E).
  eexists. split; reflexivity.
Qed.

Lemma ready_stack h a b : stack a = stack b -> ready h a -> ready h b.
Proof.
  intros E (HI & Hc & Hw). split; [eapply Inv_stack; eassumption|].
  rewrite <- E. split; assumption.
Qed.

Lemma push_leaf_grows h self l o root rest base c qs :
  ready h self -> stack self = root :: rest ->
  root :: rest = (base ++ [c]) ++ qs ->
  isinstance_ContainsChild c = false ->
  qs = [] \/ (exists qn, qs = [qn] /\ isinstance_ContainsChild qn = true) ->
  leaf_call l = Some o ->
  LeafT_post_init l = Ok tt ->
  built [o] (Leaf 0 l) h self root rest base.
Proof.
  intros Hr Es Ed Hc Hq Ho Hl. pose proof Hr as (HI & _ & _).
  unfold built. rewrite run_one, (leaf_call_step l o self Ho). unfold push_leaf.
  rewrite (bind_eq _ _ _ _ _ (new_Leaf_eq l h Hl)).
  destruct (_push_succeeds self (Leaf h l) (S h) HI) as (self' & h' & E).
  destruct (_push_step h self (Leaf h l) (S h) self' h' root rest Hr Es)
    as (Hr' & Hle & root' & rest' & base0 & Es' & He & Hm & Hs);
    [simpl; lia|lia|simpl; rewrite andb_true_r; apply Nat.ltb_lt; lia|exact I|exact E|].
  cbn [isinstance_ContainsChild isinstance_ContainsChildren orb] in Hs.
  rewrite Es, Ed in Hm.
  destruct Hq as [->|(qn & -> & Hqn)].
  - rewrite app_nil_r in Hm. apply map_snoc_eq in Hm.
    destruct Hm as (b1 & c' & -> & Hb & Hc').
    rewrite Hc in Hc'. rewrite pop_snoc_false in Hs by exact Hc'.
    exists self', h', root', rest', b1, c'.
    split; [exact E|]. split; [exact Hr'|]. split; [lia|]. split; [exact Es'|].
    split; [rewrite <- Es'; exact Hs|]. split; [exact Hb|]. split; [exact Hc'|].
    exact He.
  - apply map_snoc_eq in Hm. destruct Hm as (b0 & qn' & -> & Hb0 & Hqn').
    apply map_snoc_eq in Hb0. destruct Hb0 as (b1 & c' & -> & Hb & Hc').
    rewrite Hc in Hc'. rewrite Hqn in Hqn'.
    rewrite pop_snoc_true in Hs by assumption.
    exists self', h', root', rest', b1, c'.
    split; [exact E|]. split; [exact Hr'|]. split; [lia|]. split; [exact Es'|].
    split; [rewrite <- Es'; exact Hs|]. split; [exact Hb|]. split; [exact Hc'|].
    exact He.
Qed.

Lemma chain_all_grows k ts :
  Forall (fun t => forall calls self h root rest base c qs,
            ready h self -> stack self = root :: rest ->
            root :: rest = (base ++ [c]) ++ qs ->
            isinstance_ContainsChild c = false ->
            qs = [] \/ (exists qn, qs = [qn] /\ isinstance_ContainsChild qn = true
                                   /\ is_TQuant t = false) ->
            chain t = Some calls ->
            buildable t = true ->
            built calls (node t) h self root rest base) ts ->
  forall body done self h root rest base c n e0,
    ready h self -> stack self = root :: rest ->
    root :: rest = base ++ [c] ->
    isinstance_ContainsChild c = false ->
    chain_all (fun t => chain t) ts = Some body ->
    forallb buildable ts = true ->
    length rest = S n ->
    erase root = at_focus n (fun t => with_child 0 t (ContainsChildren 0 k done)) e0 ->
    exists self' h' root' rest' base' c',
      run body self h = Ok (self', h')
      /\ ready h' self' /\ h <= h'
      /\ stack self' = root' :: rest'
      /\ root' :: rest' = base' ++ [c']
      /\ List.map isinstance_ContainsChild base'
         = List.map isinstance_ContainsChild base
      /\ isinstance_ContainsChild c' = false
      /\ erase root'
         = at_focus n
             (fun t => with_child 0 t
                         (ContainsChildren 0 k
                            (done ++ List.map erase (List.map node ts)))) e0.
Proof.
  induction 1 as [|t ts Ht _ IH];
    intros body done self h root rest base c n e0 Hr Es Ed Hc Hch Hb Hn He.
  - simpl in Hch. injection Hch as <-.
    exists self, h, root, rest, base, c. simpl. rewrite app_nil_r.
    split; [reflexivity|]. split; [exact Hr|]. split; [lia|]. split; [exact Es|].
    split; [exact Ed|]. split; [reflexivity|]. split; [exact Hc|exact He].
  - simpl in Hb. apply andb_true_iff in Hb. destruct Hb as [Hbt Hbs].
    cbn [chain_all] in Hch.
    destruct (chain t) as [calls|] eqn:Ect; [|discriminate].
    destruct (chain_all (fun t0 => chain t0) ts) as [more|] eqn:Ecs; [|discriminate].
    injection Hch as <-.
    assert (Ed0 : root :: rest = (base ++ [c]) ++ []) by (rewrite app_nil_r; exact Ed).
    destruct (Ht calls self h root rest base c [] Hr Es Ed0 Hc (or_introl eq_refl)
                eq_refl Hbt)
      as (s1 & h1 & root1 & rest1 & base1 & c1
          & E1 & Hr1 & Hle1 & Es1 & Ed1 & Hm1 & Hc1 & He1).
    rewrite run_app, (bind_eq _ _ _ _ _ E1).
    assert (Hn1 : length rest1 = S n).
    { apply map_length_eq in Hm1.
      apply (f_equal (@length Element)) in Ed, Ed1.
      rewrite length_app in Ed, Ed1. simpl in Ed, Ed1. lia. }
    assert (He1' : erase root1
                   = at_focus n
                       (fun t0 => with_child 0 t0
                                    (ContainsChildren 0 k (done ++ [erase (node t)])))
                       e0).
    { rewrite He1. unfold appended. rewrite Hn, He, at_focus_step. reflexivity. }
    destruct (IH more (done ++ [erase (node t)]) s1 h1 root1 rest1 base1 c1 n e0
                Hr1 Es1 Ed1 Hc1 eq_refl Hbs Hn1 He1')
      as (s2 & h2 & root2 & rest2 & base2 & c2
          & E2 & Hr2 & Hle2 & Es2 & Ed2 & Hm2 & Hc2 & He2).
    exists s2, h2, root2, rest2, base2, c2.
    split; [exact E2|]. split; [exact Hr2|]. split; [lia|]. split; [exact Es2|].
    split; [exact Ed2|]. split; [rewrite Hm2; exact Hm1|]. split; [exact Hc2|].
    rewrite He2, <- app_assoc. reflexivity.
Qed.

Lemma end_eq self h base c :
  stack self = base ++ [c] -> base <> [] ->
  isinstance_ContainsChildren c = true ->
  end_ self h = Ok (_replace self (stack_is (pop_ContainsChild base)), h).
Proof.
  intros Es Hb Hc. unfold end_. rewrite Es.
  assert (Hlen : (length (base ++ [c]) <=? 1) = false).
  { apply Nat.leb_gt. rewrite length_app. simpl.
    destruct base; [contradiction|simpl; lia]. }
  rewrite Hlen.
  rewrite (bind_eq _ _ _ c h)
    by (unfold lift; erewrite top_rev; [reflexivity|apply rev_unit]).
  rewrite Hc. simpl. rewrite removelast_last. reflexivity.
Qed.

Lemma snoc_cons {A} (b : list A) c root rest tail :
  root :: rest = (b ++ [c]) ++ tail -> exists rest', b ++ [c] = root :: rest'.
Proof.
  destruct b as [|x b]; simpl; intros H; injection H as -> _; eexists; reflexivity.
Qed.

Lemma chain_grows t :
  forall calls self h root rest base c qs,
    ready h self -> stack self = root :: rest ->
    root :: rest = (base ++ [c]) ++ qs ->
    isinstance_ContainsChild c = false ->
    qs = [] \/ (exists qn, qs = [qn] /\ isinstance_ContainsChild qn = true
                           /\ is_TQuant t = false) ->
    chain t = Some calls ->
    buildable t = true ->
    built calls (node t) h self root rest base.
Proof.
  induction t as [l|q t IH|k ts IH] using tree_ind';
    intros calls self h root rest base c qs Hr Es Ed Hc Hq Hch Hb.
  - cbn [chain] in Hch. destruct (leaf_call l) as [o|] eqn:Eo; [|discriminate].
    injection Hch as <-.
    apply push_leaf_grows with (c := c) (qs := qs); try assumption.
    + destruct Hq as [->|(qn & -> & Hqn & _)]; [left; reflexivity|].
      right. exists qn. auto.
    + apply is_Ok_tt. exact Hb.
  - destruct Hq as [->|(qn & _ & _ & Hf)]; [|discriminate Hf].
    rewrite app_nil_r in Ed.
    cbn [chain] in Hch. destruct (chain t) as [calls'|] eqn:Ect; [|discriminate].
    injection Hch as <-.
    simpl in Hb. apply andb_true_iff in Hb. destruct Hb as [Hb Hbt].
    apply andb_true_iff in Hb. destruct Hb as [Hq Hnq].
    apply is_Ok_tt in Hq. apply negb_true_iff in Hnq.
    pose proof Hr as (HI & _ & _).
    destruct (_push_succeeds self (ContainsChild h q None) (S h) HI)
      as (s1 & h1 & E1).
    assert (Eq : step (quantifier_call q) self h = Ok (s1, h1)).
    { rewrite quantifier_call_step. unfold quantify.
      rewrite (bind_eq _ _ _ _ _ (new_ContainsChild_eq q None h Hq)).
      unfold _quantify.
      rewrite (bind_eq _ _ _ c (S h))
        by (unfold lift; rewrite Es, Ed; erewrite top_rev;
            [reflexivity|apply rev_unit]).
      unfold isinstance_Quantifier. rewrite Hc. exact E1. }
    destruct (_push_step h self (ContainsChild h q None) (S h) s1 h1 root rest Hr Es)
      as (Hr1 & Hle1 & root1 & rest1 & base0 & Es1 & He1 & Hm & Hs);
      [simpl; lia|lia|simpl; rewrite andb_true_r; apply Nat.ltb_lt; lia
      |exact Hq|exact E1|].
    cbn [isinstance_ContainsChild isinstance_ContainsChildren orb] in Hs.
    rewrite Es, Ed in Hm. apply map_snoc_eq in Hm.
    destruct Hm as (b1 & c1 & -> & Hb1 & Hc1). rewrite Hc in Hc1.
    assert (Ed1 : root1 :: rest1 = (b1 ++ [c1]) ++ [ContainsChild h q None])
      by (rewrite <- Es1; exact Hs).
    destruct (IH calls' s1 h1 root1 rest1 b1 c1 [ContainsChild h q None]
                Hr1 Es1 Ed1 Hc1)
      as (s2 & h2 & root2 & rest2 & base2 & c2
          & E2 & Hr2 & Hle2 & Es2 & Ed2 & Hm2 & Hc2 & He2);
      [right; eexists; split; [reflexivity|split; [reflexivity|exact Hnq]]
      |reflexivity|exact Hbt|].
    exists s2, h2, root2, rest2, base2, c2.
    split; [cbn [run]; rewrite (bind_eq _ _ _ _ _ Eq); exact E2|].
    split; [exact Hr2|]. split; [lia|]. split; [exact Es2|]. split; [exact Ed2|].
    split; [rewrite Hm2; exact Hb1|]. split; [exact Hc2|].
    assert (Hn1 : length rest1 = S (length rest)).
    { apply map_length_eq in Hb1.
      apply (f_equal (@length Element)) in Ed, Ed1.
      rewrite length_app in Ed. repeat rewrite length_app in Ed1.
      simpl in Ed, Ed1. lia. }
    rewrite He2. unfold appended. rewrite Hn1, He1. unfold appended.
    rewrite at_focus_step. reflexivity.
  - cbn [chain] in Hch.
    destruct (container_call k) as [o|] eqn:Eo; [|discriminate].
    destruct (chain_all (fun t0 => chain t0) ts) as [body|] eqn:Ecs; [|discriminate].
    injection Hch as <-.
    simpl in Hb. apply andb_true_iff in Hb. destruct Hb as [Hk Hbs].
    apply is_Ok_tt in Hk.
    pose proof Hr as (HI & _ & _).
    destruct (_push_succeeds self (ContainsChildren h k []) (S h) HI)
      as (s0 & h1 & E1).
    assert (Ep : push_container k self h = Ok (s0, h1)).
    { rewrite push_container_eq by exact Hk. exact E1. }
    destruct (_push_step h self (ContainsChildren h k []) (S h) s0 h1 root rest Hr Es)
      as (Hr0 & Hle1 & root1 & rest1 & base0 & Es0 & He1 & Hm & Hs0);
      [simpl; lia|lia|simpl; rewrite andb_true_r; apply Nat.ltb_lt; lia
      |exact Hk|exact E1|].
    cbn [isinstance_ContainsChild isinstance_ContainsChildren orb] in Hs0.
    destruct (container_call_step k o self h s0 h1 Eo Ep) as (s1 & Eo1 & Est).
    assert (Hr1 : ready h1 s1) by (apply (ready_stack h1 s0); [symmetry|]; assumption).
    assert (Es1 : stack s1 = root1 :: rest1) by (rewrite Est; exact Es0).
    assert (Ed1 : root1 :: rest1 = base0 ++ [ContainsChildren h k []])
      by (rewrite <- Es0; exact Hs0).
    assert (Hn1 : length rest1 = S (length rest)).
    { apply map_length_eq in Hm. rewrite Es in Hm.
      apply (f_equal (@length Element)) in Ed1.
      rewrite length_app in Ed1. simpl in Ed1, Hm. lia. }
    destruct (chain_all_grows k ts IH body [] s1 h1 root1 rest1 base0
                (ContainsChildren h k []) (length rest) (erase root)
                Hr1 Es1 Ed1 eq_refl Ecs Hbs Hn1 He1)
      as (s2 & h2 & root2 & rest2 & base2 & c2
          & E2 & Hr2 & Hle2 & Es2 & Ed2 & Hm2 & Hc2 & He2).
    assert (Hc2' : isinstance_ContainsChildren c2 = true).
    { destruct Hr2 as ([_ Hsound _ _] & _ & _).
      rewrite Es2, Ed2 in Hsound. apply Forall_app in Hsound.
      destruct Hsound as [_ Hsound]. inversion Hsound as [|? ? Hs2 _]; subst.
      destruct c2; simpl in *; try contradiction; try discriminate; reflexivity. }
    rewrite Hm, Es, Ed in Hm2.
    assert (Hpop : exists b' c', pop_ContainsChild base2 = b' ++ [c']
                            /\ List.map isinstance_ContainsChild b'
                               = List.map isinstance_ContainsChild base
                            /\ isinstance_ContainsChild c' = false
                            /\ exists tail, base2 = (b' ++ [c']) ++ tail).
    { destruct Hq as [->|(qn & -> & Hqn & _)].
      - rewrite app_nil_r in Hm2. apply map_snoc_eq in Hm2.
        destruct Hm2 as (b' & c' & -> & Hb' & Hc'). rewrite Hc in Hc'.
        exists b', c'. rewrite pop_snoc_false by exact Hc'.
        split; [reflexivity|]. split; [exact Hb'|]. split; [exact Hc'|].
        exists []. rewrite app_nil_r. reflexivity.
      - apply map_snoc_eq in Hm2. destruct Hm2 as (b0 & qn' & -> & Hb0 & Hqn').
        apply map_snoc_eq in Hb0. destruct Hb0 as (b' & c' & -> & Hb' & Hc').
        rewrite Hc in Hc'. rewrite Hqn in Hqn'.
        exists b', c'. rewrite pop_snoc_true by assumption.
        split; [reflexivity|]. split; [exact Hb'|]. split; [exact Hc'|].
        exists [qn']. reflexivity. }
    destruct Hpop as (b' & c' & Hpop & Hb' & Hc' & tail & Et).
    assert (Hne : base2 <> []).
    { rewrite Et. destruct b'; discriminate. }
    assert (Es2' : stack s2 = base2 ++ [c2]) by (rewrite Es2; exact Ed2).
    pose proof (end_eq s2 h2 base2 c2 Es2' Hne Hc2') as E3.
    destruct (ready_end _ _ _ _ Hr2 E3) as [Hr3 _].
    assert (Hroot : exists rest', b' ++ [c'] = root2 :: rest').
    { apply (snoc_cons b' c' root2 rest2 (tail ++ [c2])).
      rewrite app_assoc, <- Et. exact Ed2. }
    destruct Hroot as (rest' & Hroot).
    exists (_replace s2 (stack_is (pop_ContainsChild base2))), h2, root2, rest', b', c'.
    split.
    { cbn [run]. rewrite (bind_eq _ _ _ _ _ Eo1), run_app, (bind_eq _ _ _ _ _ E2).
      rewrite run_one. exact E3. }
    split; [exact Hr3|]. split; [lia|].
    rewrite stack_replace_stack, Hpop.
    split; [exact Hroot|]. split; [symmetry; exact Hroot|].
    split; [exact Hb'|]. split; [exact Hc'|].
    rewrite He2. reflexivity.
Qed.

(** X13.  The chain of public calls that spells a tree builds that tree.
    The trees are those of leaves, quantifiers and containers whose
    classes have a method that only pushes: every leaf but the anchors,
    the backreferences and [AsciiBackspace], every quantifier, and the
    containers of [any_of], [group], [assert_ahead], [assert_not_ahead]
    and [capture].  On a reachable state whose innermost open node is a
    container, when the classes accept the arguments and no quantifier is
    applied to a quantifier, the chain (every leaf by its method, every
    quantifier before what it applies to, every container opened, filled
    and closed with [end]) succeeds, leaves the same nodes open, and adds
    the node of the tree as the last child of the innermost open node,
    changing nothing else; on a finished expression the pattern of the
    result is the pattern before followed by the text of the tree. *)
Theorem chain_builds h self t calls c :
  reachable h self ->
  top (stack self) = Ok c -> isinstance_ContainsChildren c = true ->
  chain t = Some calls ->
  buildable t = true ->
  exists self' h' root root',
    run calls self h = Ok (self', h')
    /\ bottom (stack self) = Ok root
    /\ bottom (stack self') = Ok root'
    /\ erase root' = appended (length (stack self) - 1) (node t) root
    /\ length (stack self') = length (stack self)
    /\ (length (stack self) = 1 ->
        __str__ self' = Ok (str_ root ++ str_ (node t))).
Proof.
  intros Hr Et Hc Hch Hb.
  pose proof (reachable_Inv _ _ Hr) as HI.
  assert (Hready : ready h self).
  { split; [exact HI|]. split;
      [apply (reachable_chained h); exact Hr|apply reachable_well_formed; exact Hr]. }
  destruct HI as [(root & rest & Es & HR) _ _ _].
  apply top_Ok in Et. destruct Et as (ancestors & Erev).
  assert (Ed : root :: rest = (rev ancestors ++ [c]) ++ []).
  { rewrite app_nil_r, <- Es, <- (rev_involutive (stack self)), Erev. reflexivity. }
  assert (Hcc : isinstance_ContainsChild c = false)
    by (destruct c; simpl in *; try discriminate; reflexivity).
  destruct (chain_grows t calls self h root rest (rev ancestors) c [] Hready Es Ed Hcc
              (or_introl eq_refl) Hch Hb)
    as (self' & h' & root' & rest' & base' & c'
        & E & _ & _ & Es' & Ed' & Hm & _ & He).
  exists self', h', root, root'.
  split; [exact E|]. rewrite Es, Es'.
  split; [reflexivity|]. split; [reflexivity|].
  replace (length (root :: rest) - 1) with (length rest) by (simpl; lia).
  split; [exact He|]. split.
  - apply map_length_eq in Hm. rewrite Ed, Ed', app_nil_r, !length_app, Hm.
    reflexivity.
  - intros Hl. destruct rest; [|simpl in Hl; lia].
    unfold __str__. rewrite Es'. simpl. f_equal.
    rewrite <- (str_erase root'), He. unfold appended. simpl at_focus.
    destruct root as [| |i k cs]; try contradiction.
    destruct k; try contradiction.
    cbn [erase with_child str_]. rewrite !map_app, concat_app. simpl.
    rewrite app_nil_r, str_erase. f_equal.
    rewrite map_map. f_equal. apply map_ext. intros e. apply str_erase.
Qed.

Lemma chain_builds_witness :
  exists self' h' root root',
    run [O_capture; O_digit; O_optional; O_any_char; O_end]
      (SuperExpressive0 false) 1
    = Ok (self', h')
    /\ bottom (stack (SuperExpressive0 false)) = Ok root
    /\ bottom (stack self') = Ok root'
    /\ erase root'
       = appended (length (stack (SuperExpressive0 false)) - 1)
           (node (TCont Capture [TLeaf Digit; TQuant Opt (TLeaf AnyChar)])) root
    /\ length (stack self') = length (stack (SuperExpressive0 false))
    /\ (length (stack (SuperExpressive0 false)) = 1 ->
        __str__ self'
        = Ok (str_ root
              ++ str_ (node (TCont Capture
                               [TLeaf Digit; TQuant Opt (TLeaf AnyChar)])))).
Proof.
  apply (chain_builds 1 (SuperExpressive0 false)
           (TCont Capture [TLeaf Digit; TQuant Opt (TLeaf AnyChar)])
           [O_capture; O_digit; O_optional; O_any_char; O_end]
           Root0).
  - apply reachable_init.
  - reflexivity.
  - reflexivity.
  - reflexivity.
  - reflexivity.
Defined.

(** The chain of [group], [digit], [optional], [any_char], [end] on a new
    expression and inside the open group of [open_group]; and a leaf whose
    method tests the state: [ascii_backspace] has no place in a chain of
    pushes, and outside an alternation it raises. *)
Example chain_group :
  chain (TCont Group [TLeaf Digit; TQuant Opt (TLeaf AnyChar)])
  = Some [O_group; O_digit; O_optional; O_any_char; O_end]
  /\ pattern (run [O_group; O_digit; O_optional; O_any_char; O_end]
                (SuperExpressive0 false))
     = Ok (lit "(?:\d.?)")
  /\ match run [O_group; O_digit; O_optional; O_any_char; O_end] open_group 3 with
     | Ok (s, _) => __str__ s
     | Raise e => Raise e
     end = Ok (lit "(?:(?:\d.?))")
  /\ chain (TLeaf AsciiBackspace) = None
  /\ pattern (run [O_ascii_backspace] (SuperExpressive0 false))
     = Raise RuntimeError.
Proof. repeat split; vm_compute; reflexivity. Qed.
